(** * PyQuante: Becke molecular grids, density-matrix purification and the
      unrestricted Hartree-Fock solver

    A shallow embedding of [PyQuante/MolecularGrid.py], [PyQuante/dmm.py] and
    [PyQuante/UHFSolver.py].

    Numbers.  Python floats are idealised as real numbers ([R]): rounding,
    overflow, infinities and NaN are outside the model.  What is kept of
    Python's float semantics is that a division by zero raises
    [ZeroDivisionError] instead of producing a value.  The division of an
    array by a scalar zero is modelled in the same way (what Numeric does
    there, an exception or infinite entries, depends on the platform); in the
    embedded code it can only happen when the two Gershgorin bounds of the
    Fock matrix coincide.

    Arrays.  A Numeric array of rank 1 is a [list R], an array of rank 2 is the
    list of its rows.  Operations of Numeric that need conforming shapes raise
    [ValueError] on operands that do not conform; Numeric's broadcasting of
    axes of length one is not modelled: the operands of the embedded code are
    the square matrices of one basis.

    Exceptions.  Code that can raise returns a [result]; the Python statements
    are sequenced with the bind of this error monad. *)

From Stdlib Require Import String ZArith Reals Lra Psatz.
From stdpp Require Import base option list.

Open Scope R_scope.

(** ** Python exceptions and the error monad *)

Inductive exn : Type :=
| ZeroDivisionError              (* float division by zero *)
| ValueError                     (* min() of an empty sequence, shape mismatch *)
| IndexError                     (* subscript out of range *)
| TypeError                      (* iteration over a number *)
| AttributeError                 (* attribute read before it was assigned *)
| UnboundLocalError              (* local variable read before it was bound *)
| StringException (msg : string) (arg : Z).  (* raise "..." % arg *)

Inductive result (A : Type) : Type :=
| Ok (a : A)
| Raise (e : exn).
Arguments Ok {A} a.
Arguments Raise {A} e.

#[global] Instance result_ret : MRet result := fun A a => Ok a.
#[global] Instance result_bind : MBind result := fun A B f m =>
  match m with
  | Ok a => f a
  | Raise e => Raise e
  end.

Definition raises {A} (m : result A) : Prop := ∃ e, m = Raise e.

(** [a / b] on Python floats. *)
Definition fdiv (a b : R) : result R :=
  if Req_dec_T b 0 then Raise ZeroDivisionError else Ok (a / b).

(** [lst[i]] *)
Definition getitem {A} (l : list A) (i : nat) : result A :=
  match l !! i with
  | Some a => Ok a
  | None => Raise IndexError
  end.

(** The builtin [sum] on a sequence of floats: [0 + l0 + l1 + ...]. *)
Definition py_sum (l : list R) : R := foldl Rplus 0 l.

(** The builtins [min] and [max] on a list of floats. *)
Definition py_min (l : list R) : result R :=
  match l with
  | [] => Raise ValueError
  | x :: l' => Ok (foldl Rmin x l')
  end.

Definition py_max (l : list R) : result R :=
  match l with
  | [] => Raise ValueError
  | x :: l' => Ok (foldl Rmax x l')
  end.

(** ** NumWrap: the Numeric arrays used by the code *)

Module NumWrap.

Abbreviation vector := (list R).
Abbreviation matrix := (list (list R)).

(** [A.shape] of a rank-2 array. *)
Definition ncols (A : matrix) : nat :=
  match A with
  | [] => 0%nat
  | r :: _ => length r
  end.
Definition shape (A : matrix) : nat * nat := (length A, ncols A).

(** Numeric arrays are rectangular. *)
Definition rect (n m : nat) (A : matrix) : Prop :=
  length A = n ∧ Forall (λ r, length r = m) A.

(** [A[i,j]], and its total reading used in statements. *)
Definition getitem2 (A : matrix) (i j : nat) : result R :=
  r ← getitem A i; getitem r j.
Definition ent (A : matrix) (i j : nat) : R :=
  default 0 (A !! i ≫= (.!! j)).

(** The array with entry [f i j] at [i,j]. *)
Definition mat_of (n m : nat) (f : nat → nat → R) : matrix :=
  (λ i, f i <$> seq 0 m) <$> seq 0 n.

(** Elementwise operations, on conforming operands. *)
Definition mzip (f : R → R → R) (A B : matrix) : matrix :=
  zip_with (zip_with f) A B.
Definition mplus : matrix → matrix → matrix := mzip Rplus.
Definition mminus : matrix → matrix → matrix := mzip Rminus.

Definition conform (A B : matrix) : bool :=
  bool_decide (length A = length B) &&
  bool_decide (Forall2 (λ r s : vector, length r = length s) A B).

Definition elementwise (f : R → R → R) (A B : matrix) : result matrix :=
  if conform A B then Ok (mzip f A B) else Raise ValueError.

(** [A + B], [A - B] *)
Definition add : matrix → matrix → result matrix := elementwise Rplus.
Definition sub : matrix → matrix → result matrix := elementwise Rminus.

(** [c * A] and [A / c] with a scalar [c]. *)
Definition scal (c : R) (A : matrix) : matrix := (λ r : vector, Rmult c <$> r) <$> A.
Definition mdiv (A : matrix) (c : R) : matrix := (λ r : vector, (λ x, x / c) <$> r) <$> A.
Definition div (A : matrix) (c : R) : result matrix :=
  if Req_dec_T c 0 then Raise ZeroDivisionError else Ok (mdiv A c).

(** [identity(n,'d')] *)
Definition identity (n : nat) : matrix :=
  mat_of n n (λ i j, if Nat.eqb i j then 1 else 0).

(** [diagonal(A)]: the entries [A[i,i]] that exist. *)
Fixpoint diagonal_from (i : nat) (A : matrix) : vector :=
  match A with
  | [] => []
  | r :: A' =>
      match r !! i with
      | Some x => x :: diagonal_from (S i) A'
      | None => []
      end
  end.
Definition diagonal (A : matrix) : vector := diagonal_from 0 A.

(** [matrixmultiply(A,B)] *)
Definition dot (u v : vector) : R := py_sum (zip_with Rmult u v).
Definition column (B : matrix) (j : nat) : vector :=
  (λ r : vector, default 0 (r !! j)) <$> B.
Definition mmul (A B : matrix) : matrix :=
  (λ r : vector, (λ j, dot r (column B j)) <$> seq 0 (ncols B)) <$> A.
Definition matrixmultiply (A B : matrix) : result matrix :=
  if bool_decide (Forall (λ r : vector, length r = length B) A)
  then Ok (mmul A B) else Raise ValueError.

(** The builtin [sum] on a rank-2 array adds its rows: [0 + A[0] + A[1] + ...];
    on an array without rows it returns the integer [0]. *)
Definition vplus (u v : vector) : vector := zip_with Rplus u v.
Inductive sum_value : Type :=
| SumInt0
| SumArray (v : vector).
Definition sum_rows (A : matrix) : sum_value :=
  match A with
  | [] => SumInt0
  | r :: A' => SumArray (foldl vplus r A')
  end.
(** [sum(sum(D))] *)
Definition sum_sum (A : matrix) : result R :=
  match sum_rows A with
  | SumInt0 => Raise TypeError
  | SumArray v => Ok (py_sum v)
  end.

End NumWrap.

(** ** Loops *)

(** [for i in ixs: s = body(i, s)], where the body can raise. *)
Fixpoint for_each {S : Type} (body : nat → S → result S) (ixs : list nat) (s : S)
  : result S :=
  match ixs with
  | [] => Ok s
  | i :: ixs' => s' ← body i s; for_each body ixs' s'
  end.

(** [range(n)] *)
Definition range (n : nat) : list nat := seq 0 n.

(** ** MolecularGrid.py *)

Module MolecularGrid.
Import NumWrap.

(** A grid point: position and weight ([GridPoint._x], ..., [GridPoint._w]). *)
Record GridPoint : Type := mkGridPoint { _x : R; _y : R; _z : R; _w : R }.
Definition xyzw (p : GridPoint) : R * R * R * R := (_x p, _y p, _z p, _w p).

(** An atom: atomic number and position ([atom.atno], [atom.pos()]). *)
Record Atom : Type := mkAtom { atno : Z; pos : R * R * R }.

(** An atomic grid is the ordered sequence of its points. *)
Abbreviation AtomicGrid := (list GridPoint).

(** The keyword options read by this module. *)
Record opts : Type := mkOpts {
  do_grad_dens : bool;      (* opts.get('do_grad_dens',False) *)
  do_becke_hetero : bool    (* opts.get('do_becke_hetero',False) *)
}.

(** The module [AtomicGrid], a collaborator that is not part of the embedded
    sources: the constructor of an atom's grid from the atom, [nrad],
    [fineness] and the options, and the table [Bragg] of Bragg-Slater radii
    indexed by atomic number. *)
Class AtomicGridModule : Type := {
  AtomicGrid_new : Atom → Z → Z → opts → AtomicGrid;
  Bragg : Z → option R
}.

(** Modelled from the spec: [PyQuante.cints.dist2], a C extension that is not
    part of the embedded sources; the spec calls [sqrt(dist2(a,b))] the
    Euclidean distance between [a] and [b], so [dist2] is its square. *)
Definition dist2 (a b : R * R * R) : R :=
  let '(xa, ya, za) := a in
  let '(xb, yb, zb) := b in
  (xa - xb) * (xa - xb) + (ya - yb) * (ya - yb) + (za - zb) * (za - zb).

(** The Becke projection operator. *)
Definition pbecke (x : R) : R := 1.5 * x - 0.5 * x ^ 3.

Fixpoint fbecke (x : R) (n : nat) : R :=
  match n with
  | O => x
  | S n' => fbecke (pbecke x) n'
  end.

Definition sbecke (x : R) (n : nat) : R := 0.5 * (1 - fbecke x n).

Record MolecularGrid : Type := mkMolecularGrid {
  self_do_grad_dens : bool;
  atoms : list Atom;
  nrad : Z;
  fineness : Z;
  atomgrids : list AtomicGrid;
  _length : option nat
}.

Section methods.
Context `{AtomicGridModule}.

(** [Bragg[atno]] *)
Definition Bragg_item (a : Z) : result R :=
  match Bragg a with
  | Some r => Ok r
  | None => Raise IndexError
  end.

Definition make_atom_grids (atoms : list Atom) (nrad fineness : Z) (o : opts)
  : list AtomicGrid :=
  (λ atom, AtomicGrid_new atom nrad fineness o) <$> atoms.

(** Lines 66-80: the body of the loop over [jat], for [jat != iat]; it returns
    the new value of [sprod]. *)
Definition patch_atoms_jat (o : opts) (ati atj : Atom) (p : R * R * R)
    (rip sprod : R) : result R :=
  let rjp2 := dist2 (pos atj) p in
  let rjp := sqrt rjp2 in
  let rij2 := dist2 (pos ati) (pos atj) in
  let rij := sqrt rij2 in
  mu ← fdiv (rip - rjp) rij;
  mu ← (if do_becke_hetero o && negb (atno ati =? atno atj)%Z then
          bi ← Bragg_item (atno ati);
          bj ← Bragg_item (atno atj);
          chi ← fdiv bi bj;
          u ← fdiv (chi - 1) (chi + 1);
          a ← fdiv u (u * u - 1);
          let a := Rmin a 0.5 in
          let a := Rmax a (-0.5) in
          Ok (mu + a * (1 - mu * mu))
        else Ok mu);
  Ok (sprod * sbecke mu 3).

(** Lines 63-80: [sprod] for the point [p] of atom [iat]. *)
Definition patch_atoms_sprod (o : opts) (atoms : list Atom) (iat : nat)
    (ati : Atom) (p : R * R * R) (rip : R) : result R :=
  for_each (λ jat sprod,
      if Nat.eqb jat iat then Ok sprod
      else atj ← getitem atoms jat;
           patch_atoms_jat o ati atj p rip sprod)
    (range (length atoms)) 1.

(** Lines 59-82: the body of the loop over the points [i] of atom [iat]; the
    weight of the point is updated in place. *)
Definition patch_atoms_point (o : opts) (atoms : list Atom) (iat : nat)
    (ati : Atom) (i : nat) (grids : list AtomicGrid)
  : result (list AtomicGrid) :=
  grid ← getitem grids iat;
  point ← getitem grid i;
  let '(xp, yp, zp, wp) := xyzw point in
  let rip2 := dist2 (pos ati) (xp, yp, zp) in
  let rip := sqrt rip2 in
  sprod ← patch_atoms_sprod o atoms iat ati (xp, yp, zp) rip;
  let point' := mkGridPoint (_x point) (_y point) (_z point) (_w point * sprod) in
  Ok (<[iat := <[i := point']> grid]> grids).

(** Lines 56-82: the body of the loop over the atoms [iat]. *)
Definition patch_atoms_atom (o : opts) (atoms : list Atom) (iat : nat)
    (grids : list AtomicGrid) : result (list AtomicGrid) :=
  ati ← getitem atoms iat;
  grid ← getitem grids iat;
  let npts := length grid in
  for_each (patch_atoms_point o atoms iat ati) (range npts) grids.

Definition patch_atoms (o : opts) (atoms : list Atom) (grids : list AtomicGrid)
  : result (list AtomicGrid) :=
  let nat := length atoms in
  for_each (patch_atoms_atom o atoms) (range nat) grids.

(** [MolecularGrid(atoms, nrad, fineness, **opts)] *)
Definition __init__ (atoms : list Atom) (nrad fineness : Z) (o : opts)
  : result MolecularGrid :=
  let grids := make_atom_grids atoms nrad fineness o in
  grids' ← patch_atoms o atoms grids;
  Ok (mkMolecularGrid (do_grad_dens o) atoms nrad fineness grids' None).

(** [points()] and [weights()]: all points, and their weights, atom by atom. *)
Definition points (g : MolecularGrid) : list GridPoint := concat (atomgrids g).
Definition weights (g : MolecularGrid) : list R := _w <$> points g.

(** [len(grid)]: the number of points, which is also stored in [_length]. *)
Definition __len__ (g : MolecularGrid) : nat * MolecularGrid :=
  let n := foldl (λ n agr, (n + length agr)%nat) 0%nat (atomgrids g) in
  (n, mkMolecularGrid (self_do_grad_dens g) (atoms g) (nrad g) (fineness g)
        (atomgrids g) (Some n)).

End methods.

End MolecularGrid.

(** ** Output *)

(** What the code prints. *)
Inductive output : Type :=
| print_bisection (elow ehigh nelow Ne nehigh : R)
    (* print elow,ehigh,nelow,Ne,nehigh *)
| print_warning_maxiters.
    (* print "DMM: Warning MaxIters reached" *)

(** A computation that prints and can raise: what was printed, in order, and
    the outcome. *)
Definition prog (A : Type) : Type := (list output * result A)%type.

#[global] Instance prog_ret : MRet prog := fun A a => ([], Ok a).
#[global] Instance prog_bind : MBind prog := fun A B f m =>
  match m with
  | (out, Ok a) => let '(out', r) := f a in (out ++ out', r)
  | (out, Raise e) => (out, Raise e)
  end.

Definition lift {A} (r : result A) : prog A := ([], r).
Definition print (o : output) : prog unit := ([o], Ok tt).

(** [for i in ixs: ...] with [break]: the body returns the new state and
    whether it left the loop with [break]; the loop returns the last state and
    whether it was left with [break] ([false]: the [else] clause of the loop
    runs). *)
Fixpoint for_break {M : Type → Type} `{MBind M, MRet M} {S : Type}
    (body : nat → S → M (S * bool)%type) (ixs : list nat) (s : S)
  : M (S * bool)%type :=
  match ixs with
  | [] => mret (s, false)
  | i :: ixs' =>
      '(s', brk) ← body i s;
      if brk : bool then mret (s', true) else for_break body ixs' s'
  end.

(** ** dmm.py *)

Module dmm.
Import NumWrap.

(** [simx(A,B,trans)]: the argument [trans] is ['N'] (default) or ['T']. *)
Inductive trans : Type := TransN | TransT.

(** [PyQuante.LA2], a collaborator that is not part of the embedded sources:
    the symmetric orthogonaliser of the overlap matrix and the similarity
    transformation by a matrix or its transpose. *)
Class LA2 : Type := {
  SymOrth : matrix → result matrix;
  simx : matrix → matrix → trans → result matrix
}.

Definition gershgorin_row (A : matrix) (i : nat) (st : list R * list R)
  : result (list R * list R) :=
  row ← getitem A i;
  aii ← getitem2 A i i;
  let offsum := py_sum (Rabs <$> row) - Rabs aii in
  Ok (st.1 ++ [aii - offsum], st.2 ++ [aii + offsum]).

Definition gershgorin_minmax (A : matrix) : result (R * R) :=
  let '(n, m) := shape A in
  st ← for_each (gershgorin_row A) (range n) ([], []);
  emin ← py_min st.1;
  emax ← py_max st.2;
  Ok (emin, emax).

Definition trace (A : matrix) : R := py_sum (diagonal A).

(** [alpha*(e*I-F) + beta*I] *)
Definition fermi_matrix (alpha beta e : R) (I F : matrix) : result matrix :=
  t ← sub (scal e I) F;
  add (scal alpha t) (scal beta I).

(** The state of the bisection loop of [Dinit_mcw]; [efermi] is bound by the
    first iteration. *)
Record bisection : Type := mkBisection {
  elow : R; ehigh : R; nelow : R; nehigh : R; efermi : option R
}.

Definition Dinit_mcw_iter (F I : matrix) (Ne tol alpha beta : R) (i : nat)
    (st : bisection) : prog (bisection * bool) :=
  let efermi := 0.5 * (elow st + ehigh st) in
  m ← lift (fermi_matrix alpha beta efermi I F);
  let nefermi := trace m in
  _ ← print (print_bisection (elow st) (ehigh st) (nelow st) Ne (nehigh st));
  let st := mkBisection (elow st) (ehigh st) (nelow st) (nehigh st) (Some efermi) in
  mret (if Rlt_dec (Rabs (Ne - nefermi)) tol then (st, true)
        else if Rlt_dec nefermi Ne then
          (mkBisection efermi (ehigh st) nefermi (nehigh st) (Some efermi), false)
        else if Rgt_dec nefermi Ne then
          (mkBisection (elow st) efermi (nelow st) nefermi (Some efermi), false)
        else (st, false)).

Definition Dinit_mcw (F : matrix) (Ne : R) (tol : R) (maxit : Z) : prog matrix :=
  let beta := 0.5 in
  mm ← lift (gershgorin_minmax F);
  let '(emin, emax) := mm in
  let I := identity (shape F).1 in
  let elow := emin in
  let ehigh := emax + 20 in
  let de := emax - elow in
  alpha ← lift (fdiv beta de);
  mlow ← lift (fermi_matrix alpha beta elow I F);
  let nelow := trace mlow in
  mhigh ← lift (fermi_matrix alpha beta ehigh I F);
  let nehigh := trace mhigh in
  '(st, _) ← for_break (Dinit_mcw_iter F I Ne tol alpha beta) (range 100)
               (mkBisection elow ehigh nelow nehigh None);
  efermi ← lift (match efermi st with
                 | Some e => Ok e
                 | None => Raise UnboundLocalError
                 end);
  a1 ← lift (fdiv beta (emax - efermi));
  a2 ← lift (fdiv (1 - beta) (efermi - emin));
  let alpha := Rmin a1 a2 in
  lift (fermi_matrix alpha beta efermi I F).

Section DMP.
Context `{LA2}.

(** Step 2 of [DMP] (lines 80-93), on the orthogonalised Fock matrix. *)
Definition DMP_init (F : matrix) (Ne : R) (Method : Z) : prog matrix :=
  mm ← lift (gershgorin_minmax F);
  let '(emin, emax) := mm in
  let N := (shape F).1 in
  let I := identity N in
  if ((Method =? 0) || (Method =? 1))%Z then
    lift (t ← sub (scal emax I) F; div t (emax - emin))
  else if (Method =? 2)%Z then
    Dinit_mcw F Ne 1e-7 100
  else if (Method =? 3)%Z then
    lift (efermi ← fdiv (trace F) (INR N);
          beta ← fdiv Ne (INR N);
          a1 ← fdiv Ne (emax - efermi);
          a2 ← fdiv (INR N - Ne) (efermi - emin);
          alpha ← fdiv (Rmin a1 a2) (INR N);
          fermi_matrix alpha beta efermi I F)
  else
    lift (Raise (StringException "Unknown method %d" Method)).

(** The loop variables of step 3: [D] and [Dsumold]. *)
Abbreviation dmp_state := (matrix * R)%type.

(** One iteration of step 3 (lines 98-133): the new state, and whether the
    loop is left with [break]. *)
Definition DMP_iter (Ne ErrorLimit : R) (Method : Z) (I : matrix) (iter : nat)
    (st : dmp_state) : result (dmp_state * bool) :=
  let '(D, Dsumold) := st in
  let Ne_curr := trace D in
  D2 ← matrixmultiply D D;
  if (Method =? 0)%Z then
    D' ← (if Rlt_dec Ne_curr Ne then sub (scal 2 D) D2 else Ok D2);
    Ok ((D', Dsumold),
        if Rlt_dec (Rabs (Ne_curr - Ne)) ErrorLimit then true else false)
  else if (Method =? 1)%Z then
    t ← sub (scal 4 D) (scal 3 D2);
    Df ← matrixmultiply D2 t;
    let trf := trace Df in
    Dp ← sub I D;
    Dp2 ← matrixmultiply Dp Dp;
    Dg ← matrixmultiply D2 Dp2;
    let trg := trace Dg in
    gamma ← fdiv (Ne - trf) trg;
    D' ← (if Rgt_dec gamma 2 then sub (scal 2 D) D2
          else if Rlt_dec gamma 0 then Ok D2
          else sub Df (scal gamma Dg));
    Ok ((D', Dsumold),
        if Rlt_dec (Rabs (Ne_curr - Ne)) ErrorLimit then true else false)
  else if (Method =? 2)%Z then
    DD2 ← matrixmultiply D D2;
    D' ← sub (scal 3 D2) (scal 2 DD2);
    Ok ((D', Dsumold),
        if Rlt_dec (Rabs (Ne_curr - Ne)) ErrorLimit then true else false)
  else if (Method =? 3)%Z then
    D3 ← matrixmultiply D D2;
    num ← sub D2 D3;
    den ← sub D D2;
    cn ← fdiv (trace num) (trace den);
    D' ← (if Rlt_dec cn 0.5 then
            t ← add (scal (1.0 - 2.0 * cn) D) (scal (1.0 + cn) D2);
            t ← sub t D3;
            div t (1.0 - cn)
          else
            t ← sub (scal (1 + cn) D2) D3;
            div t cn);
    Dsum ← sum_sum D';
    if Rlt_dec (Dsum - Dsumold) ErrorLimit then Ok ((D', Dsumold), true)
    else Ok ((D', Dsum), false)
  else Ok ((D, Dsumold), false).

(** [DMP(F,S,Ne,Method,MaxIter,ErrorLimit)]; the defaults of the last three
    arguments are [0], [50] and [1e-12]. *)
Definition DMP (F S : matrix) (Ne : R) (Method : Z) (MaxIter : Z)
    (ErrorLimit : R) : prog matrix :=
  (* Step 1: orthogonalise the Fock matrix *)
  X ← lift (SymOrth S);
  F ← lift (simx F X TransN);
  (* Step 2: initialise the density matrix *)
  D ← DMP_init F Ne Method;
  let I := identity (shape F).1 in
  Dsumold ← lift (sum_sum D);
  (* Step 3: iterate on the updates of the density matrix *)
  '(D, _, brk) ← lift (for_break (DMP_iter Ne ErrorLimit Method I)
                         (range (Z.to_nat MaxIter)) (D, Dsumold));
  _ ← (if brk : bool then mret tt else print print_warning_maxiters);
  lift (simx D X TransT).

End DMP.

End dmm.

(** ** UHFSolver.py *)

Module UHFSolver.
Import NumWrap.

(** [self.attr], for an attribute that is assigned during the iterations. *)
Definition attr {A} (a : option A) : result A :=
  match a with
  | Some x => Ok x
  | None => Raise AttributeError
  end.

(** The truth value of [self.etemp]: [None] stands for [None] and [False],
    and a temperature of zero is false as well. *)
Definition truth (etemp : option R) : option R :=
  match etemp with
  | Some t => if Req_dec_T t 0 then None else Some t
  | None => None
  end.

Section solver.

(** The two-electron integrals held by the solver ([self.Ints]). *)
Context {integrals : Type}.

(** Collaborators that are not part of the embedded sources:
    [PyQuante.Ints.getJ] and [getK], [PyQuante.LA2.trace2], [mkdens] and
    [geigh], and [PyQuante.fermi_dirac.mkdens_fermi]. *)
Class Collaborators : Type := {
  getJ : integrals → matrix → matrix;
  getK : integrals → matrix → matrix;
  trace2 : matrix → matrix → R;
  mkdens : matrix → Z → Z → matrix;
  mkdens_fermi : Z → vector → matrix → R → matrix * R;
  geigh : matrix → matrix → vector * matrix
}.

(** The attributes of a solver that the iteration reads and writes.  Those up
    to [orbsb] are set before the first iteration (by [HFSolver.setup],
    [setup_guess] and [setup_averaging]); the others are assigned by the
    methods below and are [None] until then. *)
Record UHFSolver : Type := mkUHFSolver {
  h : matrix;
  S : matrix;
  Ints : integrals;
  Enuke : R;
  etemp : option R;
  do_averaging : bool;
  iter : Z;
  nalpha : Z;
  nbeta : Z;
  avgfact : R;
  orbea : vector;
  orbeb : vector;
  orbsa : matrix;
  orbsb : matrix;
  Da : option matrix;
  Db : option matrix;
  entropya : option R;
  entropyb : option R;
  entropy : option R;
  Da_old : option matrix;
  Db_old : option matrix;
  Dab : option matrix;
  Ja : option matrix;
  Jb : option matrix;
  Ka : option matrix;
  Kb : option matrix;
  Fa : option matrix;
  Fb : option matrix;
  Eone : option R;
  Ej : option R;
  Exc : option R;
  energy : option R
}.

(** Assignments to groups of attributes. *)
Definition set_density (self : UHFSolver) (da db : matrix)
    (ea eb : option R) (e : R) (da_old db_old : option matrix) (dab : matrix)
  : UHFSolver :=
  mkUHFSolver (h self) (S self) (Ints self) (Enuke self) (etemp self)
    (do_averaging self) (iter self) (nalpha self) (nbeta self) (avgfact self)
    (orbea self) (orbeb self) (orbsa self) (orbsb self)
    (Some da) (Some db) ea eb (Some e) da_old db_old (Some dab)
    (Ja self) (Jb self) (Ka self) (Kb self) (Fa self) (Fb self)
    (Eone self) (Ej self) (Exc self) (energy self).

Definition set_J (self : UHFSolver) (ja jb : matrix) : UHFSolver :=
  mkUHFSolver (h self) (S self) (Ints self) (Enuke self) (etemp self)
    (do_averaging self) (iter self) (nalpha self) (nbeta self) (avgfact self)
    (orbea self) (orbeb self) (orbsa self) (orbsb self)
    (Da self) (Db self) (entropya self) (entropyb self) (entropy self)
    (Da_old self) (Db_old self) (Dab self)
    (Some ja) (Some jb) (Ka self) (Kb self) (Fa self) (Fb self)
    (Eone self) (Ej self) (Exc self) (energy self).

Definition set_K (self : UHFSolver) (ka kb : matrix) : UHFSolver :=
  mkUHFSolver (h self) (S self) (Ints self) (Enuke self) (etemp self)
    (do_averaging self) (iter self) (nalpha self) (nbeta self) (avgfact self)
    (orbea self) (orbeb self) (orbsa self) (orbsb self)
    (Da self) (Db self) (entropya self) (entropyb self) (entropy self)
    (Da_old self) (Db_old self) (Dab self)
    (Ja self) (Jb self) (Some ka) (Some kb) (Fa self) (Fb self)
    (Eone self) (Ej self) (Exc self) (energy self).

Definition set_F (self : UHFSolver) (fa fb : matrix) : UHFSolver :=
  mkUHFSolver (h self) (S self) (Ints self) (Enuke self) (etemp self)
    (do_averaging self) (iter self) (nalpha self) (nbeta self) (avgfact self)
    (orbea self) (orbeb self) (orbsa self) (orbsb self)
    (Da self) (Db self) (entropya self) (entropyb self) (entropy self)
    (Da_old self) (Db_old self) (Dab self)
    (Ja self) (Jb self) (Ka self) (Kb self) (Some fa) (Some fb)
    (Eone self) (Ej self) (Exc self) (energy self).

Definition set_orbitals (self : UHFSolver) (ea : vector) (ca : matrix)
    (eb : vector) (cb : matrix) : UHFSolver :=
  mkUHFSolver (h self) (S self) (Ints self) (Enuke self) (etemp self)
    (do_averaging self) (iter self) (nalpha self) (nbeta self) (avgfact self)
    ea eb ca cb
    (Da self) (Db self) (entropya self) (entropyb self) (entropy self)
    (Da_old self) (Db_old self) (Dab self)
    (Ja self) (Jb self) (Ka self) (Kb self) (Fa self) (Fb self)
    (Eone self) (Ej self) (Exc self) (energy self).

Definition set_energy (self : UHFSolver) (eone ej exc e : R) : UHFSolver :=
  mkUHFSolver (h self) (S self) (Ints self) (Enuke self) (etemp self)
    (do_averaging self) (iter self) (nalpha self) (nbeta self) (avgfact self)
    (orbea self) (orbeb self) (orbsa self) (orbsb self)
    (Da self) (Db self) (entropya self) (entropyb self) (entropy self)
    (Da_old self) (Db_old self) (Dab self)
    (Ja self) (Jb self) (Ka self) (Kb self) (Fa self) (Fb self)
    (Some eone) (Some ej) (Some exc) (Some e).

Context `{Collaborators}.

(** [avgfact*D + (1.0-avgfact)*D_old] *)
Definition average (avgfact : R) (D D_old : matrix) : result matrix :=
  add (scal avgfact D) (scal (1.0 - avgfact) D_old).

Definition update_density (self : UHFSolver) : result UHFSolver :=
  let '(da, db, ea, eb, e) :=
    match truth (etemp self) with
    | Some t =>
        let '(da, ea) := mkdens_fermi (2 * nalpha self) (orbea self) (orbsa self) t in
        let '(db, eb) := mkdens_fermi (2 * nbeta self) (orbeb self) (orbsb self) t in
        (da, db, Some ea, Some eb, (ea + eb) / 2.0)
    | None =>
        (mkdens (orbsa self) 0 (nalpha self), mkdens (orbsb self) 0 (nbeta self),
         entropya self, entropyb self, 0)
    end in
  '(da, db, da_old, db_old) ←
    (if do_averaging self then
       '(da, db) ←
         (if (iter self >? 1)%Z then
            da_old ← attr (Da_old self);
            da' ← average (avgfact self) da da_old;
            db_old ← attr (Db_old self);
            db' ← average (avgfact self) db db_old;
            Ok (da', db')
          else Ok (da, db));
       Ok (da, db, Some da, Some db)
     else Ok (da, db, Da_old self, Db_old self));
  dab ← add da db;
  Ok (set_density self da db ea eb e da_old db_old dab).

Definition update_J (self : UHFSolver) : result UHFSolver :=
  da ← attr (Da self);
  let ja := getJ (Ints self) da in
  db ← attr (Db self);
  let jb := getJ (Ints self) db in
  Ok (set_J self ja jb).

Definition update_K (self : UHFSolver) : result UHFSolver :=
  da ← attr (Da self);
  let ka := getK (Ints self) da in
  db ← attr (Db self);
  let kb := getK (Ints self) db in
  Ok (set_K self ka kb).

Definition update_fock (self : UHFSolver) : result UHFSolver :=
  self ← update_J self;
  self ← update_K self;
  ja ← attr (Ja self);
  hj ← add (h self) ja;
  jb ← attr (Jb self);
  hjj ← add hj jb;
  ka ← attr (Ka self);
  fa ← sub hjj ka;
  hj ← add (h self) ja;
  hjj ← add hj jb;
  kb ← attr (Kb self);
  fb ← sub hjj kb;
  Ok (set_F self fa fb).

Definition solve_fock (self : UHFSolver) : result UHFSolver :=
  fa ← attr (Fa self);
  let '(ea, ca) := geigh fa (S self) in
  fb ← attr (Fb self);
  let '(eb, cb) := geigh fb (S self) in
  Ok (set_orbitals self ea ca eb cb).

Definition calculate_energy (self : UHFSolver) : result UHFSolver :=
  dab ← attr (Dab self);
  let eone := trace2 dab (h self) in
  ja ← attr (Ja self);
  jb ← attr (Jb self);
  jab ← add ja jb;
  let ej := 0.5 * trace2 dab jab in
  da ← attr (Da self);
  ka ← attr (Ka self);
  db ← attr (Db self);
  kb ← attr (Kb self);
  let exc := -0.5 * (trace2 da ka + trace2 db kb) in
  e ← attr (entropy self);
  Ok (set_energy self eone ej exc (eone + ej + exc + Enuke self + e)).

(** Modelled from the spec: the body of one iteration of [HFSolver.iterate]
    ([HFSolver.py] is not part of the embedded sources).  The spec gives the
    order of the calls: update_density, update_fock, solve_fock,
    calculate_energy. *)
Definition iteration (self : UHFSolver) : result UHFSolver :=
  self ← update_density self;
  self ← update_fock self;
  self ← solve_fock self;
  calculate_energy self.

End solver.

Arguments UHFSolver : clear implicits.
Arguments Collaborators : clear implicits.

End UHFSolver.

(** ** optimize.py *)

Module optimize.
Import NumWrap.

(** Arithmetic of two rank-1 arrays, element by element; an array of one
    element is broadcast over the other, other lengths that differ raise. *)
Definition elementwise1 (f : R → R → R) (u v : vector) : result vector :=
  if bool_decide (length u = length v) then Ok (zip_with f u v)
  else match u, v with
       | [a], _ => Ok (f a <$> v)
       | _, [b] => Ok ((λ x, f x b) <$> u)
       | _, _ => Raise ValueError
       end.
Definition vadd : vector → vector → result vector := elementwise1 Rplus.
Definition vsub : vector → vector → result vector := elementwise1 Rminus.

(** [Num.dot(u,v)] on two rank-1 arrays. *)
Definition vdot (u v : vector) : result R :=
  if bool_decide (length u = length v) then Ok (dot u v) else Raise ValueError.

(** [Num.dot(A,v)] of a rank-2 with a rank-1 array. *)
Definition matvec (A : matrix) (v : vector) : vector :=
  (λ r : vector, dot r v) <$> A.
Definition mdot (A : matrix) (v : vector) : result vector :=
  if bool_decide (Forall (λ r : vector, length r = length v) A)
  then Ok (matvec A v) else Raise ValueError.

(** [u[:,NewAxis] * v[NewAxis,:]] *)
Definition outer (u v : vector) : matrix :=
  (λ a, Rmult a <$> v) <$> u.

(** [x**2.0] *)
Definition sq (t : R) : R := t ^ 2.

(** [rosen(x)]: the slices [x[1:]] and [x[:-1]] have the same length. *)
Definition rosen (x : vector) : R :=
  let x_1 := drop 1 x in
  let x_m1 := take (length x - 1) x in
  py_sum (zip_with Rplus
            ((λ t, 100.0 * sq t) <$> zip_with Rminus x_1 (sq <$> x_m1))
            ((λ t, sq (1 - t)) <$> x_m1)).

(** [rosen_der(x)]: the three slices have the same length; [x[1]] does not
    exist in an array of fewer than two elements. *)
Definition rosen_der (x : vector) : result vector :=
  let n := length x in
  let xm := take (n - 2) (drop 1 x) in
  let xm_m1 := take (n - 2) x in
  let xm_p1 := drop 2 x in
  let der := replicate n 0 in
  let der :=
    list_inserts 1
      (zip_with Rminus
         (zip_with Rminus
            (Rmult 200 <$> zip_with Rminus xm (sq <$> xm_m1))
            (zip_with Rmult (Rmult 400 <$> zip_with Rminus xm_p1 (sq <$> xm)) xm))
         ((λ t, 2 * (1 - t)) <$> xm))
      der in
  x0 ← getitem x 0;
  x1 ← getitem x 1;
  let der := <[0%nat := -400 * x0 * (x1 - sq x0) - 2 * (1 - x0)]> der in
  xl ← getitem x (n - 1);
  xl2 ← getitem x (n - 2);
  Ok (<[(n - 1)%nat := 200 * (xl - sq xl2)]> der).

(** [rosen3_hess_p(x,p)]; [None] stands for the [AssertionError] of its two
    assertions, the only way it fails. *)
Definition rosen3_hess_p (x p : vector) : option vector :=
  match x, p with
  | [x0; x1; x2], [p0; p1; p2] =>
      Some [(2 + 800 * x0 ^ 2 - 400 * (- x0 ^ 2 + x1)) * p0
              - 400 * x0 * p1 + 0;
            - 400 * x0 * p0
              + (202 + 800 * x1 ^ 2 - 400 * (- x1 ^ 2 + x2)) * p1
              - 400 * x1 * p2;
            0 - 400 * x1 * p1 + 200 * p2]
  | _, _ => None
  end.

(** [rosen3_hess(x)]; [None] stands for the [AssertionError]. *)
Definition rosen3_hess (x : vector) : option matrix :=
  match x with
  | [x0; x1; x2] =>
      Some [[2 + 800 * x0 ^ 2 - 400 * (- x0 ^ 2 + x1); -400 * x0; 0];
            [-400 * x0; 202 + 800 * x1 ^ 2 - 400 * (- x1 ^ 2 + x2); -400 * x1];
            [0; -400 * x1; 200]]
  | _ => None
  end.

Definition epsilon : R := 1e-8.

(** The objective [f] and its gradient [fprime] are taken to be functions of
    the array alone that return: the extra arguments [args] are part of
    them. *)

(** [approx_fprime(xk,f)]: the loop keeps the gradient and the unit vector
    [ei], which it sets and resets in place. *)
Definition approx_fprime_step (xk : vector) (f : vector → R) (f0 : R)
    (st : vector * vector) (k : nat) : vector * vector :=
  let '(grad, ei) := st in
  let ei := <[k := 1.0]> ei in
  let grad := <[k := (f (zip_with Rplus xk (Rmult epsilon <$> ei)) - f0)
                     / epsilon]> grad in
  let ei := <[k := 0.0]> ei in
  (grad, ei).

Definition approx_fprime (xk : vector) (f : vector → R) : vector :=
  let f0 := f xk in
  let grad := replicate (length xk) 0 in
  let ei := replicate (length xk) 0 in
  (foldl (approx_fprime_step xk f f0) (grad, ei) (seq 0 (length xk))).1.

(** [approx_fhess_p(x0,p,fprime)] *)
Definition approx_fhess_p (x0 p : vector) (fprime : vector → vector)
  : result vector :=
  xe ← vadd x0 (Rmult epsilon <$> p);
  let f2 := fprime xe in
  let f1 := fprime x0 in
  d ← vsub f2 f1;
  Ok ((λ t, t / epsilon) <$> (d : vector)).

(** The loop [while 1] of [line_search_BFGS] (lines 283-305), run for at most
    [fuel] iterations; [None] when they are used up. *)
Fixpoint line_search_loop (fuel : nat) (f : vector → R) (xk pk : vector)
    (c1 phi0 derphi0 alpha0 alpha1 phi_a0 phi_a1 : R) (fc : Z)
  : result (option (R * Z * Z)) :=
  match fuel with
  | O => Ok None
  | S fuel =>
      let factor := alpha0 ^ 2 * alpha1 ^ 2 * (alpha1 - alpha0) in
      let a := alpha0 ^ 2 * (phi_a1 - phi0 - derphi0 * alpha1) -
               alpha1 ^ 2 * (phi_a0 - phi0 - derphi0 * alpha0) in
      a ← fdiv a factor;
      let b := - alpha0 ^ 3 * (phi_a1 - phi0 - derphi0 * alpha1) +
               alpha1 ^ 3 * (phi_a0 - phi0 - derphi0 * alpha0) in
      b ← fdiv b factor;
      alpha2 ← fdiv (- b + sqrt (Rabs (b ^ 2 - 3 * a * derphi0))) (3.0 * a);
      x2 ← vadd xk (Rmult alpha2 <$> pk);
      let phi_a2 := f x2 in
      let fc := (fc + 1)%Z in
      if Rle_dec phi_a2 (phi0 + c1 * alpha2 * derphi0) then
        Ok (Some (alpha2, fc, 0%Z))
      else
        halve ← (if Rgt_dec (alpha1 - alpha2) (alpha1 / 2.0) then Ok true
                 else q ← fdiv alpha2 alpha1;
                      Ok (if Rlt_dec (1 - q) 0.96 then true else false));
        let alpha2 := if halve : bool then alpha1 / 2.0 else alpha2 in
        line_search_loop fuel f xk pk c1 phi0 derphi0 alpha1 alpha2
          phi_a1 phi_a2 fc
  end.

(** [line_search_BFGS(f,xk,pk,gfk,args,c1,alpha0)]; the defaults of the last
    two arguments are [1e-4] and [1]. *)
Definition line_search_BFGS (fuel : nat) (f : vector → R)
    (xk pk gfk : vector) (c1 alpha0 : R) : result (option (R * Z * Z)) :=
  let fc := 0%Z in
  let phi0 := f xk in
  x0 ← vadd xk (Rmult alpha0 <$> pk);
  let phi_a0 := f x0 in
  let fc := (fc + 2)%Z in
  derphi0 ← vdot gfk pk;
  if Rle_dec phi_a0 (phi0 + c1 * alpha0 * derphi0) then
    Ok (Some (alpha0, fc, 0%Z))
  else
    alpha1 ← fdiv (- derphi0 * alpha0 ^ 2 / 2.0)
               (phi_a0 - phi0 - derphi0 * alpha0);
    x1 ← vadd xk (Rmult alpha1 <$> pk);
    let phi_a1 := f x1 in
    let fc := (fc + 1)%Z in
    if Rle_dec phi_a1 (phi0 + c1 * alpha1 * derphi0) then
      Ok (Some (alpha1, fc, 0%Z))
    else
      line_search_loop fuel f xk pk c1 phi0 derphi0 alpha0 alpha1
        phi_a0 phi_a1 fc.

(** What [fminBFGS] writes to the logger, and what it returns: all its
    results with [fulloutput], the minimiser alone without. *)
Inductive logline : Type :=
| log_maxiter_exceeded
    (* "Warning: Maximum number of iterations has been exceeded" *)
| log_success              (* "Optimization terminated successfully." *)
| log_fval (fval : R)      (* "         Current function value: %f" *)
| log_iterations (k : Z)   (* "         Iterations: %d" *)
| log_fcalls (n : Z)       (* "         Function evaluations: %d" *)
| log_gcalls (n : Z).      (* "         Gradient evaluations: %d" *)

Inductive fmin_return : Type :=
| Full (xk : vector) (fval : R) (func_calls grad_calls warnflag : Z)
| Xopt (xk : vector).

(** The variables of the loop of [fminBFGS]; [sk], which is only read in the
    iteration that assigns it, is not among them. *)
Record bfgs_state : Type := mkBfgs {
  b_xk : vector;
  b_gfk : vector;
  b_Hk : matrix;
  b_k : Z;
  b_func_calls : Z;
  b_grad_calls : Z
}.

Section fminBFGS.

(** The objective, its gradient where one is given ([fprime=None]
    otherwise), and the number of iterations granted to the loop of each line
    search. *)
Variables (f : vector → R) (fprime : option (vector → vector)) (fuel : nat).

(** The body of the loop (lines 359-381); [None] when the line search does
    not return within [fuel] iterations. *)
Definition fminBFGS_step (N : nat) (I : matrix) (st : bfgs_state)
  : result (option bfgs_state) :=
  Hg ← mdot (b_Hk st) (b_gfk st);
  let pk := Ropp <$> (Hg : vector) in
  ls ← line_search_BFGS fuel f (b_xk st) pk (b_gfk st) 1e-4 1;
  match ls with
  | None => Ok None
  | Some (alpha_k, fc, gc) =>
      let func_calls := (b_func_calls st + fc)%Z in
      xkp1 ← vadd (b_xk st) (Rmult alpha_k <$> pk);
      sk ← vsub xkp1 (b_xk st);
      let '(gfkp1, func_calls, grad_calls) :=
        match fprime with
        | None => (approx_fprime xkp1 f,
                   (func_calls + gc + Z.of_nat N + 1)%Z, b_grad_calls st)
        | Some g => (g xkp1, func_calls, (b_grad_calls st + gc + 1)%Z)
        end in
      yk ← vsub gfkp1 (b_gfk st);
      let k := (b_k st + 1)%Z in
      d ← vdot yk sk;
      rhok ← fdiv 1 d;
      A1 ← sub I (scal rhok (outer sk yk));
      A2 ← sub I (scal rhok (outer yk sk));
      HA2 ← matrixmultiply (b_Hk st) A2;
      A1HA2 ← matrixmultiply A1 HA2;
      Hk ← add A1HA2 (outer (Rmult rhok <$> sk) sk);
      Ok (Some (mkBfgs xkp1 gfkp1 Hk k func_calls grad_calls))
  end.

(** The loop [while (Num.add.reduce(abs(gfk)) > gtol) and (k < maxiter)]; it
    runs at most [maxiter] times, which [n] counts down. *)
Fixpoint fminBFGS_loop (n : nat) (gtol : R) (maxiter : Z) (N : nat)
    (I : matrix) (st : bfgs_state) : result (option bfgs_state) :=
  match n with
  | O => Ok (Some st)
  | S n =>
      if Rgt_dec (py_sum (Rabs <$> b_gfk st)) gtol then
        if (b_k st <? maxiter)%Z then
          r ← fminBFGS_step N I st;
          match r with
          | None => Ok None
          | Some st => fminBFGS_loop n gtol maxiter N I st
          end
        else Ok (Some st)
      else Ok (Some st)
  end.

(** [fminBFGS(f,x0,fprime,args,avegtol,maxiter,fulloutput)]; the defaults of
    the last three arguments are [1e-5], [None] and [0]. *)
Definition fminBFGS (x0 : vector) (avegtol : R) (maxiter : option Z)
    (fulloutput : bool) : result (option (fmin_return * list logline)) :=
  let maxiter := match maxiter with
                 | None => (Z.of_nat (length x0) * 200)%Z
                 | Some m => m
                 end in
  let N := length x0 in
  let gtol := INR N * avegtol in
  let I := identity N in
  let '(gfk, func_calls, grad_calls) :=
    match fprime with
    | None => (approx_fprime x0 f, (0 + Z.of_nat (length x0) + 1)%Z, 0%Z)
    | Some g => (g x0, 0%Z, (0 + 1)%Z)
    end in
  r ← fminBFGS_loop (Z.to_nat maxiter) gtol maxiter N I
         (mkBfgs x0 gfk I 0 func_calls grad_calls);
  match r with
  | None => Ok None
  | Some st =>
      let fval := f (b_xk st) in
      let '(warnflag, first) :=
        if (b_k st >=? maxiter)%Z then (1%Z, log_maxiter_exceeded)
        else (0%Z, log_success) in
      let logs := [first; log_fval fval; log_iterations (b_k st);
                   log_fcalls (b_func_calls st);
                   log_gcalls (b_grad_calls st)] in
      Ok (Some (if fulloutput
                then Full (b_xk st) fval (b_func_calls st) (b_grad_calls st)
                       warnflag
                else Xopt (b_xk st), logs))
  end.

End fminBFGS.

End optimize.

(** ** The quantities of the specification *)

Module Spec.
Import NumWrap.

(** [x] is the least, respectively the greatest, element of [l]. *)
Definition is_min (x : R) (l : list R) : Prop := x ∈ l ∧ ∀ y, y ∈ l → x <= y.
Definition is_max (x : R) (l : list R) : Prop := x ∈ l ∧ ∀ y, y ∈ l → y <= x.

(** The sum of [|A_ij|] over the columns [j ≠ i] of row [i]. *)
Definition offdiag_abs_sum (A : matrix) (i : nat) : R :=
  py_sum (Rabs <$> delete i (default [] (A !! i))).

(** The Gershgorin row bounds [A_ii - Σ_{j≠i}|A_ij|] and
    [A_ii + Σ_{j≠i}|A_ij|], row by row. *)
Definition gershgorin_lower (A : matrix) : list R :=
  (λ i, ent A i i - offdiag_abs_sum A i) <$> seq 0 (length A).
Definition gershgorin_upper (A : matrix) : list R :=
  (λ i, ent A i i + offdiag_abs_sum A i) <$> seq 0 (length A).

(** The sum of all the entries of an array. *)
Definition total_sum (A : matrix) : R := py_sum (concat A).

(** A loop runs through the iterations [ixs] from [s] to [s'] and none of them
    leaves it with [break]. *)
Inductive exhausts {S : Type} (body : nat → S → result (S * bool))
  : list nat → S → S → Prop :=
| exhausts_nil (s : S) : exhausts body [] s s
| exhausts_cons (i : nat) (ixs : list nat) (s s1 s' : S) :
    body i s = Ok (s1, false) →
    exhausts body ixs s1 s' →
    exhausts body (i :: ixs) s s'.

(** The collaborators of the UHF solver work in a basis of [n] functions:
    densities, Coulomb and exchange matrices are [n] by [n]. *)
Definition basis_size {integrals : Type} `{UHFSolver.Collaborators integrals}
    (n : nat) : Prop :=
  (∀ ints D, rect n n D → rect n n (UHFSolver.getJ ints D)) ∧
  (∀ ints D, rect n n D → rect n n (UHFSolver.getK ints D)) ∧
  (∀ c nstart nstop, rect n n c → rect n n (UHFSolver.mkdens c nstart nstop)) ∧
  (∀ nel orbe c t, rect n n c → rect n n (UHFSolver.mkdens_fermi nel orbe c t).1).

(** The entropy term of an iteration: the average of the two spin entropies
    at a finite electronic temperature, zero otherwise. *)
Definition spin_entropy {integrals : Type} `{UHFSolver.Collaborators integrals}
    (self : UHFSolver.UHFSolver integrals) : R :=
  match UHFSolver.truth (UHFSolver.etemp self) with
  | Some t =>
      let entropya :=
        (UHFSolver.mkdens_fermi (2 * UHFSolver.nalpha self)
           (UHFSolver.orbea self) (UHFSolver.orbsa self) t).2 in
      let entropyb :=
        (UHFSolver.mkdens_fermi (2 * UHFSolver.nbeta self)
           (UHFSolver.orbeb self) (UHFSolver.orbsb self) t).2 in
      (entropya + entropyb) / 2
  | None => 0
  end.

End Spec.

(** ** Predicates used to state properties of the code *)

Module Props.
Import NumWrap MolecularGrid.

(** The position of a grid point, and the point with its weight multiplied by
    a factor. *)
Definition point_pos (p : GridPoint) : R * R * R := (_x p, _y p, _z p).
Definition scaled_point (p : GridPoint) (factor : R) : GridPoint :=
  mkGridPoint (_x p) (_y p) (_z p) (_w p * factor).

(** [p'] is the point [p] of atom [iat] with its weight multiplied by the
    product [sprod] that [patch_atoms] computes at the position of [p]. *)
Definition patches `{AtomicGridModule} (o : opts) (atoms : list Atom)
    (iat : nat) (ati : Atom) (p p' : GridPoint) : Prop :=
  ∃ sprod,
    patch_atoms_sprod o atoms iat ati (point_pos p)
      (sqrt (dist2 (pos ati) (point_pos p))) = Ok sprod ∧
    p' = scaled_point p sprod.

(** The body of the loop over the points of atom [iat], on the grid of that
    atom alone. *)
Definition patch_point_in `{AtomicGridModule} (o : opts) (atoms : list Atom)
    (iat : nat) (ati : Atom) (i : nat) (grid : AtomicGrid) : result AtomicGrid :=
  point ← getitem grid i;
  sprod ← patch_atoms_sprod o atoms iat ati (point_pos point)
             (sqrt (dist2 (pos ati) (point_pos point)));
  Ok (<[i := scaled_point point sprod]> grid).

(** Two atoms of the list are at one position and the first of them owns a
    grid point. *)
Definition coincident (atoms : list Atom) (grids : list AtomicGrid) : Prop :=
  ∃ i j ai aj grid,
    atoms !! i = Some ai ∧ atoms !! j = Some aj ∧ i ≠ j ∧ pos ai = pos aj ∧
    grids !! i = Some grid ∧ grid ≠ [].

(** The sum [f 0 + ... + f (n-1)]. *)
Definition sum_to (n : nat) (f : nat → R) : R := py_sum (f <$> seq 0 n).

(** Properties of square arrays of size [n]. *)
Definition symmetric (n : nat) (A : matrix) : Prop :=
  ∀ i j, (i < n)%nat → (j < n)%nat → ent A i j = ent A j i.
Definition idempotent (A : matrix) : Prop := mmul A A = A.
Definition scalar_matrix (n : nat) (A : matrix) : Prop :=
  ∃ c, ∀ i j, (i < n)%nat → (j < n)%nat →
    ent A i j = if Nat.eqb i j then c else 0.

(** [D] is the affine image [a*(e*I-F) + b*I] of [F], entry by entry; the
    initial density matrices of [DMP] are of this form. *)
Definition affine_image (n : nat) (a e b : R) (F D : matrix) : Prop :=
  rect n n D ∧
  ∀ i j, (i < n)%nat → (j < n)%nat →
    ent D i j = a * ((if Nat.eqb i j then e else 0) - ent F i j)
                + (if Nat.eqb i j then b else 0).

(** The value of [alpha*(efermi*I-F) + beta*I] in method 3 of [DMP] (lines
    88-91), with the Gershgorin bounds [emin] and [emax] of [F]. *)
Definition canonical_guess (n : nat) (F : matrix) (Ne emin emax : R) : matrix :=
  let efermi := dmm.trace F / INR n in
  let alpha := Rmin (Ne / (emax - efermi)) ((INR n - Ne) / (efermi - emin))
               / INR n in
  mplus (scal alpha (mminus (scal efermi (identity n)) F))
        (scal (Ne / INR n) (identity n)).

(** [A] is square, symmetric, and commutes with every array that commutes
    with [D], as every polynomial in a symmetric [D] does. *)
Definition sym_commuting (n : nat) (D A : matrix) : Prop :=
  rect n n A ∧ symmetric n A ∧
  ∀ M, rect n n M → mmul M D = mmul D M → mmul M A = mmul A M.

(** The spin densities that [update_density] builds from the orbitals, before
    any averaging with the densities of the previous iteration. *)
Definition fresh_densities {integrals : Type}
    `{UHFSolver.Collaborators integrals}
    (self : UHFSolver.UHFSolver integrals) : matrix * matrix :=
  match UHFSolver.truth (UHFSolver.etemp self) with
  | Some t =>
      ((UHFSolver.mkdens_fermi (2 * UHFSolver.nalpha self)
          (UHFSolver.orbea self) (UHFSolver.orbsa self) t).1,
       (UHFSolver.mkdens_fermi (2 * UHFSolver.nbeta self)
          (UHFSolver.orbeb self) (UHFSolver.orbsb self) t).1)
  | None =>
      (UHFSolver.mkdens (UHFSolver.orbsa self) 0 (UHFSolver.nalpha self),
       UHFSolver.mkdens (UHFSolver.orbsb self) 0 (UHFSolver.nbeta self))
  end.

(** The gradient that [fminBFGS] works with: [fprime] where it is given,
    the forward differences of [f] otherwise. *)
Definition bfgs_gradient (f : vector → R) (fprime : option (vector → vector))
    (x : vector) : vector :=
  match fprime with
  | Some g => g x
  | None => optimize.approx_fprime x f
  end.

(** The entry [x[i]] of a rank-1 array, read as 0 where it does not exist. *)
Definition at0 (x : vector) (i : nat) : R := default 0 (x !! i).

(** The partial derivative of the Rosenbrock function
    [sum_i 100*(x[i+1]-x[i]^2)^2 + (1-x[i])^2] in [x[k]]: the coordinate [k]
    occurs in the term [k-1], unless it is the first, and in the term [k],
    unless it is the last. *)
Definition rosen_grad (x : vector) (k : nat) : R :=
  (if (0 <? k)%nat then 200 * (at0 x k - at0 x (k - 1) ^ 2) else 0) +
  (if (S k <? length x)%nat
   then - 400 * (at0 x (S k) - at0 x k ^ 2) * at0 x k - 2 * (1 - at0 x k)
   else 0).

(** The coefficient of [t^2] and higher in the Rosenbrock function along the
    coordinate [k], see [rosen_along_coordinate]. *)
Definition rosen_rest (x : vector) (k : nat) (t : R) : R :=
  (if (0 <? k)%nat then 100 else 0) +
  (if (S k <? length x)%nat
   then 100 * (4 * at0 x k ^ 2 - 2 * (at0 x (S k) - at0 x k ^ 2)) + 1
        + 400 * at0 x k * t + 100 * t ^ 2
   else 0).

(** The unit vector [k] of length [n], and the forward difference quotient of
    [f] at [xk] along it with the step [epsilon] of the module. *)
Definition unit_vector (n k : nat) : vector := <[k := 1]> (replicate n 0).
Definition forward_difference (f : vector → R) (xk : vector) (k : nat) : R :=
  (f (zip_with Rplus xk
        (Rmult optimize.epsilon <$> unit_vector (length xk) k)) - f xk)
  / optimize.epsilon.

(** The inverse Hessian that an iteration of [fminBFGS] builds from [Hk],
    the step [sk] and the change [yk] of the gradient (lines 376-380):
    [(I - rho*sk*yk^T) Hk (I - rho*yk*sk^T) + rho*sk*sk^T] with
    [rho = 1/(yk.sk)]. *)
Definition bfgs_inverse_update (n : nat) (Hk : matrix) (sk yk : vector)
  : matrix :=
  let rhok := 1 / dot yk sk in
  let I := identity n in
  mplus
    (mmul (mminus I (scal rhok (optimize.outer sk yk)))
       (mmul Hk (mminus I (scal rhok (optimize.outer yk sk)))))
    (optimize.outer (Rmult rhok <$> sk) sk).

(** What the loop of [fminBFGS] keeps: the point has the length of the
    start, the inverse Hessian is square of that size and symmetric, and
    [gfk] is the gradient at the point. *)
Definition bfgs_invariant (f : vector → R) (fprime : option (vector → vector))
    (N : nat) (st : optimize.bfgs_state) : Prop :=
  length (optimize.b_xk st) = N ∧
  rect N N (optimize.b_Hk st) ∧ symmetric N (optimize.b_Hk st) ∧
  optimize.b_gfk st = bfgs_gradient f fprime (optimize.b_xk st).

End Props.

(** ** Concrete collaborators and inputs *)

Module Examples.
Import NumWrap MolecularGrid.

(** A radial stand-in for the module [AtomicGrid]: [nrad] points of weight 1
    on the ray from the atom along x, at distances 1, 2, ..., and the
    Bragg-Slater radii of hydrogen and lithium. *)
Definition ray_grid (atom : Atom) (nrad : Z) : AtomicGrid :=
  (λ k, mkGridPoint ((pos atom).1.1 + INR (S k)) (pos atom).1.2 (pos atom).2 1)
    <$> seq 0 (Z.to_nat nrad).

#[export] Instance ray_grids : AtomicGridModule := {|
  AtomicGrid_new atom nrad fineness o := ray_grid atom nrad;
  Bragg a := if (a =? 1)%Z then Some 0.35
             else if (a =? 3)%Z then Some 1.45 else None
|}.

Definition default_opts : opts := mkOpts false false.

(** The hydrogen molecule of the module's self-test, and a degenerate one with
    both protons at one position. *)
Definition h2 : list Atom := [mkAtom 1 (0, 0, 0.7); mkAtom 1 (0, 0, -0.7)].
Definition h2_coincident : list Atom :=
  [mkAtom 1 (0, 0, 0.7); mkAtom 1 (0, 0, 0.7)].

(** [PyQuante.LA2] in an orthonormal basis, where the overlap matrix is the
    identity: the orthogonaliser is the identity and the similarity
    transformations by it leave a matrix as it is. *)
#[export] Instance orthonormal_basis : dmm.LA2 := {|
  dmm.SymOrth S := Ok (identity (length S));
  dmm.simx A B t := Ok A
|}.

(** The Fock and overlap matrix of a two-level system, the density matrix
    that [DMP] initialises for it, and half the identity. *)
Definition F2 : matrix := [[0; 1]; [1; 0]].
Definition S2 : matrix := [[1; 0]; [0; 1]].
Definition D2 : matrix := [[0.5; -0.5]; [-0.5; 0.5]].
Definition Dh : matrix := [[0.5; 0]; [0; 0.5]].

(** Collaborators of the UHF solver with closed forms: the Coulomb matrix of
    a density is the density, its exchange matrix half of it, [trace2(A,B)]
    is the sum of the entries of [A*B], the density of the orbitals
    [nstart..nstop] is their number times the coefficients, and the
    finite-temperature density comes with an entropy of [-t/10^5]. *)
#[export] Instance closed_forms : UHFSolver.Collaborators unit := {|
  UHFSolver.getJ _ D := D;
  UHFSolver.getK _ D := scal 0.5 D;
  UHFSolver.trace2 A B := Spec.total_sum (mzip Rmult A B);
  UHFSolver.mkdens c nstart nstop := scal (IZR (nstop - nstart)) c;
  UHFSolver.mkdens_fermi nel orbe c t := (scal (IZR nel / 2) c, - t / 100000);
  UHFSolver.geigh F S := ([], F)
|}.

(** A lithium-like solver before its first iteration, in a basis of one
    function: two alpha electrons, one beta electron, [h = -2]. *)
Definition li (etemp : option R) : UHFSolver.UHFSolver unit :=
  UHFSolver.mkUHFSolver [[-2]] [[1]] tt 0 etemp false 1 2 1 0.5
    [] [] [[1]] [[1]]
    None None None None None None None None None None None None None None
    None None None None.

(** The same solver with its two spin densities assigned. *)
Definition li_densities : UHFSolver.UHFSolver unit :=
  UHFSolver.mkUHFSolver [[-2]] [[1]] tt 0 None false 1 2 1 0.5
    [] [] [[1]] [[1]]
    (Some [[2]]) (Some [[1]]) None None (Some 0) None None (Some [[3]])
    None None None None None None None None None None.

(** The same solver in its second iteration, with averaging switched on and
    the densities of the first iteration kept. *)
Definition li_averaging : UHFSolver.UHFSolver unit :=
  UHFSolver.mkUHFSolver [[-2]] [[1]] tt 0 None true 2 2 1 0.5
    [] [] [[1]] [[1]]
    None None None None None (Some [[1]]) (Some [[1]]) None
    None None None None None None None None None None.

(** An objective in one variable, the square of the only element, with its
    gradient, and the state of [fminBFGS] when it starts from [1] with the
    gradient given. *)
Definition square_f : vector → R := λ x, Props.at0 x 0 ^ 2.
Definition square_fprime : vector → vector := λ x, [2 * Props.at0 x 0].
Definition square_start : optimize.bfgs_state :=
  optimize.mkBfgs [1] [2] [[1]] 0 0 1.

End Examples.

(** * Verification *)

(** ** The error monad and the loops *)

Lemma raises_Raise {A} (e : exn) : raises (@Raise A e).
Proof. by exists e. Qed.

Lemma raises_bind {A B} (m : result A) (f : A → result B) :
  raises m → raises (m ≫= f).
Proof. intros [e ->]. by exists e. Qed.

Lemma fdiv_zero (a : R) : fdiv a 0 = Raise ZeroDivisionError.
Proof. unfold fdiv. by destruct (Req_dec_T 0 0). Qed.

Lemma fdiv_nonzero (a b : R) : b ≠ 0 → fdiv a b = Ok (a / b).
Proof. intros Hb. unfold fdiv. by destruct (Req_dec_T b 0). Qed.

Lemma fdiv_raise_inv (a b : R) (e : exn) :
  fdiv a b = Raise e → e = ZeroDivisionError.
Proof. unfold fdiv. destruct (Req_dec_T b 0); congruence. Qed.

Lemma getitem_lt {A} (l : list A) (i : nat) :
  (i < length l)%nat → ∃ a, l !! i = Some a ∧ getitem l i = Ok a.
Proof.
  intros Hi. destruct (lookup_lt_is_Some_2 l i Hi) as [a Ha].
  exists a. unfold getitem. by rewrite Ha.
Qed.

(** A loop whose body leaves the state as it is returns that state. *)
Lemma for_each_fixed {S} (body : nat → S → result S) (ixs : list nat) (s : S) :
  (∀ i, i ∈ ixs → body i s = Ok s) → for_each body ixs s = Ok s.
Proof.
  induction ixs as [|i ixs IH]; intros Hb; [done|].
  cbn. rewrite Hb; [|left]. cbn. apply IH. intros j Hj. apply Hb. by right.
Qed.

(** A loop raises when one of its iterations raises in every state that the
    earlier iterations can leave. *)
Lemma for_each_raises {S} (P : S → Prop) (body : nat → S → result S)
    (ixs : list nat) (k : nat) (s : S) :
  (∀ i s s', P s → body i s = Ok s' → P s') →
  (∀ s, P s → raises (body k s)) →
  k ∈ ixs → P s → raises (for_each body ixs s).
Proof.
  intros Hinv Hk. revert s.
  induction ixs as [|i ixs IH]; intros s Hin Hs; [by inversion Hin|].
  cbn. destruct (decide (i = k)) as [->|Hne].
  - by apply raises_bind, Hk.
  - destruct (body i s) as [s'|e] eqn:Hb; [|apply raises_Raise].
    cbn. apply IH; [|by eapply Hinv].
    inversion Hin; by subst.
Qed.

(** An exception raised by a loop was raised by one of its iterations. *)
Lemma for_each_raise_inv {S} (P : S → Prop) (Q : exn → Prop)
    (body : nat → S → result S) (ixs : list nat) (s : S) (e : exn) :
  (∀ i s s', i ∈ ixs → P s → body i s = Ok s' → P s') →
  (∀ i s e, i ∈ ixs → P s → body i s = Raise e → Q e) →
  P s → for_each body ixs s = Raise e → Q e.
Proof.
  revert s. induction ixs as [|i ixs IH]; intros s Hinv HQ Hs; [done|].
  cbn. destruct (body i s) as [s'|e'] eqn:Hb; cbn.
  - apply IH.
    + intros j t t' Hj. apply Hinv. by right.
    + intros j t e' Hj. apply HQ. by right.
    + eapply Hinv; [left|done..].
  - intros [= <-]. eapply HQ; [left|done..].
Qed.

Lemma elem_of_range (i n : nat) : i ∈ range n ↔ (i < n)%nat.
Proof. unfold range. rewrite elem_of_seq. lia. Qed.

(** ** MolecularGrid: the Becke projection operator *)

Section becke.
Import MolecularGrid.

Lemma pbecke_range (x : R) : -1 <= x <= 1 → -1 <= pbecke x <= 1.
Proof.
  intros [Hl Hu]. unfold pbecke.
  assert (0 <= (1 - x) * (1 - x) * (x + 2)) by (apply Rmult_le_pos; nra).
  assert (0 <= (1 + x) * (1 + x) * (2 - x)) by (apply Rmult_le_pos; nra).
  simpl. split; lra.
Qed.

Lemma fbecke_range (n : nat) (x : R) : -1 <= x <= 1 → -1 <= fbecke x n <= 1.
Proof.
  revert x. induction n as [|n IH]; intros x Hx; [done|].
  cbn. by apply IH, pbecke_range.
Qed.

Lemma pbecke_0 : pbecke 0 = 0.
Proof. unfold pbecke. simpl. lra. Qed.

Lemma fbecke_0 (n : nat) : fbecke 0 n = 0.
Proof. induction n as [|n IH]; [done|]. cbn. by rewrite pbecke_0. Qed.

Lemma sbecke_range (n : nat) (x : R) : -1 <= x <= 1 → 0 <= sbecke x n <= 1.
Proof.
  intros Hx. unfold sbecke. pose proof (fbecke_range n x Hx). lra.
Qed.

Lemma sbecke_0 (n : nat) : sbecke 0 n = 0.5.
Proof. unfold sbecke. rewrite fbecke_0. lra. Qed.

Lemma dist2_same (a : R * R * R) : dist2 a a = 0.
Proof. destruct a as [[x y] z]. simpl. ring. Qed.

Lemma dist2_nonneg (a b : R * R * R) : 0 <= dist2 a b.
Proof.
  destruct a as [[xa ya] za], b as [[xb yb] zb]. simpl.
  pose proof (Rle_0_sqr (xa - xb)). pose proof (Rle_0_sqr (ya - yb)).
  pose proof (Rle_0_sqr (za - zb)). unfold Rsqr in *. lra.
Qed.

Lemma dist2_zero (a b : R * R * R) : dist2 a b = 0 → a = b.
Proof.
  destruct a as [[xa ya] za], b as [[xb yb] zb]. simpl. intros Hd.
  pose proof (Rle_0_sqr (xa - xb)) as Hx. pose proof (Rle_0_sqr (ya - yb)) as Hy.
  pose proof (Rle_0_sqr (za - zb)) as Hz. unfold Rsqr in *.
  assert (xa - xb = 0) by (apply Rsqr_0_uniq; unfold Rsqr; lra).
  assert (ya - yb = 0) by (apply Rsqr_0_uniq; unfold Rsqr; lra).
  assert (za - zb = 0) by (apply Rsqr_0_uniq; unfold Rsqr; lra).
  repeat f_equal; lra.
Qed.

Lemma distance_zero (a b : R * R * R) : sqrt (dist2 a b) = 0 ↔ a = b.
Proof.
  split.
  - intros Hs. apply dist2_zero, sqrt_eq_0; [apply dist2_nonneg|done].
  - intros ->. rewrite dist2_same. apply sqrt_0.
Qed.

End becke.

(** ** MolecularGrid: patching the atomic grids *)

Section patch_atoms.
Import MolecularGrid.
Context `{AtomicGridModule}.

Lemma getitem_Ok {A} (l : list A) (i : nat) (a : A) :
  getitem l i = Ok a ↔ l !! i = Some a.
Proof. unfold getitem. destruct (l !! i); split; congruence. Qed.

(** The exceptions of the patching: a division by zero, or, with the
    heteronuclear correction, an atomic number outside the table [Bragg]. *)
Definition patch_exn (o : opts) (e : exn) : Prop :=
  e = ZeroDivisionError ∨ (do_becke_hetero o = true ∧ e = IndexError).

Lemma patch_atoms_jat_exn (o : opts) (ati atj : Atom) (p : R * R * R)
    (rip sprod : R) (e : exn) :
  patch_atoms_jat o ati atj p rip sprod = Raise e → patch_exn o e.
Proof.
  unfold patch_atoms_jat, patch_exn, Bragg_item.
  destruct (fdiv _ (sqrt _)) as [mu|e0] eqn:Hmu; cbn;
    [|intros [= <-]; left; by eapply fdiv_raise_inv].
  destruct (do_becke_hetero o); cbn; [|done].
  destruct (negb _); cbn; [|done].
  destruct (Bragg (atno ati)) as [bi|]; cbn; [|intros [= <-]; by right].
  destruct (Bragg (atno atj)) as [bj|]; cbn; [|intros [= <-]; by right].
  destruct (fdiv bi bj) as [chi|e1] eqn:H1; cbn;
    [|intros [= <-]; left; by eapply fdiv_raise_inv].
  destruct (fdiv (chi - 1) _) as [u|e2] eqn:H2; cbn;
    [|intros [= <-]; left; by eapply fdiv_raise_inv].
  destruct (fdiv u _) as [a|e3] eqn:H3; cbn;
    [done|intros [= <-]; left; by eapply fdiv_raise_inv].
Qed.

Lemma patch_atoms_jat_coincident (o : opts) (ati atj : Atom) (p : R * R * R)
    (rip sprod : R) :
  pos ati = pos atj → raises (patch_atoms_jat o ati atj p rip sprod).
Proof.
  intros Hpos. unfold patch_atoms_jat.
  assert (sqrt (dist2 (pos ati) (pos atj)) = 0) as -> by by apply distance_zero.
  rewrite fdiv_zero. apply raises_Raise.
Qed.

Lemma patch_atoms_sprod_exn (o : opts) (atoms : list Atom) (iat : nat)
    (ati : Atom) (p : R * R * R) (rip : R) (e : exn) :
  patch_atoms_sprod o atoms iat ati p rip = Raise e → patch_exn o e.
Proof.
  unfold patch_atoms_sprod.
  apply (for_each_raise_inv (λ _, True)); [done| |done].
  intros jat sprod e' Hjat%elem_of_range _.
  destruct (jat =? iat)%nat; [done|].
  destruct (getitem_lt atoms jat Hjat) as (atj & _ & ->). cbn.
  apply patch_atoms_jat_exn.
Qed.

Lemma patch_atoms_sprod_coincident (o : opts) (atoms : list Atom)
    (iat jat : nat) (ati atj : Atom) (p : R * R * R) (rip : R) :
  atoms !! jat = Some atj → jat ≠ iat → pos ati = pos atj →
  raises (patch_atoms_sprod o atoms iat ati p rip).
Proof.
  intros Hj Hne Hpos. unfold patch_atoms_sprod.
  apply (for_each_raises (λ _, True) _ _ jat); [done| | |done].
  - intros sprod _. apply Nat.eqb_neq in Hne as ->.
    apply getitem_Ok in Hj as ->. cbn.
    by apply patch_atoms_jat_coincident.
  - apply elem_of_range. by eapply lookup_lt_Some.
Qed.

(** Patching changes weights only: every grid keeps its number of points. *)
Lemma patch_atoms_point_lengths (o : opts) (atoms : list Atom) (iat : nat)
    (ati : Atom) (i : nat) (grids grids' : list AtomicGrid) :
  patch_atoms_point o atoms iat ati i grids = Ok grids' →
  length <$> grids' = length <$> grids.
Proof.
  unfold patch_atoms_point.
  destruct (getitem grids iat) as [grid|] eqn:Hg; [|done]. cbn.
  destruct (getitem grid i) as [point|]; [|done]. cbn.
  destruct (patch_atoms_sprod _ _ _ _ _ _) as [sprod|]; [|done]. cbn.
  intros [= <-]. rewrite list_fmap_insert, length_insert.
  apply list_insert_id. rewrite list_lookup_fmap.
  apply getitem_Ok in Hg. by rewrite Hg.
Qed.

Lemma for_each_invariant {S} (P : S → Prop) (body : nat → S → result S)
    (ixs : list nat) (s s' : S) :
  (∀ i s s', P s → body i s = Ok s' → P s') →
  P s → for_each body ixs s = Ok s' → P s'.
Proof.
  intros Hinv. revert s. induction ixs as [|i ixs IH]; intros s Hs; cbn.
  - by intros [= <-].
  - destruct (body i s) as [s1|] eqn:Hb; [|done]. cbn.
    apply IH. by eapply Hinv.
Qed.

Lemma patch_atoms_atom_lengths (o : opts) (atoms : list Atom) (iat : nat)
    (grids grids' : list AtomicGrid) :
  patch_atoms_atom o atoms iat grids = Ok grids' →
  length <$> grids' = length <$> grids.
Proof.
  unfold patch_atoms_atom.
  destruct (getitem atoms iat) as [ati|]; [|done]. cbn.
  destruct (getitem grids iat) as [grid|]; [|done]. cbn.
  apply (for_each_invariant (λ g, length <$> g = length <$> grids)); [|done].
  intros i s s' Hs Hb. by rewrite (patch_atoms_point_lengths _ _ _ _ _ _ _ Hb).
Qed.

Lemma lengths_lookup (grids grids0 : list AtomicGrid) (iat : nat) :
  length <$> grids = length <$> grids0 →
  (iat < length grids0)%nat →
  ∃ grid, grids !! iat = Some grid ∧
          Some (length grid) = length <$> (grids0 !! iat).
Proof.
  intros Hl Hi.
  assert (length grids = length grids0) as Hlen
    by (rewrite <-(length_fmap length grids), Hl; apply length_fmap).
  destruct (lookup_lt_is_Some_2 grids iat) as [grid Hg]; [lia|].
  exists grid. split; [done|].
  rewrite <-list_lookup_fmap, <-Hl, list_lookup_fmap, Hg. done.
Qed.

Lemma patch_atoms_point_exn (o : opts) (atoms : list Atom) (iat : nat)
    (ati : Atom) (i : nat) (grids : list AtomicGrid) (grid : AtomicGrid)
    (e : exn) :
  grids !! iat = Some grid → (i < length grid)%nat →
  patch_atoms_point o atoms iat ati i grids = Raise e → patch_exn o e.
Proof.
  intros Hg Hi. unfold patch_atoms_point.
  apply getitem_Ok in Hg as ->. cbn.
  destruct (getitem_lt grid i Hi) as (point & _ & ->). cbn.
  destruct (patch_atoms_sprod _ _ _ _ _ _) as [sprod|e'] eqn:Hs; [done|].
  cbn. intros [= <-]. by eapply patch_atoms_sprod_exn.
Qed.

Lemma patch_atoms_atom_exn (o : opts) (atoms : list Atom) (iat : nat)
    (grids : list AtomicGrid) (e : exn) :
  (iat < length atoms)%nat → length grids = length atoms →
  patch_atoms_atom o atoms iat grids = Raise e → patch_exn o e.
Proof.
  intros Hi Hlen. unfold patch_atoms_atom.
  destruct (getitem_lt atoms iat Hi) as (ati & _ & ->). cbn.
  destruct (getitem_lt grids iat) as (grid & Hg & ->); [lia|]. cbn.
  apply (for_each_raise_inv (λ g, length <$> g = length <$> grids));
    [| |done].
  - intros i s s' _ Hs Hb.
    by rewrite (patch_atoms_point_lengths _ _ _ _ _ _ _ Hb).
  - intros i s e' Hin%elem_of_range Hs.
    destruct (lengths_lookup s grids iat Hs) as (g & Hsg & Hlg); [lia|].
    rewrite Hg in Hlg. injection Hlg as Hlg.
    eapply patch_atoms_point_exn; [done|lia].
Qed.

Lemma patch_atoms_exn (o : opts) (atoms : list Atom)
    (grids : list AtomicGrid) (e : exn) :
  length grids = length atoms →
  patch_atoms o atoms grids = Raise e → patch_exn o e.
Proof.
  intros Hlen. unfold patch_atoms.
  apply (for_each_raise_inv (λ g, length <$> g = length <$> grids));
    [| |done].
  - intros i s s' _ Hs Hb.
    by rewrite (patch_atoms_atom_lengths _ _ _ _ _ Hb).
  - intros i s e' Hin%elem_of_range Hs.
    apply patch_atoms_atom_exn; [done|].
    rewrite <-Hlen, <-(length_fmap length s), Hs. apply length_fmap.
Qed.

Lemma patch_atoms_coincident (o : opts) (atoms : list Atom)
    (grids : list AtomicGrid) (i j : nat) (ai aj : Atom) (grid : AtomicGrid) :
  length grids = length atoms →
  atoms !! i = Some ai → atoms !! j = Some aj → i ≠ j → pos ai = pos aj →
  grids !! i = Some grid → grid ≠ [] →
  raises (patch_atoms o atoms grids).
Proof.
  intros Hlen Hi Hj Hne Hpos Hg Hgrid. unfold patch_atoms.
  pose proof (lookup_lt_Some _ _ _ Hi) as Hilt.
  apply (for_each_raises (λ g, length <$> g = length <$> grids) _ _ i);
    [| |by apply elem_of_range|done].
  { intros k s s' Hs Hb.
    by rewrite (patch_atoms_atom_lengths _ _ _ _ _ Hb). }
  intros s Hs. unfold patch_atoms_atom.
  apply getitem_Ok in Hi as ->. cbn.
  destruct (lengths_lookup s grids i Hs) as (g & Hsg & Hlg); [lia|].
  rewrite Hg in Hlg. injection Hlg as Hlg.
  apply getitem_Ok in Hsg as Hsg'. rewrite Hsg'. cbn.
  assert (0 < length g)%nat as Hpos0
    by (rewrite Hlg; destruct grid; [done|cbn; lia]).
  apply (for_each_raises (λ t, length <$> t = length <$> grids) _ _ 0%nat);
    [| |by apply elem_of_range|done].
  { intros k t t' Ht Hb.
    by rewrite (patch_atoms_point_lengths _ _ _ _ _ _ _ Hb). }
  intros t Ht. unfold patch_atoms_point.
  destruct (lengths_lookup t grids i Ht) as (g' & Htg & Hlg'); [lia|].
  rewrite Hg in Hlg'. injection Hlg' as Hlg'.
  apply getitem_Ok in Htg as ->. cbn.
  destruct (getitem_lt g' 0) as (point & _ & ->); [lia|]. cbn.
  apply raises_bind.
  by eapply (patch_atoms_sprod_coincident _ _ i j).
Qed.

End patch_atoms.

Section molecular_grid_claims.
Import MolecularGrid.
Context `{AtomicGridModule}.

Lemma patch_atoms_sprod_single (o : opts) (a : Atom) (p : R * R * R) (rip : R) :
  patch_atoms_sprod o [a] 0 a p rip = Ok 1.
Proof. done. Qed.

Lemma patch_atoms_point_single (o : opts) (a : Atom) (g : AtomicGrid) (i : nat) :
  (i < length g)%nat → patch_atoms_point o [a] 0 a i [g] = Ok [g].
Proof.
  intros Hi. unfold patch_atoms_point. cbn [getitem lookup list_lookup mbind result_bind].
  destruct (getitem_lt g i Hi) as (point & Hp & ->).
  cbn [mbind result_bind]. destruct point as [x y z w]. cbn [xyzw _x _y _z _w].
  rewrite patch_atoms_sprod_single. cbn [mbind result_bind].
  rewrite Rmult_1_r. cbn [insert list_insert]. by rewrite list_insert_id.
Qed.

Lemma patch_atoms_single (o : opts) (a : Atom) (g : AtomicGrid) :
  patch_atoms o [a] [g] = Ok [g].
Proof.
  unfold patch_atoms. cbn [length range seq for_each].
  assert (patch_atoms_atom o [a] 0 [g] = Ok [g]) as ->; [|done].
  unfold patch_atoms_atom. cbn [getitem lookup list_lookup mbind result_bind].
  apply for_each_fixed. intros i Hi%elem_of_range.
  by apply patch_atoms_point_single.
Qed.

(** C4. For a molecule of exactly one atom, [patch_atoms] returns the atomic
    grid as it received it: the loop over the other atoms is empty, every
    weight is multiplied by [sprod = 1], and the molecular grid built by the
    constructor holds the points and the weights that [AtomicGrid]
    produced. *)
Theorem single_atom_weights_unchanged (o : opts) (a : Atom) (g : AtomicGrid)
    (nrad fineness : Z) :
  patch_atoms o [a] [g] = Ok [g] ∧
  ∃ grid, __init__ [a] nrad fineness o = Ok grid ∧
          atomgrids grid = [AtomicGrid_new a nrad fineness o] ∧
          weights grid = _w <$> AtomicGrid_new a nrad fineness o.
Proof.
  split; [apply patch_atoms_single|].
  unfold __init__, make_atom_grids. cbn [fmap list_fmap].
  rewrite patch_atoms_single. eexists. split; [reflexivity|].
  split; [reflexivity|].
  unfold weights, points. cbn [atomgrids concat]. by rewrite app_nil_r.
Qed.

Lemma patch_atoms_sprod_midplane (o : opts) (ai aj : Atom) (atoms : list Atom)
    (iat jat : nat) (p : R * R * R) :
  atno ai = atno aj → pos ai ≠ pos aj →
  dist2 (pos ai) p = dist2 (pos aj) p →
  patch_atoms_jat o ai aj p (sqrt (dist2 (pos ai) p)) 1 = Ok 0.5.
Proof.
  intros Hno Hpos Hd. unfold patch_atoms_jat.
  rewrite Hd, Rminus_diag, fdiv_nonzero by (by rewrite distance_zero).
  cbn [mbind result_bind]. rewrite Hno, Z.eqb_refl, andb_false_r.
  cbn [mbind result_bind negb]. f_equal.
  unfold Rdiv. rewrite Rmult_0_l, sbecke_0. lra.
Qed.

(** C3. The Becke smoothing function [s(mu) = 0.5*(1 - f(f(f(mu))))] with
    [f(x) = 1.5x - 0.5x^3], which is [sbecke] at its default [n = 3], maps
    every [mu] of [[-1,1]] into [[0,1]], and [s(0) = 0.5]; hence, for two
    atoms of one atomic number at different positions, the factor [sprod]
    that multiplies the weight of a point at equal distance from both atoms
    is [0.5], for the points of either atom (homonuclear atoms never take the
    heteronuclear correction). *)
Theorem becke_weight_range_and_midplane (mu : R) (o : opts) (a1 a2 : Atom)
    (p : R * R * R) :
  -1 <= mu <= 1 →
  atno a1 = atno a2 → pos a1 ≠ pos a2 →
  dist2 (pos a1) p = dist2 (pos a2) p →
  sbecke mu 3 = 0.5 * (1 - pbecke (pbecke (pbecke mu))) ∧
  0 <= sbecke mu 3 <= 1 ∧
  sbecke 0 3 = 0.5 ∧
  patch_atoms_sprod o [a1; a2] 0 a1 p (sqrt (dist2 (pos a1) p)) = Ok 0.5 ∧
  patch_atoms_sprod o [a1; a2] 1 a2 p (sqrt (dist2 (pos a2) p)) = Ok 0.5.
Proof.
  intros Hmu Hno Hpos Hd.
  split; [done|]. split; [by apply sbecke_range|]. split; [apply sbecke_0|].
  unfold patch_atoms_sprod.
  cbn [length range seq for_each Nat.eqb getitem lookup list_lookup mbind result_bind].
  split.
  - by rewrite (patch_atoms_sprod_midplane o a1 a2 [a1; a2] 0 1).
  - by rewrite (patch_atoms_sprod_midplane o a2 a1 [a1; a2] 1 0).
Qed.

(** The constructor on a molecule with two atoms at one position. *)
Lemma init_coincident (atoms : list Atom)
    (nrad fineness : Z) (o : opts) (i j : nat) (ai aj : Atom) :
  atoms !! i = Some ai → atoms !! j = Some aj → i ≠ j → pos ai = pos aj →
  AtomicGrid_new ai nrad fineness o ≠ [] →
  ∃ e, __init__ atoms nrad fineness o = Raise e ∧
       (e = ZeroDivisionError ∨ (do_becke_hetero o = true ∧ e = IndexError)).
Proof.
  intros Hi Hj Hne Hpos Hgrid. unfold __init__.
  set (grids := make_atom_grids atoms nrad fineness o).
  assert (length grids = length atoms) as Hlen by apply length_fmap.
  destruct (patch_atoms_coincident o atoms grids i j ai aj
              (AtomicGrid_new ai nrad fineness o)) as [e He]; try done.
  { unfold grids, make_atom_grids. by rewrite list_lookup_fmap, Hi. }
  exists e. rewrite He. split; [done|].
  by apply (patch_atoms_exn o atoms grids).
Qed.

(** C1, as the code has it.  When two atoms of the molecule are at one
    position and the atomic grid of one of them has a point, the constructor
    of [MolecularGrid] raises while it patches, and no grid is built: the
    exception is Python's [ZeroDivisionError] of the division by [rij = 0]
    (or it was raised before that division was reached: another division by
    zero, or, with the heteronuclear correction only, an atomic number
    outside the table [Bragg]).  No geometry is checked before the
    patching. *)
Theorem coincident_atoms_division_by_zero (atoms : list Atom)
    (nrad fineness : Z) (o : opts) (i j : nat) (ai aj : Atom) :
  atoms !! i = Some ai → atoms !! j = Some aj → i ≠ j → pos ai = pos aj →
  AtomicGrid_new ai nrad fineness o ≠ [] →
  ∃ e, __init__ atoms nrad fineness o = Raise e ∧
       (e = ZeroDivisionError ∨ (do_becke_hetero o = true ∧ e = IndexError)).
Proof. apply init_coincident. Qed.

End molecular_grid_claims.

Section molecular_grid_examples.
Import MolecularGrid Examples.

Lemma becke_weight_range_and_midplane_witness :
  0 <= sbecke 0.25 3 <= 1 ∧
  patch_atoms_sprod default_opts h2 0 (mkAtom 1 (0, 0, 0.7)) (1, 0, 0)
    (sqrt (dist2 (0, 0, 0.7) (1, 0, 0))) = Ok 0.5.
Proof.
  destruct (becke_weight_range_and_midplane 0.25 default_opts
              (mkAtom 1 (0, 0, 0.7)) (mkAtom 1 (0, 0, -0.7)) (1, 0, 0))
    as (_ & Hr & _ & Hs & _).
  - lra.
  - reflexivity.
  - simpl. intros [= Hz]. lra.
  - simpl. lra.
  - split; [exact Hr|exact Hs].
Defined.

Lemma coincident_atoms_division_by_zero_witness :
  ∃ e, __init__ h2_coincident 1 1 default_opts = Raise e ∧
       (e = ZeroDivisionError ∨
        (do_becke_hetero default_opts = true ∧ e = IndexError)).
Proof.
  apply (coincident_atoms_division_by_zero h2_coincident 1 1 default_opts
           0 1 (mkAtom 1 (0, 0, 0.7)) (mkAtom 1 (0, 0, 0.7))).
  - reflexivity.
  - reflexivity.
  - lia.
  - reflexivity.
  - simpl. discriminate.
Defined.

(** The degenerate hydrogen molecule with one point per atom: the exception
    of the constructor is the [ZeroDivisionError] of the float division. *)
Example coincident_atoms_raise_ZeroDivisionError :
  __init__ h2_coincident 1 1 default_opts = Raise ZeroDivisionError.
Proof.
  destruct (init_coincident h2_coincident 1 1 default_opts 0 1
              (mkAtom 1 (0, 0, 0.7)) (mkAtom 1 (0, 0, 0.7)))
    as (e & -> & [->|[Hhet _]]); try done; lia.
Qed.

(** C1, as the spec states it, fails: two atoms at one position whose atomic
    grids have no point (here [nrad = 0]) are accepted, no exception is
    raised and the molecular grid is built. *)
Lemma coincident_atoms_accepted_without_points :
  h2_coincident !! 0%nat = Some (mkAtom 1 (0, 0, 0.7)) ∧
  h2_coincident !! 1%nat = Some (mkAtom 1 (0, 0, 0.7)) ∧
  __init__ h2_coincident 0 1 default_opts =
    Ok (mkMolecularGrid false h2_coincident 0 1 [[]; []] None) ∧
  ¬ raises (__init__ h2_coincident 0 1 default_opts).
Proof.
  assert (__init__ h2_coincident 0 1 default_opts =
          Ok (mkMolecularGrid false h2_coincident 0 1 [[]; []] None)) as Hok
    by reflexivity.
  repeat split; try done. rewrite Hok. by intros [e He].
Qed.

End molecular_grid_examples.

(** ** NumWrap: shapes and entries *)

Section numwrap_facts.
Import NumWrap.

Lemma rect_row (n m : nat) (A : matrix) (i : nat) (r : vector) :
  rect n m A → A !! i = Some r → length r = m.
Proof. intros [_ HA] Hi. by eapply (Forall_lookup_1 _ _ _ _ HA). Qed.

Lemma rect_ncols (n m : nat) (A : matrix) :
  rect n m A → (0 < n)%nat → ncols A = m.
Proof.
  intros HA Hn. destruct A as [|r A]; [destruct HA; simpl in *; lia|].
  by apply (rect_row n m (r :: A) 0).
Qed.

Lemma rect_ncols_square (n : nat) (A : matrix) : rect n n A → ncols A = n.
Proof.
  intros HA. destruct n; [|apply (rect_ncols (S n)); [done|lia]].
  destruct HA as [HA _]. by destruct A.
Qed.

Lemma ent_row (A : matrix) (i j : nat) (r : vector) :
  A !! i = Some r → ent A i j = default 0 (r !! j).
Proof. intros Hi. unfold ent. by rewrite Hi. Qed.

Lemma rect_ent_lookup (n m : nat) (A : matrix) (i j : nat) :
  rect n m A → (i < n)%nat → (j < m)%nat →
  ∃ r, A !! i = Some r ∧ r !! j = Some (ent A i j).
Proof.
  intros HA Hi Hj. pose proof HA as [Hlen _].
  destruct (lookup_lt_is_Some_2 A i) as [r Hr]; [lia|].
  pose proof (rect_row _ _ _ _ _ HA Hr) as Hlr.
  destruct (lookup_lt_is_Some_2 r j) as [x Hx]; [lia|].
  exists r. split; [done|]. by rewrite (ent_row _ _ _ _ Hr), Hx.
Qed.

(** Two arrays of one shape with the same entries are equal. *)
Lemma rect_ext (n m : nat) (A B : matrix) :
  rect n m A → rect n m B →
  (∀ i j, (i < n)%nat → (j < m)%nat → ent A i j = ent B i j) → A = B.
Proof.
  intros HA HB Hent. apply list_eq. intros i.
  destruct (decide (i < n)%nat) as [Hi|Hi].
  - destruct HA as [HlA HfA], HB as [HlB HfB].
    destruct (lookup_lt_is_Some_2 A i) as [r Hr]; [lia|].
    destruct (lookup_lt_is_Some_2 B i) as [s Hs]; [lia|].
    rewrite Hr, Hs. f_equal. apply list_eq. intros j.
    pose proof (Forall_lookup_1 _ _ _ _ HfA Hr) as Hlr.
    pose proof (Forall_lookup_1 _ _ _ _ HfB Hs) as Hls.
    simpl in Hlr, Hls.
    destruct (decide (j < m)%nat) as [Hj|Hj].
    + specialize (Hent i j Hi Hj).
      rewrite (ent_row _ _ _ _ Hr), (ent_row _ _ _ _ Hs) in Hent.
      destruct (lookup_lt_is_Some_2 r j) as [x Hx]; [lia|].
      destruct (lookup_lt_is_Some_2 s j) as [y Hy]; [lia|].
      rewrite Hx, Hy in *. simpl in Hent. by subst.
    + rewrite !lookup_ge_None_2 by lia. done.
  - destruct HA as [HlA _], HB as [HlB _].
    rewrite !lookup_ge_None_2 by lia. done.
Qed.

Lemma rect_mat_of (n m : nat) (f : nat → nat → R) : rect n m (mat_of n m f).
Proof.
  unfold rect, mat_of. split; [by rewrite length_fmap, length_seq|].
  apply Forall_fmap, Forall_forall. intros i _. simpl.
  by rewrite length_fmap, length_seq.
Qed.

Lemma ent_mat_of (n m : nat) (f : nat → nat → R) (i j : nat) :
  (i < n)%nat → (j < m)%nat → ent (mat_of n m f) i j = f i j.
Proof.
  intros Hi Hj. unfold ent, mat_of.
  rewrite list_lookup_fmap, lookup_seq_lt by done. simpl.
  rewrite list_lookup_fmap, lookup_seq_lt by done. done.
Qed.

Lemma rect_identity (n : nat) : rect n n (identity n).
Proof. apply rect_mat_of. Qed.

Lemma rect_mzip (f : R → R → R) (n m : nat) (A B : matrix) :
  rect n m A → rect n m B → rect n m (mzip f A B).
Proof.
  intros [HlA HfA] [HlB HfB]. unfold rect, mzip. split.
  - rewrite length_zip_with. lia.
  - apply Forall_lookup. intros i r Hr.
    apply lookup_zip_with_Some in Hr as (a & b & -> & Ha & Hb).
    pose proof (Forall_lookup_1 _ _ _ _ HfA Ha).
    pose proof (Forall_lookup_1 _ _ _ _ HfB Hb). simpl in *.
    rewrite length_zip_with. lia.
Qed.

Lemma ent_mzip (f : R → R → R) (n m : nat) (A B : matrix) (i j : nat) :
  rect n m A → rect n m B → (i < n)%nat → (j < m)%nat →
  ent (mzip f A B) i j = f (ent A i j) (ent B i j).
Proof.
  intros HA HB Hi Hj.
  destruct (rect_ent_lookup n m A i j) as (r & Hr & Hx); try done.
  destruct (rect_ent_lookup n m B i j) as (s & Hs & Hy); try done.
  unfold ent at 1, mzip. rewrite lookup_zip_with, Hr, Hs. simpl.
  by rewrite lookup_zip_with, Hx, Hy.
Qed.

Lemma conform_rect (n m : nat) (A B : matrix) :
  rect n m A → rect n m B → conform A B = true.
Proof.
  intros [HlA HfA] [HlB HfB]. unfold conform.
  apply andb_true_intro. split; apply bool_decide_eq_true; [congruence|].
  apply Forall2_same_length_lookup. split; [congruence|].
  intros i r s Hr Hs.
  pose proof (Forall_lookup_1 _ _ _ _ HfA Hr).
  pose proof (Forall_lookup_1 _ _ _ _ HfB Hs). simpl in *. congruence.
Qed.

Lemma elementwise_rect (f : R → R → R) (n m : nat) (A B : matrix) :
  rect n m A → rect n m B → elementwise f A B = Ok (mzip f A B).
Proof.
  intros HA HB. unfold elementwise. by rewrite (conform_rect n m).
Qed.

Lemma add_rect (n m : nat) (A B : matrix) :
  rect n m A → rect n m B → add A B = Ok (mplus A B).
Proof. apply elementwise_rect. Qed.

Lemma sub_rect (n m : nat) (A B : matrix) :
  rect n m A → rect n m B → sub A B = Ok (mminus A B).
Proof. apply elementwise_rect. Qed.

Lemma rect_mplus (n m : nat) (A B : matrix) :
  rect n m A → rect n m B → rect n m (mplus A B).
Proof. apply rect_mzip. Qed.

Lemma rect_mminus (n m : nat) (A B : matrix) :
  rect n m A → rect n m B → rect n m (mminus A B).
Proof. apply rect_mzip. Qed.

Lemma ent_mplus (n m : nat) (A B : matrix) (i j : nat) :
  rect n m A → rect n m B → (i < n)%nat → (j < m)%nat →
  ent (mplus A B) i j = ent A i j + ent B i j.
Proof. apply (ent_mzip Rplus). Qed.

Lemma ent_mminus (n m : nat) (A B : matrix) (i j : nat) :
  rect n m A → rect n m B → (i < n)%nat → (j < m)%nat →
  ent (mminus A B) i j = ent A i j - ent B i j.
Proof. apply (ent_mzip Rminus). Qed.

Lemma rect_map (g : R → R) (n m : nat) (A : matrix) :
  rect n m A → rect n m ((λ r : vector, g <$> r) <$> A).
Proof.
  intros [HlA HfA]. split; [by rewrite length_fmap|].
  apply Forall_fmap. eapply Forall_impl; [done|].
  intros r Hr. simpl. by rewrite length_fmap.
Qed.

Lemma ent_map (g : R → R) (n m : nat) (A : matrix) (i j : nat) :
  rect n m A → (i < n)%nat → (j < m)%nat →
  ent ((λ r : vector, g <$> r) <$> A) i j = g (ent A i j).
Proof.
  intros HA Hi Hj.
  destruct (rect_ent_lookup n m A i j) as (r & Hr & Hx); try done.
  unfold ent at 1. rewrite list_lookup_fmap, Hr. simpl.
  by rewrite list_lookup_fmap, Hx.
Qed.

Lemma rect_scal (c : R) (n m : nat) (A : matrix) :
  rect n m A → rect n m (scal c A).
Proof. apply rect_map. Qed.

Lemma ent_scal (c : R) (n m : nat) (A : matrix) (i j : nat) :
  rect n m A → (i < n)%nat → (j < m)%nat →
  ent (scal c A) i j = c * ent A i j.
Proof. apply (ent_map (Rmult c)). Qed.

Lemma rect_mdiv (c : R) (n m : nat) (A : matrix) :
  rect n m A → rect n m (mdiv A c).
Proof. apply (rect_map (λ x, x / c)). Qed.

Lemma ent_mdiv (c : R) (n m : nat) (A : matrix) (i j : nat) :
  rect n m A → (i < n)%nat → (j < m)%nat →
  ent (mdiv A c) i j = ent A i j / c.
Proof. apply (ent_map (λ x, x / c)). Qed.

Lemma div_nonzero (A : matrix) (c : R) : c ≠ 0 → div A c = Ok (mdiv A c).
Proof. intros Hc. unfold div. by destruct (Req_dec_T c 0). Qed.

Lemma div_zero (A : matrix) : div A 0 = Raise ZeroDivisionError.
Proof. unfold div. by destruct (Req_dec_T 0 0). Qed.

Lemma ent_identity (n i j : nat) :
  (i < n)%nat → (j < n)%nat →
  ent (identity n) i j = if Nat.eqb i j then 1 else 0.
Proof. intros Hi Hj. unfold identity. by rewrite ent_mat_of. Qed.

Lemma rect_mmul (n : nat) (A B : matrix) :
  rect n n A → rect n n B → rect n n (mmul A B).
Proof.
  intros [HlA HfA] HB. unfold mmul. split; [by rewrite length_fmap|].
  apply Forall_fmap, Forall_forall. intros r _. simpl.
  by rewrite length_fmap, length_seq, (rect_ncols_square n).
Qed.

Lemma matrixmultiply_rect (n : nat) (A B : matrix) :
  rect n n A → rect n n B → matrixmultiply A B = Ok (mmul A B).
Proof.
  intros [HlA HfA] [HlB HfB]. unfold matrixmultiply.
  rewrite bool_decide_eq_true_2; [done|].
  eapply Forall_impl; [done|]. intros r Hr. simpl in *. congruence.
Qed.

End numwrap_facts.

(** ** dmm: sums, minima and the Gershgorin bounds *)

Section dmm_facts.
Import NumWrap dmm Spec.

Lemma foldl_Rplus (a : R) (l : list R) : foldl Rplus a l = a + py_sum l.
Proof.
  unfold py_sum. revert a. induction l as [|x l IH]; intros a; simpl; [lra|].
  rewrite (IH (a + x)), (IH (0 + x)). lra.
Qed.

Lemma py_sum_nil : py_sum [] = 0.
Proof. done. Qed.

Lemma py_sum_cons (x : R) (l : list R) : py_sum (x :: l) = x + py_sum l.
Proof. unfold py_sum at 1. simpl. rewrite foldl_Rplus. lra. Qed.

Lemma py_sum_app (l1 l2 : list R) : py_sum (l1 ++ l2) = py_sum l1 + py_sum l2.
Proof.
  induction l1 as [|x l1 IH]; simpl.
  - rewrite py_sum_nil. lra.
  - rewrite !py_sum_cons, IH. lra.
Qed.

Lemma py_sum_vplus (u v : vector) :
  length u = length v → py_sum (vplus u v) = py_sum u + py_sum v.
Proof.
  revert v. induction u as [|x u IH]; intros [|y v] Hl; simplify_eq/=.
  - rewrite py_sum_nil. lra.
  - rewrite !py_sum_cons, IH by done. lra.
Qed.

Lemma foldl_vplus (m : nat) (r : vector) (A : matrix) :
  length r = m → Forall (λ s : vector, length s = m) A →
  length (foldl vplus r A) = m ∧
  py_sum (foldl vplus r A) = py_sum r + py_sum (concat A).
Proof.
  revert r. induction A as [|s A IH]; intros r Hr HA; simpl.
  - rewrite py_sum_nil. split; [done|lra].
  - apply Forall_cons in HA as [Hs HA].
    destruct (IH (vplus r s)) as [Hl Hsum]; [|done|].
    { unfold vplus. rewrite length_zip_with. lia. }
    split; [done|].
    rewrite Hsum, py_sum_vplus, py_sum_app by congruence. lra.
Qed.

(** [sum(sum(A))] is the sum of all entries. *)
Lemma sum_sum_rect (n m : nat) (A : matrix) :
  (0 < n)%nat → rect n m A → sum_sum A = Ok (total_sum A).
Proof.
  intros Hn [Hl HA]. destruct A as [|r A]; [simpl in Hl; lia|].
  apply Forall_cons in HA as [Hr HA]. unfold sum_sum, total_sum. simpl.
  destruct (foldl_vplus m r A Hr HA) as [_ ->].
  by rewrite py_sum_app.
Qed.

Lemma foldl_Rmin (a : R) (l : list R) :
  is_min (foldl Rmin a l) (a :: l).
Proof.
  revert a. induction l as [|x l IH]; intros a; simpl.
  - split; [left|]. intros y ->%list_elem_of_singleton. lra.
  - destruct (IH (Rmin a x)) as [Hin Hle]. split.
    + apply elem_of_cons in Hin as [->|Hin]; [|by do 2 right].
      unfold Rmin. destruct (Rle_dec a x); [left|right; left].
    + intros y Hy. apply elem_of_cons in Hy as [->|Hy].
      * etrans; [apply Hle; left|apply Rmin_l].
      * apply elem_of_cons in Hy as [->|Hy].
        -- etrans; [apply Hle; left|apply Rmin_r].
        -- apply Hle. by right.
Qed.

Lemma foldl_Rmax (a : R) (l : list R) :
  is_max (foldl Rmax a l) (a :: l).
Proof.
  revert a. induction l as [|x l IH]; intros a; simpl.
  - split; [left|]. intros y ->%list_elem_of_singleton. lra.
  - destruct (IH (Rmax a x)) as [Hin Hle]. split.
    + apply elem_of_cons in Hin as [->|Hin]; [|by do 2 right].
      unfold Rmax. destruct (Rle_dec a x); [right; left|left].
    + intros y Hy. apply elem_of_cons in Hy as [->|Hy].
      * etrans; [apply Rmax_l|apply Hle; left].
      * apply elem_of_cons in Hy as [->|Hy].
        -- etrans; [apply Rmax_r|apply Hle; left].
        -- apply Hle. by right.
Qed.

Lemma py_min_is_min (l : list R) :
  l ≠ [] → ∃ x, py_min l = Ok x ∧ is_min x l.
Proof.
  destruct l as [|a l]; [done|]. intros _.
  exists (foldl Rmin a l). split; [done|apply foldl_Rmin].
Qed.

Lemma py_max_is_max (l : list R) :
  l ≠ [] → ∃ x, py_max l = Ok x ∧ is_max x l.
Proof.
  destruct l as [|a l]; [done|]. intros _.
  exists (foldl Rmax a l). split; [done|apply foldl_Rmax].
Qed.

Lemma is_min_unique (x y : R) (l : list R) : is_min x l → is_min y l → x = y.
Proof. intros [Hx Hlx] [Hy Hly]. apply Rle_antisym; auto. Qed.

Lemma is_max_unique (x y : R) (l : list R) : is_max x l → is_max y l → x = y.
Proof. intros [Hx Hlx] [Hy Hly]. apply Rle_antisym; auto. Qed.

(** [sum(abs(A[i,:])) - abs(A[i,i])] is the sum over the other columns. *)
Lemma offsum_delete (r : vector) (i : nat) (x : R) :
  r !! i = Some x →
  py_sum (Rabs <$> r) - Rabs x = py_sum (Rabs <$> delete i r).
Proof.
  intros Hi. rewrite <-(take_drop_middle r i x Hi) at 1.
  rewrite delete_take_drop, !fmap_app, !py_sum_app, fmap_cons, py_sum_cons.
  lra.
Qed.

Lemma gershgorin_row_square (n : nat) (A : matrix) (i : nat)
    (st : list R * list R) :
  rect n n A → (i < n)%nat →
  gershgorin_row A i st =
    Ok (st.1 ++ [ent A i i - offdiag_abs_sum A i],
        st.2 ++ [ent A i i + offdiag_abs_sum A i]).
Proof.
  intros HA Hi.
  destruct (rect_ent_lookup n n A i i HA Hi Hi) as (r & Hr & Hx).
  unfold gershgorin_row, getitem2, getitem, offdiag_abs_sum.
  rewrite Hr. simpl. rewrite Hx. simpl.
  by rewrite (offsum_delete r i _ Hx).
Qed.

Lemma gershgorin_loop (n : nat) (A : matrix) (len k : nat)
    (mins maxs : list R) :
  rect n n A → (k + len <= n)%nat →
  for_each (gershgorin_row A) (seq k len) (mins, maxs) =
    Ok (mins ++ ((λ i, ent A i i - offdiag_abs_sum A i) <$> seq k len),
        maxs ++ ((λ i, ent A i i + offdiag_abs_sum A i) <$> seq k len)).
Proof.
  intros HA. revert k mins maxs.
  induction len as [|len IH]; intros k mins maxs Hk; simpl.
  - by rewrite !app_nil_r.
  - rewrite (gershgorin_row_square n) by (done || lia). simpl.
    rewrite IH by lia. by rewrite <-!app_assoc.
Qed.

(** On a square array with at least one row, [gershgorin_minmax] returns the
    least lower and the greatest upper Gershgorin row bound. *)
Lemma gershgorin_minmax_square (n : nat) (A : matrix) :
  (0 < n)%nat → rect n n A →
  ∃ emin emax,
    gershgorin_minmax A = Ok (emin, emax) ∧
    is_min emin (gershgorin_lower A) ∧ is_max emax (gershgorin_upper A).
Proof.
  intros Hn HA. pose proof HA as [Hlen _].
  unfold gershgorin_minmax, shape, range.
  rewrite Hlen, (gershgorin_loop n A n 0 [] []) by (done || lia). simpl.
  destruct (py_min_is_min (gershgorin_lower A)) as (emin & Hmin & Hismin).
  { unfold gershgorin_lower. rewrite Hlen. destruct n; [lia|done]. }
  destruct (py_max_is_max (gershgorin_upper A)) as (emax & Hmax & Hismax).
  { unfold gershgorin_upper. rewrite Hlen. destruct n; [lia|done]. }
  exists emin, emax. unfold gershgorin_lower, gershgorin_upper in *.
  rewrite Hlen in *. rewrite Hmin. simpl. rewrite Hmax. done.
Qed.

Lemma gershgorin_minmax_empty : gershgorin_minmax [] = Raise ValueError.
Proof. done. Qed.

End dmm_facts.

(** ** dmm: the purification of the density matrix *)

Create HintDb rect discriminated.
#[local] Hint Resolve rect_mmul rect_mplus rect_mminus rect_scal rect_mdiv
  rect_identity rect_mat_of : rect.

Ltac rect := solve [eauto 30 with rect].

Section dmm_claims.
Import NumWrap dmm Spec.

(** A loop that is left with [break] in its first iteration runs no other
    iteration. *)
Lemma for_break_first {S} (body : nat → S → result (S * bool)) (i : nat)
    (ixs : list nat) (s s' : S) :
  body i s = Ok (s', true) → for_break body (i :: ixs) s = Ok (s', true).
Proof. intros Hb. simpl. by rewrite Hb. Qed.

Lemma for_break_next {S} (body : nat → S → result (S * bool)) (i : nat)
    (ixs : list nat) (s s' : S) :
  body i s = Ok (s', false) →
  for_break body (i :: ixs) s = for_break body ixs s'.
Proof. intros Hb. simpl. by rewrite Hb. Qed.

Lemma for_break_exhausts {S} (body : nat → S → result (S * bool))
    (ixs : list nat) (s s' : S) :
  for_break body ixs s = Ok (s', false) ↔ exhausts body ixs s s'.
Proof.
  split.
  - revert s. induction ixs as [|i ixs IH]; intros s; simpl.
    + intros [= <-]. constructor.
    + destruct (body i s) as [[s1 [|]]|] eqn:Hb; simpl; try done.
      intros Hrest. econstructor; [done|by apply IH].
  - induction 1 as [|i ixs s s1 s' Hb _ IH]; [done|].
    by rewrite (for_break_next _ _ _ _ _ Hb).
Qed.

(** Every iteration of step 3 keeps the density matrix square, of the size
    of the identity that step 2 built: the theorems below on one iteration
    apply to every iteration of the loop. *)
Lemma DMP_iter_square (n : nat) (Ne ErrorLimit : R) (Method : Z) (iter : nat)
    (D D' : matrix) (s s' : R) (b : bool) :
  rect n n D →
  DMP_iter Ne ErrorLimit Method (identity n) iter (D, s) = Ok ((D', s'), b) →
  rect n n D'.
Proof.
  intros HD. unfold DMP_iter.
  rewrite (matrixmultiply_rect n D D) by done. cbn [mbind result_bind].
  set (D2 := mmul D D). assert (rect n n D2) by (subst D2; rect).
  destruct (Method =? 0)%Z.
  { destruct (Rlt_dec (trace D) Ne); [rewrite (sub_rect n n) by rect|];
      cbn [mbind result_bind]; intros ?; simplify_eq; rect. }
  destruct (Method =? 1)%Z.
  { rewrite (sub_rect n n (scal 4 D) (scal 3 D2)) by rect.
    cbn [mbind result_bind].
    rewrite (matrixmultiply_rect n D2) by rect. cbn [mbind result_bind].
    rewrite (sub_rect n n (identity n) D) by rect. cbn [mbind result_bind].
    rewrite (matrixmultiply_rect n (mminus (identity n) D)) by rect.
    cbn [mbind result_bind].
    rewrite (matrixmultiply_rect n D2) by rect. cbn [mbind result_bind].
    destruct (fdiv _ _) as [g|]; [|done]. cbn [mbind result_bind].
    destruct (Rgt_dec g 2); [|destruct (Rlt_dec g 0)];
      [rewrite (sub_rect n n) by rect|..|rewrite (sub_rect n n) by rect];
      cbn [mbind result_bind]; intros ?; simplify_eq; rect. }
  destruct (Method =? 2)%Z.
  { rewrite (matrixmultiply_rect n D D2) by rect. cbn [mbind result_bind].
    rewrite (sub_rect n n) by rect. cbn [mbind result_bind].
    intros ?; simplify_eq; rect. }
  destruct (Method =? 3)%Z; [|intros ?; simplify_eq; rect].
  rewrite (matrixmultiply_rect n D D2) by rect. cbn [mbind result_bind].
  rewrite (sub_rect n n D2), (sub_rect n n D D2) by rect.
  cbn [mbind result_bind].
  destruct (fdiv _ _) as [c|]; [|done]. cbn [mbind result_bind].
  assert (∀ t : matrix, rect n n t → ∀ x k,
            (div t x ≫= k) = Ok (D', s', b) →
            ∃ t', rect n n t' ∧ k t' = Ok (D', s', b)) as Hdiv.
  { intros t Ht x k. unfold div. destruct (Req_dec_T x 0); [done|].
    cbn [mbind result_bind]. intros Hk. exists (mdiv t x). split; [rect|done]. }
  assert (∀ t : matrix, rect n n t →
            (Dsum ← sum_sum t;
             if Rlt_dec (Dsum - s) ErrorLimit then Ok (t, s, true)
             else Ok (t, Dsum, false)) = Ok (D', s', b) → rect n n D') as Hend.
  { intros t Ht. destruct (sum_sum t) as [Dsum|]; [|done].
    cbn [mbind result_bind].
    by destruct (Rlt_dec _ _); intros ?; simplify_eq. }
  destruct (Rlt_dec c 0.5).
  - rewrite (add_rect n n) by rect. cbn [mbind result_bind].
    rewrite (sub_rect n n) by rect. cbn [mbind result_bind].
    intros (t' & Ht' & Hk)%Hdiv; [|rect]. by apply (Hend t').
  - rewrite (sub_rect n n) by rect. cbn [mbind result_bind].
    intros (t' & Ht' & Hk)%Hdiv; [|rect]. by apply (Hend t').
Qed.

(** Step 2 for the methods 0 and 1, from the Gershgorin bounds. *)
Lemma DMP_init_interpolation (n : nat) (F : matrix) (Ne emin emax : R)
    (Method : Z) :
  rect n n F → (Method = 0 ∨ Method = 1)%Z →
  gershgorin_minmax F = Ok (emin, emax) →
  DMP_init F Ne Method =
    lift (div (mminus (scal emax (identity n)) F) (emax - emin)).
Proof.
  intros HF HM Hg. pose proof HF as [Hlen _].
  unfold DMP_init, shape. rewrite Hg, Hlen. cbn [lift mbind prog_bind fst].
  assert (((Method =? 0) || (Method =? 1))%Z = true) as ->
    by (destruct HM as [-> | ->]; done).
  unfold lift. by rewrite (sub_rect n n) by rect.
Qed.

(** When the two bounds coincide (the Fock matrix is a multiple of the
    identity) the division of step 2 is by zero. *)
Lemma DMP_init_coinciding_bounds (n : nat) (F : matrix) (Ne e : R)
    (Method : Z) :
  rect n n F → (Method = 0 ∨ Method = 1)%Z →
  gershgorin_minmax F = Ok (e, e) →
  DMP_init F Ne Method = ([], Raise ZeroDivisionError).
Proof.
  intros HF HM Hg. rewrite (DMP_init_interpolation n F Ne e e) by done.
  unfold lift. by rewrite Rminus_diag, div_zero.
Qed.

(** C5. For the methods 0 and 1 the density matrix is initialised from the
    Gershgorin bounds of the orthogonalised Fock matrix [F] alone:
    [emin] is the least of the row bounds [F_ii - Σ_{j≠i}|F_ij|], [emax] the
    greatest of the row bounds [F_ii + Σ_{j≠i}|F_ij|], and the initial matrix
    is [(emax*I - F)/(emax - emin)], entry by entry, when the two bounds
    differ.  The initialisation is a function of the entries of [F]: it calls
    no collaborator, and so no eigensolver. *)
Theorem DMP_init_gershgorin_interpolation (n : nat) (F : matrix) (Ne : R)
    (Method : Z) :
  (0 < n)%nat → rect n n F → (Method = 0 ∨ Method = 1)%Z →
  ∃ emin emax,
    is_min emin (gershgorin_lower F) ∧
    is_max emax (gershgorin_upper F) ∧
    gershgorin_minmax F = Ok (emin, emax) ∧
    (emax ≠ emin →
     DMP_init F Ne Method =
       ([], Ok (mat_of n n (λ i j,
                  (emax * (if Nat.eqb i j then 1 else 0) - ent F i j)
                  / (emax - emin))))).
Proof.
  intros Hn HF HM.
  destruct (gershgorin_minmax_square n F Hn HF) as (emin & emax & Hg & Hmin & Hmax).
  exists emin, emax. do 3 (split; [done|]).
  intros Hne. rewrite (DMP_init_interpolation n F Ne emin emax) by done.
  unfold lift. rewrite div_nonzero by lra. do 2 f_equal.
  apply (rect_ext n n); [rect|rect|]. intros i j Hi Hj.
  rewrite (ent_mdiv _ n n), (ent_mminus n n), (ent_scal _ n n),
    ent_identity, ent_mat_of by (rect || lia).
  done.
Qed.

(** C6. For a method selector other than 0, 1, 2 and 3 the initialisation of
    the density matrix raises, whatever the Fock matrix: on a square
    orthogonalised Fock matrix the exception is the one of the statement
    [raise "Unknown method %d" % Method].  So [DMP] raises and prints
    nothing, for every iteration budget: no density matrix is returned and
    no iteration is run. *)
Theorem DMP_unknown_method `{LA2} (F S : matrix) (Ne : R) (Method MaxIter : Z)
    (ErrorLimit : R) :
  (Method < 0 ∨ 3 < Method)%Z →
  (∀ F', ∃ e, DMP_init F' Ne Method = ([], Raise e)) ∧
  (∃ e, DMP F S Ne Method MaxIter ErrorLimit = ([], Raise e)) ∧
  (∀ X F' n, SymOrth S = Ok X → simx F X TransN = Ok F' →
     (0 < n)%nat → rect n n F' →
     DMP F S Ne Method MaxIter ErrorLimit =
       ([], Raise (StringException "Unknown method %d" Method))).
Proof.
  intros HM.
  assert (((Method =? 0) || (Method =? 1))%Z = false) as H01
    by (apply orb_false_intro; apply Z.eqb_neq; lia).
  assert ((Method =? 2)%Z = false) as H2 by (apply Z.eqb_neq; lia).
  assert ((Method =? 3)%Z = false) as H3 by (apply Z.eqb_neq; lia).
  assert (∀ F', DMP_init F' Ne Method =
            ([], match gershgorin_minmax F' with
                 | Ok _ => Raise (StringException "Unknown method %d" Method)
                 | Raise e => Raise e
                 end)) as Hinit.
  { intros F'. unfold DMP_init.
    destruct (gershgorin_minmax F') as [[emin emax]|e]; [|done].
    cbn [lift mbind prog_bind]. by rewrite H01, H2, H3. }
  split; [|split].
  - intros F'. rewrite Hinit. destruct (gershgorin_minmax F'); eauto.
  - unfold DMP. destruct (SymOrth S) as [X|e]; [|by eexists].
    cbn [lift mbind prog_bind]. destruct (simx F X TransN) as [F'|e]; [|by eexists].
    cbn [lift mbind prog_bind app]. rewrite Hinit.
    destruct (gershgorin_minmax F'); by eexists.
  - intros X F' n HX HF' Hn Hrect. unfold DMP. rewrite HX.
    cbn [lift mbind prog_bind]. rewrite HF'.
    cbn [lift mbind prog_bind app]. rewrite Hinit.
    by destruct (gershgorin_minmax_square n F' Hn Hrect) as (? & ? & -> & _).
Qed.

(** C2. An iteration of the canonical purification (method 3) on a square
    [D] computes [cn = trace(D²-D³)/trace(D-D²)] and replaces [D], entry by
    entry, by [((1-2cn)D + (1+cn)D² - D³)/(1-cn)] when [cn < 0.5] and by
    [((1+cn)D² - D³)/cn] otherwise; it leaves the loop with [break] exactly
    when the sum of all entries of the new [D] minus the sum at the previous
    iteration (the signed change [Dsum - Dsumold]) is below [ErrorLimit], and
    otherwise carries the new sum to the next iteration.  When
    [trace(D-D²)] is zero the division raises [ZeroDivisionError]. *)
Theorem DMP_canonical_iteration (n : nat) (Ne ErrorLimit : R) (I D : matrix)
    (Dsumold : R) (iter : nat) :
  (0 < n)%nat → rect n n D →
  let D2 := mmul D D in
  let D3 := mmul D D2 in
  let cn := trace (mminus D2 D3) / trace (mminus D D2) in
  let D' := mat_of n n (λ i j,
              if Rlt_dec cn 0.5 then
                ((1 - 2 * cn) * ent D i j + (1 + cn) * ent D2 i j - ent D3 i j)
                / (1 - cn)
              else ((1 + cn) * ent D2 i j - ent D3 i j) / cn) in
  let Dsum := total_sum D' in
  (trace (mminus D D2) ≠ 0 →
   DMP_iter Ne ErrorLimit 3 I iter (D, Dsumold) =
     Ok (if Rlt_dec (Dsum - Dsumold) ErrorLimit
         then ((D', Dsumold), true) else ((D', Dsum), false))) ∧
  (trace (mminus D D2) = 0 →
   DMP_iter Ne ErrorLimit 3 I iter (D, Dsumold) = Raise ZeroDivisionError).
Proof.
  intros Hn HD D2 D3 cn D' Dsum.
  assert (rect n n D2) as HD2 by (subst D2; rect).
  assert (rect n n D3) as HD3 by (subst D3; rect).
  assert (DMP_iter Ne ErrorLimit 3 I iter (D, Dsumold) =
          c ← fdiv (trace (mminus D2 D3)) (trace (mminus D D2));
          D' ← (if Rlt_dec c 0.5
                then t ← add (scal (1.0 - 2.0 * c) D) (scal (1.0 + c) D2);
                     t0 ← sub t D3; div t0 (1.0 - c)
                else t ← sub (scal (1 + c) D2) D3; div t c);
          Dsum ← sum_sum D';
          if Rlt_dec (Dsum - Dsumold) ErrorLimit then Ok ((D', Dsumold), true)
          else Ok ((D', Dsum), false)) as ->.
  { unfold DMP_iter.
    rewrite (matrixmultiply_rect n D D) by done. fold D2.
    cbn [mbind result_bind Z.eqb Pos.eqb].
    rewrite (matrixmultiply_rect n D D2) by done. fold D3.
    cbn [mbind result_bind].
    rewrite (sub_rect n n D2 D3), (sub_rect n n D D2) by done.
    done. }
  split; [|intros ->; by rewrite fdiv_zero].
  intros Hden. rewrite fdiv_nonzero by done. fold cn.
  cbn [mbind result_bind].
  assert ((if Rlt_dec cn 0.5
           then t ← add (scal (1.0 - 2.0 * cn) D) (scal (1.0 + cn) D2);
                t0 ← sub t D3; div t0 (1.0 - cn)
           else t ← sub (scal (1 + cn) D2) D3; div t cn) = Ok D') as ->.
  { subst D'. destruct (Rlt_dec cn 0.5) as [Hlt|Hge].
    - rewrite (add_rect n n) by rect. cbn [mbind result_bind].
      rewrite (sub_rect n n) by rect. cbn [mbind result_bind].
      rewrite div_nonzero by lra. f_equal.
      apply (rect_ext n n); [rect|rect|]. intros i j Hi Hj.
      rewrite (ent_mdiv _ n n), (ent_mminus n n), (ent_mplus n n),
        !(ent_scal _ n n), ent_mat_of by (rect || lia).
      f_equal; lra.
    - rewrite (sub_rect n n) by rect. cbn [mbind result_bind].
      rewrite div_nonzero by lra. f_equal.
      apply (rect_ext n n); [rect|rect|]. intros i j Hi Hj.
      by rewrite (ent_mdiv _ n n), (ent_mminus n n),
        !(ent_scal _ n n), ent_mat_of by (rect || lia). }
  cbn [mbind result_bind].
  rewrite (sum_sum_rect n n) by (done || subst D'; rect).
  cbn [mbind result_bind]. fold Dsum.
  by destruct (Rlt_dec (Dsum - Dsumold) ErrorLimit).
Qed.

(** C10. An iteration of the trace-resetting purification (method 1) on a
    square [D] computes [gamma = (Ne - trace(D²(4D-3D²)))/trace(D²(I-D)²)]
    and replaces [D] by [2D - D²] when [gamma > 2], by [D²] when
    [gamma < 0], and by the blend [Df - gamma*Dg] only when
    [0 <= gamma <= 2], where [Df = D²(4D-3D²)] and [Dg = D²(I-D)²]; it leaves
    the loop when the trace of the old [D] is within [ErrorLimit] of [Ne].
    When [trace(Dg)] is zero the division raises [ZeroDivisionError]. *)
Theorem DMP_trace_resetting_iteration (n : nat) (Ne ErrorLimit : R)
    (D : matrix) (Dsumold : R) (iter : nat) :
  rect n n D →
  let I := identity n in
  let D2 := mmul D D in
  let Df := mmul D2 (mminus (scal 4 D) (scal 3 D2)) in
  let Dg := mmul D2 (mmul (mminus I D) (mminus I D)) in
  let gamma := (Ne - trace Df) / trace Dg in
  let D' := if Rgt_dec gamma 2 then mminus (scal 2 D) D2
            else if Rlt_dec gamma 0 then D2
            else mminus Df (scal gamma Dg) in
  let stop := if Rlt_dec (Rabs (trace D - Ne)) ErrorLimit then true else false in
  (trace Dg ≠ 0 →
   DMP_iter Ne ErrorLimit 1 I iter (D, Dsumold) = Ok ((D', Dsumold), stop) ∧
   (gamma > 2 → ∀ i j, (i < n)%nat → (j < n)%nat →
      ent D' i j = 2 * ent D i j - ent D2 i j) ∧
   (gamma < 0 → D' = D2) ∧
   (0 <= gamma <= 2 → ∀ i j, (i < n)%nat → (j < n)%nat →
      ent D' i j = ent Df i j - gamma * ent Dg i j)) ∧
  (trace Dg = 0 →
   DMP_iter Ne ErrorLimit 1 I iter (D, Dsumold) = Raise ZeroDivisionError).
Proof.
  intros HD I D2 Df Dg gamma D' stop.
  assert (rect n n I) as HI by (subst I; rect).
  assert (rect n n D2) as HD2 by (subst D2; rect).
  assert (rect n n Df) as HDf by (subst Df; rect).
  assert (rect n n Dg) as HDg by (subst Dg; rect).
  assert (DMP_iter Ne ErrorLimit 1 I iter (D, Dsumold) =
          g ← fdiv (Ne - trace Df) (trace Dg);
          Ok ((if Rgt_dec g 2 then mminus (scal 2 D) D2
               else if Rlt_dec g 0 then D2
               else mminus Df (scal g Dg), Dsumold), stop)) as ->.
  { unfold DMP_iter.
    rewrite (matrixmultiply_rect n D D) by done. fold D2.
    cbn [mbind result_bind Z.eqb Pos.eqb].
    rewrite (sub_rect n n (scal 4 D) (scal 3 D2)) by rect.
    cbn [mbind result_bind].
    rewrite (matrixmultiply_rect n D2) by rect. fold Df.
    cbn [mbind result_bind].
    rewrite (sub_rect n n I D) by rect. cbn [mbind result_bind].
    rewrite (matrixmultiply_rect n (mminus I D)) by rect.
    cbn [mbind result_bind].
    rewrite (matrixmultiply_rect n D2) by rect. fold Dg.
    cbn [mbind result_bind].
    destruct (fdiv (Ne - trace Df) (trace Dg)) as [g|]; [|done].
    cbn [mbind result_bind].
    destruct (Rgt_dec g 2); [|destruct (Rlt_dec g 0)];
      [rewrite (sub_rect n n) by rect|..|rewrite (sub_rect n n) by rect];
      done. }
  split; [|intros ->; by rewrite fdiv_zero].
  intros Hden. rewrite fdiv_nonzero by done. fold gamma.
  cbn [mbind result_bind]. subst D'. repeat split.
  - intros Hg i j Hi Hj. destruct (Rgt_dec gamma 2); [|lra].
    by rewrite (ent_mminus n n), (ent_scal _ n n) by (rect || lia).
  - intros Hg. destruct (Rgt_dec gamma 2); [lra|].
    destruct (Rlt_dec gamma 0); [done|lra].
  - intros Hg i j Hi Hj. destruct (Rgt_dec gamma 2); [lra|].
    destruct (Rlt_dec gamma 0); [lra|].
    by rewrite (ent_mminus n n), (ent_scal _ n n) by (rect || lia).
Qed.

(** The outcome of [DMP] from the outcome of its loop. *)
Lemma DMP_after_loop `{LA2} (F S : matrix) (Ne : R) (Method MaxIter : Z)
    (ErrorLimit : R) (X F' D0 D : matrix) (out0 : list output)
    (Dsum0 Dsum : R) :
  SymOrth S = Ok X → simx F X TransN = Ok F' →
  DMP_init F' Ne Method = (out0, Ok D0) → sum_sum D0 = Ok Dsum0 →
  (exhausts (DMP_iter Ne ErrorLimit Method (identity (length F')))
     (range (Z.to_nat MaxIter)) (D0, Dsum0) (D, Dsum) →
   DMP F S Ne Method MaxIter ErrorLimit =
     (out0 ++ [print_warning_maxiters], simx D X TransT)) ∧
  (for_break (DMP_iter Ne ErrorLimit Method (identity (length F')))
     (range (Z.to_nat MaxIter)) (D0, Dsum0) = Ok ((D, Dsum), true) →
   DMP F S Ne Method MaxIter ErrorLimit = (out0, simx D X TransT)).
Proof.
  intros HX HF' Hinit Hsum. unfold DMP. rewrite HX.
  cbn [lift mbind prog_bind]. rewrite HF'. cbn [lift mbind prog_bind app].
  rewrite Hinit. cbn [lift mbind prog_bind]. rewrite Hsum.
  cbn [lift mbind prog_bind shape fst]. split.
  - intros Hex%for_break_exhausts. rewrite Hex.
    cbn [lift mbind prog_bind print]. by rewrite !app_nil_r.
  - intros ->. cbn [lift mbind prog_bind mret prog_ret].
    by rewrite !app_nil_r.
Qed.

(** C7. When the [MaxIter] iterations of step 3 all run and none of them meets
    its stopping criterion, [DMP] prints the warning
    ["DMM: Warning MaxIters reached"] after what the initialisation printed,
    raises nothing of its own, and returns the density matrix of the last
    iteration transformed back with [simx(D,X,'T')], where [X] is the
    orthogonaliser of step 1.  When an iteration leaves the loop with
    [break], no warning is printed. *)
Theorem DMP_maxiter_warning `{LA2} (F S : matrix) (Ne : R) (Method MaxIter : Z)
    (ErrorLimit : R) (X F' D0 D : matrix) (out0 : list output)
    (Dsum0 Dsum : R) :
  SymOrth S = Ok X → simx F X TransN = Ok F' →
  DMP_init F' Ne Method = (out0, Ok D0) → sum_sum D0 = Ok Dsum0 →
  (exhausts (DMP_iter Ne ErrorLimit Method (identity (length F')))
     (range (Z.to_nat MaxIter)) (D0, Dsum0) (D, Dsum) →
   DMP F S Ne Method MaxIter ErrorLimit =
     (out0 ++ [print_warning_maxiters], simx D X TransT)) ∧
  (for_break (DMP_iter Ne ErrorLimit Method (identity (length F')))
     (range (Z.to_nat MaxIter)) (D0, Dsum0) = Ok ((D, Dsum), true) →
   DMP F S Ne Method MaxIter ErrorLimit = (out0, simx D X TransT)).
Proof. apply DMP_after_loop. Qed.

End dmm_claims.

(** ** UHFSolver: the Fock matrices and the energy *)

Section uhf_claims.
Import NumWrap UHFSolver Spec.
Context {integrals : Type} `{Collaborators integrals}.

(** [update_fock] on a solver whose two spin densities are assigned. *)
Lemma update_fock_ok (n : nat) (self : UHFSolver integrals)
    (da db : matrix) :
  basis_size n → rect n n (h self) → rect n n da → rect n n db →
  Da self = Some da → Db self = Some db →
  let ja := getJ (Ints self) da in
  let jb := getJ (Ints self) db in
  let ka := getK (Ints self) da in
  let kb := getK (Ints self) db in
  let fa := mat_of n n (λ i j,
              ent (h self) i j + ent ja i j + ent jb i j - ent ka i j) in
  let fb := mat_of n n (λ i j,
              ent (h self) i j + ent ja i j + ent jb i j - ent kb i j) in
  update_fock self = Ok (set_F (set_K (set_J self ja jb) ka kb) fa fb) ∧
  fa = mminus (mplus (mplus (h self) ja) jb) ka ∧
  fb = mminus (mplus (mplus (h self) ja) jb) kb.
Proof.
  intros (HJ & HK & _) Hh Hda Hdb HDa HDb ja jb ka kb fa fb.
  assert (rect n n ja) by (apply HJ; done).
  assert (rect n n jb) by (apply HJ; done).
  assert (rect n n ka) by (apply HK; done).
  assert (rect n n kb) by (apply HK; done).
  assert (fa = mminus (mplus (mplus (h self) ja) jb) ka) as Hfa.
  { apply (rect_ext n n); [subst fa; rect|rect|]. intros i j Hi Hj.
    subst fa. by rewrite ent_mat_of, (ent_mminus n n), !(ent_mplus n n)
      by (rect || lia). }
  assert (fb = mminus (mplus (mplus (h self) ja) jb) kb) as Hfb.
  { apply (rect_ext n n); [subst fb; rect|rect|]. intros i j Hi Hj.
    subst fb. by rewrite ent_mat_of, (ent_mminus n n), !(ent_mplus n n)
      by (rect || lia). }
  split; [|done].
  unfold update_fock, update_J, update_K. rewrite HDa, HDb.
  cbn [attr mbind result_bind set_J set_K Da Db Ints Ja Jb Ka Kb h].
  rewrite HDa, HDb.
  cbn [attr mbind result_bind set_J set_K Da Db Ints Ja Jb Ka Kb h].
  fold ja jb ka kb.
  rewrite (add_rect n n (h self) ja) by done. cbn [mbind result_bind].
  rewrite (add_rect n n _ jb) by rect. cbn [mbind result_bind].
  rewrite (sub_rect n n _ ka) by rect. cbn [mbind result_bind].
  rewrite (sub_rect n n _ kb) by rect. cbn [mbind result_bind].
  by rewrite Hfa, Hfb.
Qed.

(** C8. [update_fock] computes the Coulomb and exchange matrices of the two
    spin densities, [J_sigma = getJ(Ints,D_sigma)] and
    [K_sigma = getK(Ints,D_sigma)], and builds
    [Fa = h + Ja + Jb - Ka] and [Fb = h + Ja + Jb - Kb]: both Fock matrices
    share the Coulomb part and differ by the exchange matrix of their own
    spin. *)
Theorem update_fock_shared_coulomb (n : nat) (self : UHFSolver integrals)
    (da db : matrix) :
  basis_size n → rect n n (h self) → rect n n da → rect n n db →
  Da self = Some da → Db self = Some db →
  let ja := getJ (Ints self) da in
  let jb := getJ (Ints self) db in
  let ka := getK (Ints self) da in
  let kb := getK (Ints self) db in
  let fa := mat_of n n (λ i j,
              ent (h self) i j + ent ja i j + ent jb i j - ent ka i j) in
  let fb := mat_of n n (λ i j,
              ent (h self) i j + ent ja i j + ent jb i j - ent kb i j) in
  update_fock self = Ok (set_F (set_K (set_J self ja jb) ka kb) fa fb) ∧
  fa = mminus (mplus (mplus (h self) ja) jb) ka ∧
  fb = mminus (mplus (mplus (h self) ja) jb) kb.
Proof. apply update_fock_ok. Qed.

Lemma average_rect (n : nat) (a : R) (D D_old : matrix) :
  rect n n D → rect n n D_old →
  average a D D_old = Ok (mplus (scal a D) (scal (1.0 - a) D_old)).
Proof. intros HD HDo. unfold average. by rewrite (add_rect n n) by rect. Qed.

(** [update_density] assigns the two spin densities, their sum and the
    entropy term. *)
Lemma update_density_ok (n : nat) (self : UHFSolver integrals) :
  basis_size n → rect n n (orbsa self) → rect n n (orbsb self) →
  (do_averaging self = true → (1 < iter self)%Z →
   ∃ da_old db_old, Da_old self = Some da_old ∧ Db_old self = Some db_old ∧
                    rect n n da_old ∧ rect n n db_old) →
  ∃ da db ea eb da_old db_old,
    rect n n da ∧ rect n n db ∧
    update_density self =
      Ok (set_density self da db ea eb (spin_entropy self) da_old db_old
            (mplus da db)).
Proof.
  intros (_ & _ & Hmk & Hmkf) Hca Hcb Hold.
  unfold update_density, spin_entropy.
  set (new := match truth (etemp self) with Some t => _ | None => _ end).
  assert (∃ da db ea eb, rect n n da ∧ rect n n db ∧
            new = (da, db, ea, eb,
                   match truth (etemp self) with
                   | Some t =>
                       ((mkdens_fermi (2 * nalpha self) (orbea self) (orbsa self) t).2 +
                        (mkdens_fermi (2 * nbeta self) (orbeb self) (orbsb self) t).2) / 2
                   | None => 0
                   end)) as (da & db & ea & eb & Hda & Hdb & ->).
  { subst new. destruct (truth (etemp self)) as [t|].
    - pose proof (Hmkf (2 * nalpha self)%Z (orbea self) (orbsa self) t Hca).
      pose proof (Hmkf (2 * nbeta self)%Z (orbeb self) (orbsb self) t Hcb).
      destruct (mkdens_fermi (2 * nalpha self) _ _ t) as [da ea].
      destruct (mkdens_fermi (2 * nbeta self) _ _ t) as [db eb].
      exists da, db, (Some ea), (Some eb). simpl in *.
      split; [done|]. split; [done|]. f_equal. lra.
    - exists (mkdens (orbsa self) 0 (nalpha self)),
        (mkdens (orbsb self) 0 (nbeta self)), (entropya self), (entropyb self).
      split; [by apply Hmk|]. split; [by apply Hmk|]. done. }
  destruct (do_averaging self) eqn:Havg.
  - destruct (iter self >? 1)%Z eqn:Hit.
    + destruct Hold as (dao & dbo & -> & -> & Hdao & Hdbo);
        [done|by apply Z.gtb_lt|].
      cbn [attr mbind result_bind].
      rewrite (average_rect n) by done. cbn [mbind result_bind].
      rewrite (average_rect n) by done. cbn [mbind result_bind].
      rewrite (add_rect n n) by rect. cbn [mbind result_bind].
      eexists _, _, ea, eb, _, _.
      split; [|split; [|reflexivity]]; rect.
    + cbn [mbind result_bind].
      rewrite (add_rect n n) by rect. cbn [mbind result_bind].
      by exists da, db, ea, eb, (Some da), (Some db).
  - cbn [mbind result_bind].
    rewrite (add_rect n n) by rect. cbn [mbind result_bind].
    by exists da, db, ea, eb, (Da_old self), (Db_old self).
Qed.

Lemma solve_fock_ok (self : UHFSolver integrals) (fa fb : matrix) :
  Fa self = Some fa → Fb self = Some fb →
  solve_fock self =
    Ok (set_orbitals self (geigh fa (S self)).1 (geigh fa (S self)).2
          (geigh fb (S self)).1 (geigh fb (S self)).2).
Proof.
  intros Ha Hb. unfold solve_fock. rewrite Ha, Hb. cbn [attr mbind result_bind].
  destruct (geigh fa (S self)). cbn [mbind result_bind].
  by destruct (geigh fb (S self)).
Qed.

(** [calculate_energy] on a solver whose densities, Coulomb and exchange
    matrices and entropy are assigned. *)
Lemma calculate_energy_ok (n : nat) (self : UHFSolver integrals)
    (dab da db ja jb ka kb : matrix) (e : R) :
  rect n n ja → rect n n jb →
  Dab self = Some dab → Da self = Some da → Db self = Some db →
  Ja self = Some ja → Jb self = Some jb →
  Ka self = Some ka → Kb self = Some kb → entropy self = Some e →
  calculate_energy self =
    Ok (set_energy self (trace2 dab (h self))
          (0.5 * trace2 dab (mplus ja jb))
          (-0.5 * (trace2 da ka + trace2 db kb))
          (trace2 dab (h self) + 0.5 * trace2 dab (mplus ja jb)
           + -0.5 * (trace2 da ka + trace2 db kb) + Enuke self + e)).
Proof.
  intros Hja Hjb HDab HDa HDb HJa HJb HKa HKb He. unfold calculate_energy.
  rewrite HDab, HDa, HDb, HJa, HJb, HKa, HKb, He.
  cbn [attr mbind result_bind].
  by rewrite (add_rect n n ja jb).
Qed.

(** C9. In an iteration, that is [update_density], [update_fock],
    [solve_fock] and [calculate_energy] run in this order, every call
    succeeds and the energy assigned by [calculate_energy] is
    [trace2(Da+Db,h) + 0.5*trace2(Da+Db,Ja+Jb)
     - 0.5*(trace2(Da,Ka) + trace2(Db,Kb)) + entropy + Enuke],
    on the densities and the Coulomb and exchange matrices of this iteration,
    where [entropy] is the average [(entropya + entropyb)/2] of the two spin
    entropies returned by [mkdens_fermi] when [etemp] is a non-zero
    temperature, and [0] otherwise. *)
Theorem iteration_energy (n : nat) (self : UHFSolver integrals) :
  basis_size n → rect n n (h self) →
  rect n n (orbsa self) → rect n n (orbsb self) →
  (do_averaging self = true → (1 < iter self)%Z →
   ∃ da_old db_old, Da_old self = Some da_old ∧ Db_old self = Some db_old ∧
                    rect n n da_old ∧ rect n n db_old) →
  ∃ s1 s2 s3 self' da db,
    update_density self = Ok s1 ∧ update_fock s1 = Ok s2 ∧
    solve_fock s2 = Ok s3 ∧ calculate_energy s3 = Ok self' ∧
    Da self' = Some da ∧ Db self' = Some db ∧
    Dab self' = Some (mplus da db) ∧
    Ja self' = Some (getJ (Ints self) da) ∧
    Jb self' = Some (getJ (Ints self) db) ∧
    Ka self' = Some (getK (Ints self) da) ∧
    Kb self' = Some (getK (Ints self) db) ∧
    entropy self' = Some (spin_entropy self) ∧
    energy self' =
      Some (trace2 (mplus da db) (h self)
            + 0.5 * trace2 (mplus da db)
                      (mplus (getJ (Ints self) da) (getJ (Ints self) db))
            - 0.5 * (trace2 da (getK (Ints self) da)
                     + trace2 db (getK (Ints self) db))
            + spin_entropy self + Enuke self).
Proof.
  intros Hsize Hh Hca Hcb Hold.
  destruct (update_density_ok n self Hsize Hca Hcb Hold)
    as (da & db & ea & eb & dao & dbo & Hda & Hdb & Hupd).
  set (s1 := set_density self da db ea eb (spin_entropy self) dao dbo
               (mplus da db)) in *.
  destruct (update_fock_ok n s1 da db) as [Hfock _]; try done.
  pose proof Hsize as (HJ & HK & _).
  eexists s1, _, _, _, da, db.
  split; [exact Hupd|]. split; [exact Hfock|].
  split; [by apply solve_fock_ok|].
  split.
  { apply (calculate_energy_ok n _ (mplus da db) da db
             (getJ (Ints self) da) (getJ (Ints self) db)
             (getK (Ints self) da) (getK (Ints self) db) (spin_entropy self));
      first [reflexivity | apply HJ; done]. }
  cbn [set_energy set_orbitals set_F set_K set_J s1 set_density
       Da Db Dab Ja Jb Ka Kb entropy energy h Ints Enuke].
  do 8 (split; [reflexivity|]). f_equal. lra.
Qed.

End uhf_claims.

(** ** The code on concrete inputs *)

(** Evaluation of the embedded code on arrays given by their entries: the
    definitions are unfolded, the comparisons of reals are decided by [lra],
    and the shape checks of Numeric are discharged on the literal operands. *)
Ltac Rcases :=
  repeat match goal with
  | |- context [Rcase_abs ?a] => destruct (Rcase_abs a); try (exfalso; lra)
  | |- context [Rle_dec ?a ?b] => destruct (Rle_dec a b); try (exfalso; lra)
  | |- context [Rlt_dec ?a ?b] => destruct (Rlt_dec a b); try (exfalso; lra)
  | |- context [Rgt_dec ?a ?b] => destruct (Rgt_dec a b); try (exfalso; lra)
  | |- context [Req_dec_T ?a ?b] => destruct (Req_dec_T a b); try (exfalso; lra)
  end.

Ltac rect_lit := once (split; [reflexivity | repeat constructor]).

Ltac Rcbv :=
  cbv [dmm.gershgorin_minmax dmm.gershgorin_row NumWrap.shape NumWrap.ncols
       range for_each for_break getitem NumWrap.getitem2 py_sum py_min py_max
       fdiv NumWrap.mzip NumWrap.mplus NumWrap.mminus NumWrap.scal
       NumWrap.mdiv NumWrap.identity NumWrap.mat_of NumWrap.diagonal
       NumWrap.diagonal_from NumWrap.dot NumWrap.column NumWrap.mmul
       NumWrap.vplus NumWrap.sum_rows NumWrap.sum_sum dmm.trace
       dmm.fermi_matrix dmm.DMP_init dmm.DMP_iter dmm.DMP lift print
       Spec.total_sum dmm.SymOrth dmm.simx Examples.orthonormal_basis
       UHFSolver.getJ UHFSolver.getK UHFSolver.trace2 UHFSolver.mkdens
       UHFSolver.mkdens_fermi UHFSolver.geigh Examples.closed_forms
       UHFSolver.attr UHFSolver.truth UHFSolver.average
       UHFSolver.update_density UHFSolver.update_J UHFSolver.update_K
       UHFSolver.update_fock UHFSolver.solve_fock UHFSolver.calculate_energy
       UHFSolver.iteration UHFSolver.set_density UHFSolver.set_J
       UHFSolver.set_K UHFSolver.set_F UHFSolver.set_orbitals
       UHFSolver.set_energy
       UHFSolver.h UHFSolver.S UHFSolver.Ints UHFSolver.Enuke UHFSolver.etemp
       UHFSolver.do_averaging UHFSolver.iter UHFSolver.nalpha UHFSolver.nbeta
       UHFSolver.avgfact UHFSolver.orbea UHFSolver.orbeb UHFSolver.orbsa
       UHFSolver.orbsb UHFSolver.Da UHFSolver.Db UHFSolver.entropya
       UHFSolver.entropyb UHFSolver.entropy UHFSolver.Da_old UHFSolver.Db_old
       UHFSolver.Dab UHFSolver.Ja UHFSolver.Jb UHFSolver.Ka UHFSolver.Kb
       UHFSolver.Fa UHFSolver.Fb UHFSolver.Eone UHFSolver.Ej UHFSolver.Exc
       UHFSolver.energy
       mbind mret result_bind result_ret prog_bind prog_ret
       Rabs Rmin Rmax
       fst snd length seq lookup list_lookup fmap list_fmap foldl zip_with
       app concat default from_option Datatypes.id
       Z.eqb Z.gtb Z.compare Pos.compare Pos.compare_cont Z.mul Pos.mul
       Z.sub Z.add Z.opp Z.pos_sub Z.succ_double Z.pred_double Z.double
       Pos.pred_double Pos.eqb orb andb Nat.eqb
       Z.to_nat Pos.to_nat Pos.iter_op Nat.add].

Ltac Rshape :=
  first
    [ erewrite add_rect by rect_lit
    | erewrite sub_rect by rect_lit
    | erewrite matrixmultiply_rect by rect_lit
    | match goal with
      | |- context [NumWrap.div ?A ?c] =>
          first [ rewrite (div_nonzero A c) by lra
                | replace c with 0 by lra; rewrite (div_zero A) ]
      end ].

Ltac Reval := repeat (Rcbv; Rcases; try Rshape).
Ltac Rdone := Reval; repeat f_equal; lra.

Section dmm_examples.
Import NumWrap dmm Spec Examples.

Example gershgorin_minmax_F2 : gershgorin_minmax F2 = Ok (-1, 1).
Proof. unfold F2. Rdone. Qed.

Example DMP_init_F2 (Ne : R) : DMP_init F2 Ne 0 = ([], Ok D2).
Proof. unfold F2, D2. Rdone. Qed.

(** A 1 by 1 Fock matrix has coinciding Gershgorin bounds: the initialisation
    of the methods 0 and 1 divides by zero. *)
Example DMP_init_1x1 (f Ne : R) :
  DMP_init [[f]] Ne 0 = ([], Raise ZeroDivisionError).
Proof. Reval; reflexivity. Qed.

Example sum_sum_D2 : sum_sum D2 = Ok 0.
Proof. unfold D2. Rdone. Qed.

(** Trace-correcting iterations on [D2], whose trace is 1: with [Ne = 2] the
    iteration does not stop, with [Ne = 1] it does. *)
Example DMP_iter_D2_continues :
  DMP_iter 2 1e-12 0 (identity 2) 0 (D2, 0) = Ok ((D2, 0), false).
Proof. unfold D2. Rdone. Qed.

Example DMP_iter_D2_stops :
  DMP_iter 1 1e-12 0 (identity 2) 0 (D2, 0) = Ok ((D2, 0), true).
Proof. unfold D2. Rdone. Qed.

(** [DMP] on the two-level system with one electron: the first iteration
    meets the stopping criterion, nothing is printed. *)
Example DMP_F2_converges :
  DMP F2 S2 1 0 50 1e-12 = ([], Ok D2).
Proof.
  destruct (DMP_after_loop F2 S2 1 0 50 1e-12 (identity 2) F2 D2 D2 [] 0 0)
    as [_ Hbrk]; try done.
  - apply DMP_init_F2.
  - apply sum_sum_D2.
  - rewrite Hbrk; [done|]. apply for_break_first, DMP_iter_D2_stops.
Qed.

Lemma DMP_init_gershgorin_interpolation_witness :
  ∃ emin emax,
    is_min emin (gershgorin_lower F2) ∧
    is_max emax (gershgorin_upper F2) ∧
    gershgorin_minmax F2 = Ok (emin, emax) ∧
    (emax ≠ emin →
     DMP_init F2 1 0 =
       ([], Ok (mat_of 2 2 (λ i j,
                  (emax * (if Nat.eqb i j then 1 else 0) - ent F2 i j)
                  / (emax - emin))))).
Proof.
  apply (DMP_init_gershgorin_interpolation 2 F2 1 0).
  - lia.
  - split; [reflexivity|repeat constructor].
  - left. reflexivity.
Defined.

Lemma DMP_unknown_method_witness :
  (∀ F', ∃ e, DMP_init F' 1 7 = ([], Raise e)) ∧
  (∃ e, DMP F2 S2 1 7 50 1e-12 = ([], Raise e)) ∧
  (∀ X F' n, SymOrth S2 = Ok X → simx F2 X TransN = Ok F' →
     (0 < n)%nat → rect n n F' →
     DMP F2 S2 1 7 50 1e-12 =
       ([], Raise (StringException "Unknown method %d" 7))).
Proof.
  apply (DMP_unknown_method F2 S2 1 7 50 1e-12).
  right. lia.
Defined.

Example trace_Dh : trace (mminus Dh (mmul Dh Dh)) = 0.5.
Proof. unfold Dh. Rdone. Qed.

Example DMP_canonical_Dh :
  DMP_iter 1 1e-12 3 (identity 2) 0 (Dh, 1) = Ok ((Dh, 1), true).
Proof. unfold Dh. Rdone. Qed.

(** The stopping test of method 3 is on the signed change of the sum: a sum
    that drops from 5 to 1 leaves the loop. *)
Example DMP_canonical_Dh_decrease :
  DMP_iter 1 1e-12 3 (identity 2) 0 (Dh, 5) = Ok ((Dh, 5), true).
Proof. unfold Dh. Rdone. Qed.

Lemma DMP_canonical_iteration_witness :
  let D2 := mmul Dh Dh in
  let D3 := mmul Dh D2 in
  let cn := trace (mminus D2 D3) / trace (mminus Dh D2) in
  let D' := mat_of 2 2 (λ i j,
              if Rlt_dec cn 0.5 then
                ((1 - 2 * cn) * ent Dh i j + (1 + cn) * ent D2 i j - ent D3 i j)
                / (1 - cn)
              else ((1 + cn) * ent D2 i j - ent D3 i j) / cn) in
  DMP_iter 1 1e-12 3 (identity 2) 0 (Dh, 1) =
    Ok (if Rlt_dec (total_sum D' - 1) 1e-12
        then ((D', 1), true) else ((D', total_sum D'), false)).
Proof.
  destruct (DMP_canonical_iteration 2 1 1e-12 (identity 2) Dh 1 0)
    as [Hstep _].
  - lia.
  - split; [reflexivity|repeat constructor].
  - apply Hstep. rewrite trace_Dh. lra.
Defined.

Example DMP_trace_resetting_Dh :
  DMP_iter 1 1e-12 1 (identity 2) 0 (Dh, 1) =
    Ok (([[0.75; 0]; [0; 0.75]], 1), true).
Proof. unfold Dh. Rdone. Qed.

Example trace_Dg_Dh :
  trace (mmul (mmul Dh Dh)
           (mmul (mminus (identity 2) Dh) (mminus (identity 2) Dh))) = 0.125.
Proof. unfold Dh. Rdone. Qed.

Lemma DMP_trace_resetting_iteration_witness :
  let I := identity 2 in
  let D2 := mmul Dh Dh in
  let Df := mmul D2 (mminus (scal 4 Dh) (scal 3 D2)) in
  let Dg := mmul D2 (mmul (mminus I Dh) (mminus I Dh)) in
  let gamma := (1 - trace Df) / trace Dg in
  let D' := if Rgt_dec gamma 2 then mminus (scal 2 Dh) D2
            else if Rlt_dec gamma 0 then D2
            else mminus Df (scal gamma Dg) in
  let stop := if Rlt_dec (Rabs (trace Dh - 1)) 1e-12 then true else false in
  DMP_iter 1 1e-12 1 I 0 (Dh, 1) = Ok ((D', 1), stop).
Proof.
  destruct (DMP_trace_resetting_iteration 2 1 1e-12 Dh 1 0) as [Hstep _].
  - split; [reflexivity|repeat constructor].
  - apply Hstep. rewrite trace_Dg_Dh. lra.
Defined.

Lemma DMP_maxiter_warning_witness :
  DMP F2 S2 2 0 1 1e-12 = ([print_warning_maxiters], Ok D2).
Proof.
  destruct (DMP_maxiter_warning F2 S2 2 0 1 1e-12 (identity 2) F2 D2 D2 [] 0 0)
    as [Hwarn _].
  - reflexivity.
  - reflexivity.
  - apply DMP_init_F2.
  - apply sum_sum_D2.
  - apply Hwarn. econstructor; [apply DMP_iter_D2_continues|constructor].
Defined.

End dmm_examples.

Section uhf_examples.
Import NumWrap UHFSolver Spec Examples.

Lemma closed_forms_basis_size (n : nat) : basis_size n.
Proof.
  split; [|split; [|split]]; intros; simpl; first [done | by apply rect_scal].
Qed.

(** [update_fock] on the solver with the densities [Da = 2] and [Db = 1]. *)
Example update_fock_li :
  update_fock li_densities =
    Ok (set_F (set_K (set_J li_densities [[2]] [[1]]) [[0.5 * 2]] [[0.5 * 1]])
          [[-2 + 2 + 1 - 0.5 * 2]] [[-2 + 2 + 1 - 0.5 * 1]]).
Proof. unfold li_densities. Reval. reflexivity. Qed.

Lemma update_fock_shared_coulomb_witness :
  let ja := getJ (Ints li_densities) [[2]] in
  let jb := getJ (Ints li_densities) [[1]] in
  let ka := getK (Ints li_densities) [[2]] in
  let kb := getK (Ints li_densities) [[1]] in
  let fa := mat_of 1 1 (λ i j,
              ent (h li_densities) i j + ent ja i j + ent jb i j - ent ka i j) in
  let fb := mat_of 1 1 (λ i j,
              ent (h li_densities) i j + ent ja i j + ent jb i j - ent kb i j) in
  update_fock li_densities =
    Ok (set_F (set_K (set_J li_densities ja jb) ka kb) fa fb) ∧
  fa = mminus (mplus (mplus (h li_densities) ja) jb) ka ∧
  fb = mminus (mplus (mplus (h li_densities) ja) jb) kb.
Proof.
  apply (update_fock_shared_coulomb 1 li_densities [[2]] [[1]]).
  - apply closed_forms_basis_size.
  - split; [reflexivity|repeat constructor].
  - split; [reflexivity|repeat constructor].
  - split; [reflexivity|repeat constructor].
  - reflexivity.
  - reflexivity.
Defined.

(** An iteration at zero temperature, and one at 10000 K. *)
Example iteration_li_energy :
  ∃ self', iteration (li None) = Ok self' ∧ energy self' = Some (-2.75).
Proof.
  eexists. split; [unfold li; Reval; reflexivity|].
  Rcbv. f_equal. lra.
Qed.

Example iteration_li_energy_10000K :
  ∃ self', iteration (li (Some 10000)) = Ok self' ∧
           entropy self' = Some (-0.1) ∧ energy self' = Some (-2.85).
Proof.
  eexists. split; [unfold li; Reval; reflexivity|].
  Rcbv. split; f_equal; lra.
Qed.

Lemma iteration_energy_witness :
  ∃ s1 s2 s3 self' da db,
    update_density (li None) = Ok s1 ∧ update_fock s1 = Ok s2 ∧
    solve_fock s2 = Ok s3 ∧ calculate_energy s3 = Ok self' ∧
    Da self' = Some da ∧ Db self' = Some db ∧
    Dab self' = Some (mplus da db) ∧
    Ja self' = Some (getJ (Ints (li None)) da) ∧
    Jb self' = Some (getJ (Ints (li None)) db) ∧
    Ka self' = Some (getK (Ints (li None)) da) ∧
    Kb self' = Some (getK (Ints (li None)) db) ∧
    entropy self' = Some (spin_entropy (li None)) ∧
    energy self' =
      Some (trace2 (mplus da db) (h (li None))
            + 0.5 * trace2 (mplus da db)
                      (mplus (getJ (Ints (li None)) da)
                         (getJ (Ints (li None)) db))
            - 0.5 * (trace2 da (getK (Ints (li None)) da)
                     + trace2 db (getK (Ints (li None)) db))
            + spin_entropy (li None) + Enuke (li None)).
Proof.
  apply (iteration_energy 1 (li None)).
  - apply closed_forms_basis_size.
  - split; [reflexivity|repeat constructor].
  - split; [reflexivity|repeat constructor].
  - split; [reflexivity|repeat constructor].
  - intros Havg. discriminate Havg.
Defined.

End uhf_examples.

(** * Further properties of the code *)

(** ** Loops over the indices of a list *)

Section indexed_loops.
Context {A : Type}.

(** A loop over [range(n)] whose iteration [i] replaces the element [i] of a
    list: the result has the elements from [n] on unchanged and every element
    below [n] replaced as its iteration does. *)
Lemma for_each_pointwise (Rel : nat → A → A → Prop)
    (body : nat → list A → result (list A)) :
  (∀ i l l', body i l = Ok l' →
     ∃ a a', l !! i = Some a ∧ Rel i a a' ∧ l' = <[i := a']> l) →
  ∀ len k l l',
    for_each body (seq k len) l = Ok l' →
    length l' = length l ∧
    (∀ i, (i < k ∨ k + len <= i)%nat → l' !! i = l !! i) ∧
    (∀ i a, (k <= i < k + len)%nat → l !! i = Some a →
       ∃ a', l' !! i = Some a' ∧ Rel i a a').
Proof.
  intros Hbody. induction len as [|len IH]; intros k l l'; simpl.
  - intros [= <-]. split; [done|]. split; [done|]. intros i a Hi. lia.
  - destruct (body k l) as [l1|] eqn:Hb; [|done]. simpl. intros Hrest.
    destruct (Hbody _ _ _ Hb) as (a0 & a0' & Hl & HRel & ->).
    destruct (IH _ _ _ Hrest) as (Hlen & Hout & Hin).
    rewrite length_insert in Hlen. split; [done|]. split.
    + intros i Hi. rewrite Hout by lia. apply list_lookup_insert_ne. lia.
    + intros i a Hi Ha. destruct (decide (i = k)) as [->|Hne].
      * rewrite Hout by lia. rewrite list_lookup_insert_eq
          by (by eapply lookup_lt_Some).
        exists a0'. split; [done|]. congruence.
      * apply Hin; [lia|]. rewrite list_lookup_insert_ne by done. done.
Qed.

(** Such a loop returns when each iteration returns on every list that still
    has the original element at its index. *)
Lemma for_each_pointwise_ok (Rel : nat → A → A → Prop)
    (body : nat → list A → result (list A)) (l0 : list A) :
  (∀ i l l', body i l = Ok l' →
     ∃ a a', l !! i = Some a ∧ Rel i a a' ∧ l' = <[i := a']> l) →
  ∀ len k l,
    (∀ i, (k <= i)%nat → l !! i = l0 !! i) →
    (∀ i l, (k <= i < k + len)%nat → l !! i = l0 !! i →
       ∃ l', body i l = Ok l') →
    ∃ l', for_each body (seq k len) l = Ok l'.
Proof.
  intros Hbody. induction len as [|len IH]; intros k l Hl Hok; simpl.
  - by eexists.
  - destruct (Hok k l) as [l1 Hb]; [lia|by apply Hl|].
    rewrite Hb. simpl. apply IH.
    + intros i Hi. destruct (Hbody _ _ _ Hb) as (a & a' & _ & _ & ->).
      rewrite list_lookup_insert_ne by lia. apply Hl. lia.
    + intros i l2 Hi. apply Hok. lia.
Qed.

End indexed_loops.

(** ** MolecularGrid: what patching does to the grid *)

Section patch_atoms_extra.
Import MolecularGrid Props.
Context `{AtomicGridModule}.

Lemma patch_atoms_point_in (o : opts) (atoms : list Atom) (iat : nat)
    (ati : Atom) (i : nat) (grids : list AtomicGrid) (grid : AtomicGrid) :
  grids !! iat = Some grid →
  patch_atoms_point o atoms iat ati i grids =
    (grid' ← patch_point_in o atoms iat ati i grid;
     Ok (<[iat := grid']> grids)).
Proof.
  intros Hg. unfold patch_atoms_point, patch_point_in.
  apply getitem_Ok in Hg as ->. cbn [mbind result_bind].
  destruct (getitem grid i) as [[x y z w]|]; [|done].
  cbn [mbind result_bind xyzw point_pos _x _y _z _w].
  by destruct (patch_atoms_sprod _ _ _ _ _ _).
Qed.

Lemma patch_atoms_points_in (o : opts) (atoms : list Atom) (iat : nat)
    (ati : Atom) (ixs : list nat) (grids : list AtomicGrid)
    (grid : AtomicGrid) :
  grids !! iat = Some grid →
  for_each (patch_atoms_point o atoms iat ati) ixs grids =
    (grid' ← for_each (patch_point_in o atoms iat ati) ixs grid;
     Ok (<[iat := grid']> grids)).
Proof.
  revert grids grid. induction ixs as [|i ixs IH]; intros grids grid Hg.
  - simpl. by rewrite list_insert_id.
  - simpl. rewrite (patch_atoms_point_in _ _ _ _ _ _ _ Hg).
    destruct (patch_point_in o atoms iat ati i grid) as [g1|]; [|done].
    simpl. rewrite (IH _ g1).
    + destruct (for_each _ ixs g1); [|done]. simpl.
      by rewrite list_insert_insert_eq.
    + apply list_lookup_insert_eq. by eapply lookup_lt_Some.
Qed.

Lemma patch_point_in_pointwise (o : opts) (atoms : list Atom) (iat : nat)
    (ati : Atom) (i : nat) (grid grid' : AtomicGrid) :
  patch_point_in o atoms iat ati i grid = Ok grid' →
  ∃ p p', grid !! i = Some p ∧ patches o atoms iat ati p p' ∧
          grid' = <[i := p']> grid.
Proof.
  unfold patch_point_in.
  destruct (getitem grid i) as [p|] eqn:Hp; [|done]. simpl.
  destruct (patch_atoms_sprod _ _ _ _ _ _) as [sprod|] eqn:Hs; [|done].
  simpl. intros [= <-]. apply getitem_Ok in Hp.
  exists p, (scaled_point p sprod). split; [done|]. split; [|done].
  by exists sprod.
Qed.

Lemma patch_atoms_atom_pointwise (o : opts) (atoms : list Atom) (iat : nat)
    (grids grids' : list AtomicGrid) :
  patch_atoms_atom o atoms iat grids = Ok grids' →
  ∃ grid grid',
    grids !! iat = Some grid ∧
    (∃ ati, atoms !! iat = Some ati ∧
            Forall2 (patches o atoms iat ati) grid grid') ∧
    grids' = <[iat := grid']> grids.
Proof.
  unfold patch_atoms_atom.
  destruct (getitem atoms iat) as [ati|] eqn:Hati; [|done]. simpl.
  destruct (getitem grids iat) as [grid|] eqn:Hg; [|done]. simpl.
  apply getitem_Ok in Hati, Hg.
  rewrite (patch_atoms_points_in _ _ _ _ _ _ _ Hg).
  destruct (for_each _ _ grid) as [grid'|] eqn:Hloop; [|done].
  simpl. intros [= <-]. exists grid, grid'. split; [done|]. split; [|done].
  exists ati. split; [done|].
  destruct (for_each_pointwise (λ _, patches o atoms iat ati) _
              (patch_point_in_pointwise o atoms iat ati) _ _ _ _ Hloop)
    as (Hlen & _ & Hin).
  apply Forall2_same_length_lookup. split; [done|].
  intros i p p' Hp Hp'.
  destruct (Hin i p) as (q & Hq & Hpq); [|done|congruence].
  apply lookup_lt_Some in Hp. lia.
Qed.

Lemma patch_atoms_patches (o : opts) (atoms : list Atom)
    (grids grids' : list AtomicGrid) :
  patch_atoms o atoms grids = Ok grids' →
  length grids' = length grids ∧
  ∀ iat ati grid,
    atoms !! iat = Some ati → grids !! iat = Some grid →
    ∃ grid', grids' !! iat = Some grid' ∧
             Forall2 (patches o atoms iat ati) grid grid'.
Proof.
  unfold patch_atoms. intros Hloop.
  destruct (for_each_pointwise
              (λ iat grid grid', ∃ ati, atoms !! iat = Some ati ∧
                 Forall2 (patches o atoms iat ati) grid grid')
              _ (patch_atoms_atom_pointwise o atoms) _ _ _ _ Hloop)
    as (Hlen & _ & Hin).
  split; [done|]. intros iat ati grid Hati Hg.
  destruct (Hin iat grid) as (grid' & Hg' & ati' & Hati' & Hall); [|done|].
  { apply lookup_lt_Some in Hati. lia. }
  exists grid'. split; [done|]. by simplify_eq.
Qed.

(** X1. When [patch_atoms] returns, it returns the grids it received with
    nothing but the weights changed: every atom keeps its points in their
    order and at their positions, and the weight of each point is multiplied
    by the product [sprod] of the Becke factors at that point, a function of
    the position of the point and of the atoms alone. *)
Theorem patch_atoms_scales_weights (o : opts) (atoms : list Atom)
    (grids grids' : list AtomicGrid) :
  patch_atoms o atoms grids = Ok grids' →
  length grids' = length grids ∧
  ∀ iat ati grid,
    atoms !! iat = Some ati → grids !! iat = Some grid →
    ∃ grid',
      grids' !! iat = Some grid' ∧
      Forall2 (λ p p',
          ∃ sprod,
            patch_atoms_sprod o atoms iat ati (_x p, _y p, _z p)
              (sqrt (dist2 (pos ati) (_x p, _y p, _z p))) = Ok sprod ∧
            _x p' = _x p ∧ _y p' = _y p ∧ _z p' = _z p ∧
            _w p' = _w p * sprod)
        grid grid'.
Proof.
  intros Hpatch. destruct (patch_atoms_patches _ _ _ _ Hpatch) as [Hlen Hall].
  split; [done|]. intros iat ati grid Hati Hg.
  destruct (Hall iat ati grid Hati Hg) as (grid' & Hg' & HF).
  exists grid'. split; [done|]. eapply Forall2_impl; [done|].
  intros p p' (sprod & Hs & ->). by exists sprod.
Qed.

(** *** When the patching raises *)

Lemma patch_atoms_jat_raise_pos (o : opts) (ati atj : Atom) (p : R * R * R)
    (rip sprod : R) (e : exn) :
  do_becke_hetero o = false →
  patch_atoms_jat o ati atj p rip sprod = Raise e → pos ati = pos atj.
Proof.
  intros Hhet. unfold patch_atoms_jat, fdiv. rewrite Hhet.
  destruct (Req_dec_T (sqrt (dist2 (pos ati) (pos atj))) 0) as [Hz|]; [|done].
  intros _. by apply distance_zero.
Qed.

Lemma patch_atoms_sprod_raise_pos (o : opts) (atoms : list Atom) (iat : nat)
    (ati : Atom) (p : R * R * R) (rip : R) (e : exn) :
  do_becke_hetero o = false →
  patch_atoms_sprod o atoms iat ati p rip = Raise e →
  ∃ j aj, atoms !! j = Some aj ∧ j ≠ iat ∧ pos ati = pos aj.
Proof.
  intros Hhet. unfold patch_atoms_sprod.
  apply (for_each_raise_inv (λ _, True) (λ _, ∃ j aj, atoms !! j = Some aj ∧
           j ≠ iat ∧ pos ati = pos aj)); [done| |done].
  intros jat sprod e' Hjat%elem_of_range _.
  destruct (jat =? iat)%nat eqn:Hne; [done|]. apply Nat.eqb_neq in Hne.
  destruct (getitem_lt atoms jat Hjat) as (atj & Hatj & ->). simpl.
  intros Hr. exists jat, atj. split; [done|]. split; [done|].
  by eapply patch_atoms_jat_raise_pos.
Qed.

Lemma patch_atoms_atom_raise_coincident (o : opts) (atoms : list Atom)
    (iat : nat) (grids0 grids : list AtomicGrid) (e : exn) :
  do_becke_hetero o = false →
  (iat < length atoms)%nat → length grids0 = length atoms →
  length <$> grids = length <$> grids0 →
  patch_atoms_atom o atoms iat grids = Raise e → coincident atoms grids0.
Proof.
  intros Hhet Hi Hlen Hls. unfold patch_atoms_atom.
  destruct (getitem_lt atoms iat Hi) as (ati & Hati & ->). simpl.
  destruct (lengths_lookup grids grids0 iat Hls) as (grid & Hg & Hlg); [lia|].
  apply getitem_Ok in Hg as Hg'. rewrite Hg'. simpl.
  destruct (grids0 !! iat) as [grid0|] eqn:Hg0; [|done].
  injection Hlg as Hlg.
  apply (for_each_raise_inv (λ t, length <$> t = length <$> grids0)
           (λ _, coincident atoms grids0)); [| |done].
  - intros i s s' _ Hs Hb.
    by rewrite (patch_atoms_point_lengths _ _ _ _ _ _ _ Hb).
  - intros i s e' Hin%elem_of_range Hs.
    destruct (lengths_lookup s grids0 iat Hs) as (g & Hsg & Hlg'); [lia|].
    rewrite Hg0 in Hlg'. injection Hlg' as Hlg'.
    rewrite (patch_atoms_point_in _ _ _ _ _ _ _ Hsg). unfold patch_point_in.
    destruct (getitem_lt g i) as (point & _ & ->); [lia|]. simpl.
    destruct (patch_atoms_sprod _ _ _ _ _ _) as [sprod|e''] eqn:Hs'; [done|].
    intros _.
    destruct (patch_atoms_sprod_raise_pos _ _ _ _ _ _ _ Hhet Hs')
      as (j & aj & Haj & Hne & Hpos).
    exists iat, j, ati, aj, grid0. repeat split; try done.
    intros ->. simpl in *. lia.
Qed.

Lemma patch_atoms_raises_iff (o : opts) (atoms : list Atom)
    (grids : list AtomicGrid) :
  do_becke_hetero o = false → length grids = length atoms →
  raises (patch_atoms o atoms grids) ↔ coincident atoms grids.
Proof.
  intros Hhet Hlen. split.
  - intros [e He]. revert He. unfold patch_atoms.
    apply (for_each_raise_inv (λ t, length <$> t = length <$> grids)
             (λ _, coincident atoms grids)); [| |done].
    + intros i s s' _ Hs Hb.
      by rewrite (patch_atoms_atom_lengths _ _ _ _ _ Hb).
    + intros i s e' Hin%elem_of_range Hs.
      by apply patch_atoms_atom_raise_coincident.
  - intros (i & j & ai & aj & grid & Hi & Hj & Hne & Hpos & Hg & Hgrid).
    by eapply (patch_atoms_coincident o atoms grids i j).
Qed.

(** X2. Without the heteronuclear correction, the constructor of
    [MolecularGrid] raises exactly when two atoms of the molecule are at one
    position and the atomic grid of one of them has a point; on every other
    molecule it returns a grid. *)
Theorem init_raises_iff_coincident (atoms : list Atom) (nrad fineness : Z)
    (o : opts) :
  do_becke_hetero o = false →
  raises (__init__ atoms nrad fineness o) ↔
  ∃ i j ai aj,
    atoms !! i = Some ai ∧ atoms !! j = Some aj ∧ i ≠ j ∧
    pos ai = pos aj ∧ AtomicGrid_new ai nrad fineness o ≠ [].
Proof.
  intros Hhet.
  - unfold __init__.
    set (grids := make_atom_grids atoms nrad fineness o).
    assert (length grids = length atoms) as Hlen by apply length_fmap.
    pose proof (patch_atoms_raises_iff o atoms grids Hhet Hlen) as Hiff.
    assert (raises (grids' ← patch_atoms o atoms grids;
                    Ok (mkMolecularGrid (do_grad_dens o) atoms nrad fineness
                          grids' None)) ↔ raises (patch_atoms o atoms grids))
      as ->.
    { destruct (patch_atoms o atoms grids); cbn [mbind result_bind];
        split; intros [e' He]; first [discriminate He | apply raises_Raise]. }
    rewrite Hiff. unfold coincident. split.
    + intros (i & j & ai & aj & grid & Hi & Hj & Hne & Hpos & Hg & Hgrid).
      exists i, j, ai, aj. repeat split; try done.
      unfold grids, make_atom_grids in Hg.
      rewrite list_lookup_fmap, Hi in Hg. by simplify_eq/=.
    + intros (i & j & ai & aj & Hi & Hj & Hne & Hpos & Hgrid).
      exists i, j, ai, aj, (AtomicGrid_new ai nrad fineness o).
      repeat split; try done.
      unfold grids, make_atom_grids. by rewrite list_lookup_fmap, Hi.
Qed.

(** *** The range of the Becke factors *)

(** The triangle inequality for the distances that [patch_atoms] computes. *)
Lemma distance_triangle (a b p : R * R * R) :
  sqrt (dist2 a p) <= sqrt (dist2 a b) + sqrt (dist2 b p).
Proof.
  pose proof (dist2_nonneg a b) as Hc. pose proof (dist2_nonneg b p) as Hb.
  pose proof (sqrt_pos (dist2 a b)) as Hsc.
  pose proof (sqrt_pos (dist2 b p)) as Hsb.
  pose proof (sqrt_sqrt _ Hc) as Hqc. pose proof (sqrt_sqrt _ Hb) as Hqb.
  rewrite <-(sqrt_square (sqrt (dist2 a b) + sqrt (dist2 b p))) by lra.
  apply sqrt_le_1_alt.
  assert ((dist2 a p - dist2 a b - dist2 b p) / 2
          <= sqrt (dist2 a b) * sqrt (dist2 b p)) as Hcs; [|nra].
  rewrite <-sqrt_mult by done.
  set (d := (dist2 a p - dist2 a b - dist2 b p) / 2).
  destruct (Rle_dec d 0) as [Hd|Hd].
  { etrans; [exact Hd|apply sqrt_pos]. }
  rewrite <-(sqrt_square d) by lra. apply sqrt_le_1_alt.
  subst d. clear. destruct a as [[xa ya] za], b as [[xb yb] zb],
    p as [[xp yp] zp]. simpl.
  set (u1 := xa - xb). set (u2 := ya - yb). set (u3 := za - zb).
  set (v1 := xb - xp). set (v2 := yb - yp). set (v3 := zb - zp).
  replace (xa - xp) with (u1 + v1) by (subst u1 v1; ring).
  replace (ya - yp) with (u2 + v2) by (subst u2 v2; ring).
  replace (za - zp) with (u3 + v3) by (subst u3 v3; ring).
  pose proof (Rle_0_sqr (u1 * v2 - u2 * v1)).
  pose proof (Rle_0_sqr (u1 * v3 - u3 * v1)).
  pose proof (Rle_0_sqr (u2 * v3 - u3 * v2)).
  unfold Rsqr in *. nra.
Qed.

Lemma dist2_sym (a b : R * R * R) : dist2 a b = dist2 b a.
Proof. destruct a as [[xa ya] za], b as [[xb yb] zb]. simpl. ring. Qed.

(** The confocal coordinate of a point lies in [[-1,1]]. *)
Lemma mu_range (a b p : R * R * R) :
  sqrt (dist2 a b) ≠ 0 →
  -1 <= (sqrt (dist2 a p) - sqrt (dist2 b p)) / sqrt (dist2 a b) <= 1.
Proof.
  intros Hne. pose proof (sqrt_pos (dist2 a b)) as Hpos.
  assert (0 < sqrt (dist2 a b)) as Hlt by lra.
  pose proof (distance_triangle a b p) as H1.
  pose proof (distance_triangle b a p) as H2.
  rewrite (dist2_sym b a) in H2.
  set (q := (sqrt (dist2 a p) - sqrt (dist2 b p)) / sqrt (dist2 a b)).
  assert (sqrt (dist2 a p) - sqrt (dist2 b p) = q * sqrt (dist2 a b)) as Hq
    by (subst q; field; lra).
  split; nra.
Qed.

(** The heteronuclear shift keeps the coordinate in [[-1,1]]. *)
Lemma hetero_shift_range (mu a : R) :
  -1 <= mu <= 1 → -0.5 <= a <= 0.5 → -1 <= mu + a * (1 - mu * mu) <= 1.
Proof.
  intros Hmu Ha.
  assert (a * (1 + mu) <= 1) by nra.
  assert (- a * (1 - mu) <= 1) by nra.
  assert (0 <= (1 - mu) * (1 - a * (1 + mu))) by (apply Rmult_le_pos; lra).
  assert (0 <= (1 + mu) * (1 + a * (1 - mu))) by (apply Rmult_le_pos; lra).
  split; nra.
Qed.

Lemma clamp_range (a : R) : -0.5 <= Rmax (Rmin a 0.5) (-0.5) <= 0.5.
Proof.
  unfold Rmax, Rmin.
  destruct (Rle_dec a 0.5); destruct (Rle_dec _ (-0.5)); lra.
Qed.

Lemma patch_atoms_jat_range (o : opts) (ati atj : Atom) (p : R * R * R)
    (sprod sprod' : R) :
  patch_atoms_jat o ati atj p (sqrt (dist2 (pos ati) p)) sprod = Ok sprod' →
  ∃ s, 0 <= s <= 1 ∧ sprod' = sprod * s.
Proof.
  unfold patch_atoms_jat, fdiv.
  destruct (Req_dec_T (sqrt (dist2 (pos ati) (pos atj))) 0) as [|Hne];
    [done|].
  cbn [mbind result_bind].
  pose proof (mu_range (pos ati) (pos atj) p Hne) as Hmu.
  set (mu := (sqrt (dist2 (pos ati) p) - sqrt (dist2 (pos atj) p))
             / sqrt (dist2 (pos ati) (pos atj))) in *.
  destruct (do_becke_hetero o && negb (atno ati =? atno atj)%Z).
  - unfold Bragg_item.
    destruct (Bragg (atno ati)) as [bi|]; [|done].
    destruct (Bragg (atno atj)) as [bj|]; [|done].
    cbn [mbind result_bind].
    destruct (Req_dec_T bj 0); [done|]. cbn [mbind result_bind].
    destruct (Req_dec_T (bi / bj + 1) 0); [done|]. cbn [mbind result_bind].
    set (u := (bi / bj - 1) / (bi / bj + 1)).
    destruct (Req_dec_T (u * u - 1) 0); [done|]. cbn [mbind result_bind].
    intros [= <-]. eexists. split; [|done].
    apply sbecke_range, hetero_shift_range; [done|apply clamp_range].
  - cbn [mbind result_bind]. intros [= <-]. eexists. split; [|done].
    by apply sbecke_range.
Qed.

Lemma for_each_invariant_in {S} (P : S → Prop) (body : nat → S → result S)
    (ixs : list nat) (s s' : S) :
  (∀ i s s', i ∈ ixs → P s → body i s = Ok s' → P s') →
  P s → for_each body ixs s = Ok s' → P s'.
Proof.
  revert s. induction ixs as [|i ixs IH]; intros s Hinv Hs; simpl.
  - by intros [= <-].
  - destruct (body i s) as [s1|] eqn:Hb; [|done]. simpl.
    apply IH; [|by eapply Hinv; [left|..]].
    intros j t t' Hj. apply Hinv. by right.
Qed.

Lemma patch_atoms_sprod_range (o : opts) (atoms : list Atom) (iat : nat)
    (ati : Atom) (p : R * R * R) (sprod : R) :
  patch_atoms_sprod o atoms iat ati p (sqrt (dist2 (pos ati) p)) = Ok sprod →
  0 <= sprod <= 1.
Proof.
  unfold patch_atoms_sprod.
  apply (for_each_invariant_in (λ s, 0 <= s <= 1)); [|lra].
  intros jat s s' _ Hs.
  destruct (jat =? iat)%nat; [by intros [= <-]|].
  destruct (getitem atoms jat) as [atj|]; [|done]. simpl.
  intros (f & Hf & ->)%patch_atoms_jat_range. nra.
Qed.

(** X3. Every Becke factor lies in [[0,1]]: the confocal coordinate of a grid
    point is in [[-1,1]] by the triangle inequality, the heteronuclear shift
    keeps it there, and the smoothing function maps it into [[0,1]].  So
    patching multiplies every weight by a product in [[0,1]]: a weight that
    was not negative stays between zero and its value before the patching. *)
Theorem patch_atoms_attenuates (o : opts) (atoms : list Atom)
    (grids grids' : list AtomicGrid) :
  patch_atoms o atoms grids = Ok grids' →
  ∀ iat ati grid,
    atoms !! iat = Some ati → grids !! iat = Some grid →
    ∃ grid',
      grids' !! iat = Some grid' ∧
      Forall2 (λ p p', ∃ sprod, 0 <= sprod <= 1 ∧ _w p' = _w p * sprod ∧
                        (0 <= _w p → 0 <= _w p' <= _w p))
        grid grid'.
Proof.
  intros Hpatch iat ati grid Hati Hg.
  destruct (patch_atoms_patches _ _ _ _ Hpatch) as [_ Hall].
  destruct (Hall iat ati grid Hati Hg) as (grid' & Hg' & HF).
  exists grid'. split; [done|]. eapply Forall2_impl; [done|].
  intros p p' (sprod & Hs%patch_atoms_sprod_range & ->).
  exists sprod. split; [done|]. split; [done|]. simpl. intros Hw. nra.
Qed.

(** *** Two atoms share every point *)

Lemma pbecke_odd (x : R) : pbecke (- x) = - pbecke x.
Proof. unfold pbecke. simpl. ring. Qed.

Lemma fbecke_odd (n : nat) (x : R) : fbecke (- x) n = - fbecke x n.
Proof.
  revert x. induction n as [|n IH]; intros x; [done|].
  simpl. by rewrite pbecke_odd, IH.
Qed.

Lemma sbecke_opp (n : nat) (x : R) : sbecke (- x) n = 1 - sbecke x n.
Proof. unfold sbecke. rewrite fbecke_odd. lra. Qed.

Lemma clamp_opp (a : R) :
  Rmax (Rmin (- a) 0.5) (-0.5) = - Rmax (Rmin a 0.5) (-0.5).
Proof.
  unfold Rmax, Rmin.
  destruct (Rle_dec (- a) 0.5), (Rle_dec a 0.5);
    repeat match goal with |- context [Rle_dec ?x ?y] =>
             destruct (Rle_dec x y) end; lra.
Qed.

(** The factor of atom [j] seen from atom [i] and the factor of atom [i] seen
    from atom [j] add up to one, at every point. *)
Lemma patch_atoms_jat_complement (o : opts) (ai aj : Atom) (p : R * R * R)
    (si sj : R) :
  patch_atoms_jat o ai aj p (sqrt (dist2 (pos ai) p)) 1 = Ok si →
  patch_atoms_jat o aj ai p (sqrt (dist2 (pos aj) p)) 1 = Ok sj →
  si + sj = 1.
Proof.
  unfold patch_atoms_jat, fdiv. rewrite (dist2_sym (pos aj) (pos ai)).
  destruct (Req_dec_T (sqrt (dist2 (pos ai) (pos aj))) 0) as [|Hne];
    [done|].
  cbn [mbind result_bind].
  set (ri := sqrt (dist2 (pos ai) p)). set (rj := sqrt (dist2 (pos aj) p)).
  set (rij := sqrt (dist2 (pos ai) (pos aj))) in *.
  assert ((rj - ri) / rij = - ((ri - rj) / rij)) as -> by (field; done).
  set (mu := (ri - rj) / rij).
  rewrite (Z.eqb_sym (atno aj) (atno ai)).
  destruct (do_becke_hetero o && negb (atno ai =? atno aj)%Z).
  - unfold Bragg_item.
    destruct (Bragg (atno ai)) as [bi|]; [|done].
    destruct (Bragg (atno aj)) as [bj|]; [|done].
    cbn [mbind result_bind].
    destruct (Req_dec_T bj 0) as [|Hbj]; [done|]. cbn [mbind result_bind].
    destruct (Req_dec_T bi 0) as [|Hbi]; [done|]. cbn [mbind result_bind].
    destruct (Req_dec_T (bi / bj + 1) 0) as [|Hc]; [done|].
    cbn [mbind result_bind].
    destruct (Req_dec_T (bj / bi + 1) 0) as [|Hc']; [done|].
    cbn [mbind result_bind].
    assert (bi / bj ≠ 0) as Hchi.
    { unfold Rdiv. apply Rmult_integral_contrapositive_currified; [done|].
      by apply Rinv_neq_0_compat. }
    assert (bj / bi = / (bi / bj)) as Hinv by (field; done).
    rewrite Hinv in *. set (chi := bi / bj) in *.
    set (u := (chi - 1) / (chi + 1)).
    assert ((/ chi - 1) / (/ chi + 1) = - u) as Hu by (subst u; field; done).
    rewrite Hu.
    destruct (Req_dec_T (u * u - 1) 0) as [|Hu1]; [done|].
    cbn [mbind result_bind].
    destruct (Req_dec_T (- u * - u - 1) 0) as [|Hu2]; [done|].
    cbn [mbind result_bind].
    assert (- u / (- u * - u - 1) = - (u / (u * u - 1))) as ->
      by (field; done).
    rewrite clamp_opp. intros [= <-] [= <-].
    set (a := Rmax (Rmin (u / (u * u - 1)) 0.5) (-0.5)).
    replace (- mu + - a * (1 - - mu * - mu))
      with (- (mu + a * (1 - mu * mu))) by ring.
    rewrite sbecke_opp. lra.
  - cbn [mbind result_bind]. intros [= <-] [= <-].
    rewrite sbecke_opp. lra.
Qed.

(** X4. In a molecule of two atoms the two cell factors of a point add up to
    one, with or without the heteronuclear correction: at every point of space
    the factor that multiplies the weight of a point of the first atom and the
    factor for a point of the second atom at the same position form a
    partition of unity. *)
Theorem diatomic_partition_of_unity (o : opts) (a1 a2 : Atom)
    (p : R * R * R) (s1 s2 : R) :
  patch_atoms_sprod o [a1; a2] 0 a1 p (sqrt (dist2 (pos a1) p)) = Ok s1 →
  patch_atoms_sprod o [a1; a2] 1 a2 p (sqrt (dist2 (pos a2) p)) = Ok s2 →
  s1 + s2 = 1.
Proof.
  unfold patch_atoms_sprod.
  cbn [length range seq for_each Nat.eqb getitem lookup list_lookup mbind
       result_bind].
  intros H1 H2.
  destruct (patch_atoms_jat o a1 a2 p _ 1) as [t1|] eqn:Ht1; [|done].
  destruct (patch_atoms_jat o a2 a1 p _ 1) as [t2|] eqn:Ht2; [|done].
  simpl in H1, H2. simplify_eq.
  by eapply patch_atoms_jat_complement.
Qed.

(** *** The number of points *)

(** X5. [len(grid)] is the number of points that [points()] returns, the sum
    of the numbers of points of the atomic grids; it is stored in [_length]
    and the atomic grids are left as they are. *)
Theorem len_counts_points (g : MolecularGrid) :
  (__len__ g).1 = length (points g) ∧
  (__len__ g).1 = sum_list (length <$> atomgrids g) ∧
  _length (__len__ g).2 = Some (length (points g)) ∧
  atomgrids (__len__ g).2 = atomgrids g.
Proof.
  assert (∀ (l : list AtomicGrid) n,
            foldl (λ n agr, (n + length agr)%nat) n l
            = (n + length (concat l))%nat) as Hfold.
  { induction l as [|agr l IH]; intros n; simpl; [lia|].
    rewrite IH, length_app. lia. }
  assert ((__len__ g).1 = length (points g)) as Hlen.
  { unfold __len__, points. simpl. by rewrite Hfold. }
  split; [done|]. split.
  { rewrite Hlen. unfold points. generalize (atomgrids g).
    induction l as [|agr l IH]; simpl; [done|]. rewrite length_app.
    f_equal. exact IH. }
  split; [by rewrite <-Hlen|done].
Qed.

End patch_atoms_extra.

Section patch_atoms_extra_examples.
Import MolecularGrid Props Examples.

(** The hydrogen molecule with two points per atom is patched without an
    exception: its atoms are at different positions. *)
Lemma patch_atoms_h2 :
  ∃ grids', patch_atoms default_opts h2
              (make_atom_grids h2 2 1 default_opts) = Ok grids'.
Proof.
  destruct (patch_atoms default_opts h2 _) as [grids'|e] eqn:Hp;
    [by eexists|].
  assert (raises (patch_atoms default_opts h2
                    (make_atom_grids h2 2 1 default_opts))) as Hr
    by (rewrite Hp; apply raises_Raise).
  apply patch_atoms_raises_iff in Hr; [|done..].
  destruct Hr as (i & j & ai & aj & grid & Hi & Hj & Hne & Hpos & _).
  destruct i as [|[|i]], j as [|[|j]]; simplify_eq/=; lra.
Qed.

Lemma patch_atoms_scales_weights_witness :
  ∃ grids',
    patch_atoms default_opts h2 (make_atom_grids h2 2 1 default_opts)
      = Ok grids' ∧
    length grids' = 2%nat.
Proof.
  destruct patch_atoms_h2 as [grids' Hp]. exists grids'. split; [exact Hp|].
  destruct (patch_atoms_scales_weights default_opts h2
              (make_atom_grids h2 2 1 default_opts) grids' Hp) as [Hlen _].
  exact Hlen.
Defined.

Lemma init_raises_iff_coincident_witness :
  raises (__init__ h2_coincident 1 1 default_opts) ↔
  ∃ i j ai aj,
    h2_coincident !! i = Some ai ∧ h2_coincident !! j = Some aj ∧ i ≠ j ∧
    pos ai = pos aj ∧ AtomicGrid_new ai 1 1 default_opts ≠ [].
Proof.
  apply (init_raises_iff_coincident h2_coincident 1 1 default_opts).
  reflexivity.
Defined.

Lemma patch_atoms_attenuates_witness :
  ∃ grids' grid',
    patch_atoms default_opts h2 (make_atom_grids h2 2 1 default_opts)
      = Ok grids' ∧
    grids' !! 0%nat = Some grid' ∧
    Forall2 (λ p p', ∃ sprod, 0 <= sprod <= 1 ∧ _w p' = _w p * sprod ∧
                      (0 <= _w p → 0 <= _w p' <= _w p))
      (ray_grid (mkAtom 1 (0, 0, 0.7)) 2) grid'.
Proof.
  destruct patch_atoms_h2 as [grids' Hp].
  destruct (patch_atoms_attenuates default_opts h2
              (make_atom_grids h2 2 1 default_opts) grids' Hp
              0%nat (mkAtom 1 (0, 0, 0.7)) (ray_grid (mkAtom 1 (0, 0, 0.7)) 2))
    as (grid' & Hg' & HF).
  - reflexivity.
  - reflexivity.
  - exists grids', grid'. split; [exact Hp|]. split; [exact Hg'|exact HF].
Defined.

Lemma patch_atoms_sprod_h2_midplane (iat : nat) (ai : Atom) :
  h2 !! iat = Some ai →
  patch_atoms_sprod default_opts h2 iat ai (1, 0, 0)
    (sqrt (dist2 (pos ai) (1, 0, 0))) = Ok 0.5.
Proof.
  intros Hi.
  destruct iat as [|[|iat]];
    [injection Hi as <- | injection Hi as <- | discriminate Hi];
    unfold patch_atoms_sprod, h2;
    cbn [length range seq for_each Nat.eqb getitem lookup list_lookup mbind
         result_bind].
  - rewrite (patch_atoms_sprod_midplane default_opts _ _ h2 0 1); try done.
    + simpl. intros [= Hz]. lra.
    + simpl. lra.
  - rewrite (patch_atoms_sprod_midplane default_opts _ _ h2 1 0); try done.
    + simpl. intros [= Hz]. lra.
    + simpl. lra.
Qed.

Lemma diatomic_partition_of_unity_witness :
  patch_atoms_sprod default_opts h2 0 (mkAtom 1 (0, 0, 0.7)) (1, 0, 0)
    (sqrt (dist2 (0, 0, 0.7) (1, 0, 0))) = Ok 0.5 ∧
  patch_atoms_sprod default_opts h2 1 (mkAtom 1 (0, 0, -0.7)) (1, 0, 0)
    (sqrt (dist2 (0, 0, -0.7) (1, 0, 0))) = Ok 0.5 ∧
  0.5 + 0.5 = 1.
Proof.
  pose proof (patch_atoms_sprod_h2_midplane 0 _ eq_refl) as H1.
  pose proof (patch_atoms_sprod_h2_midplane 1 _ eq_refl) as H2.
  split; [exact H1|]. split; [exact H2|].
  exact (diatomic_partition_of_unity default_opts
           (mkAtom 1 (0, 0, 0.7)) (mkAtom 1 (0, 0, -0.7)) (1, 0, 0)
           0.5 0.5 H1 H2).
Defined.

End patch_atoms_extra_examples.

(** ** NumWrap: the algebra of square arrays *)

Section sums.
Import NumWrap Props.

Lemma sum_to_0 (f : nat → R) : sum_to 0 f = 0.
Proof. done. Qed.

Lemma sum_to_S (n : nat) (f : nat → R) : sum_to (S n) f = sum_to n f + f n.
Proof.
  unfold sum_to. rewrite seq_S, fmap_app, py_sum_app. simpl.
  rewrite py_sum_cons, py_sum_nil. lra.
Qed.

Lemma sum_to_ext (n : nat) (f g : nat → R) :
  (∀ k, (k < n)%nat → f k = g k) → sum_to n f = sum_to n g.
Proof.
  induction n as [|n IH]; intros Hfg; [done|].
  rewrite !sum_to_S, IH, Hfg by (intros; try apply Hfg; lia). done.
Qed.

Lemma sum_to_plus (n : nat) (f g : nat → R) :
  sum_to n (λ k, f k + g k) = sum_to n f + sum_to n g.
Proof.
  induction n as [|n IH]; [rewrite !sum_to_0; lra|].
  rewrite !sum_to_S, IH. lra.
Qed.

Lemma sum_to_minus (n : nat) (f g : nat → R) :
  sum_to n (λ k, f k - g k) = sum_to n f - sum_to n g.
Proof.
  induction n as [|n IH]; [rewrite !sum_to_0; lra|].
  rewrite !sum_to_S, IH. lra.
Qed.

Lemma sum_to_scal_l (n : nat) (c : R) (f : nat → R) :
  sum_to n (λ k, c * f k) = c * sum_to n f.
Proof.
  induction n as [|n IH]; [rewrite !sum_to_0; lra|].
  rewrite !sum_to_S, IH. lra.
Qed.

Lemma sum_to_scal_r (n : nat) (c : R) (f : nat → R) :
  sum_to n (λ k, f k * c) = sum_to n f * c.
Proof.
  induction n as [|n IH]; [rewrite !sum_to_0; lra|].
  rewrite !sum_to_S, IH. lra.
Qed.

Lemma sum_to_zero (n : nat) : sum_to n (λ _, 0) = 0.
Proof.
  induction n as [|n IH]; [done|]. rewrite sum_to_S, IH. lra.
Qed.

Lemma sum_to_const (n : nat) (c : R) : sum_to n (λ _, c) = INR n * c.
Proof.
  induction n as [|n IH]; [rewrite sum_to_0; simpl; lra|].
  rewrite sum_to_S, IH, S_INR. lra.
Qed.

Lemma sum_to_le (n : nat) (f g : nat → R) :
  (∀ k, (k < n)%nat → f k <= g k) → sum_to n f <= sum_to n g.
Proof.
  induction n as [|n IH]; intros Hfg; [rewrite !sum_to_0; lra|].
  rewrite !sum_to_S. pose proof (Hfg n ltac:(lia)).
  assert (sum_to n f <= sum_to n g) by (apply IH; intros; apply Hfg; lia).
  lra.
Qed.

Lemma sum_to_swap (n m : nat) (f : nat → nat → R) :
  sum_to n (λ i, sum_to m (λ j, f i j)) =
  sum_to m (λ j, sum_to n (λ i, f i j)).
Proof.
  induction n as [|n IH].
  - rewrite sum_to_0. symmetry. rewrite <-(sum_to_zero m).
    apply sum_to_ext. intros. by rewrite sum_to_0.
  - rewrite sum_to_S, IH, <-sum_to_plus. apply sum_to_ext.
    intros j _. by rewrite sum_to_S.
Qed.

Lemma sum_to_delta_l (n i : nat) (f : nat → R) :
  (i < n)%nat →
  sum_to n (λ k, (if Nat.eqb i k then 1 else 0) * f k) = f i.
Proof.
  induction n as [|n IH]; intros Hi; [lia|].
  rewrite sum_to_S. destruct (decide (i = n)) as [->|Hne].
  - rewrite Nat.eqb_refl.
    rewrite (sum_to_ext n _ (λ _, 0)), sum_to_zero; [lra|].
    intros k Hk.
    assert ((n =? k)%nat = false) as -> by (apply Nat.eqb_neq; lia). lra.
  - rewrite IH by lia.
    assert ((i =? n)%nat = false) as -> by (by apply Nat.eqb_neq). lra.
Qed.

Lemma sum_to_delta_r (n j : nat) (f : nat → R) :
  (j < n)%nat →
  sum_to n (λ k, f k * (if Nat.eqb k j then 1 else 0)) = f j.
Proof.
  intros Hj. rewrite <-(sum_to_delta_l n j f Hj). apply sum_to_ext.
  intros k _. rewrite (Nat.eqb_sym k j). lra.
Qed.

End sums.

Section matrix_algebra.
Import NumWrap dmm Props.

(** The entries of a product. *)
Lemma ent_mmul (n : nat) (A B : matrix) (i j : nat) :
  rect n n A → rect n n B → (i < n)%nat → (j < n)%nat →
  ent (mmul A B) i j = sum_to n (λ k, ent A i k * ent B k j).
Proof.
  intros HA HB Hi Hj.
  destruct (rect_ent_lookup n n A i j HA Hi Hj) as (r & Hr & _).
  pose proof (rect_row _ _ _ _ _ HA Hr) as Hlr.
  unfold ent at 1, mmul. rewrite list_lookup_fmap, Hr. simpl.
  rewrite list_lookup_fmap, (rect_ncols_square n B HB), lookup_seq_lt by done.
  simpl. unfold dot, sum_to. f_equal. apply list_eq. intros k.
  rewrite lookup_zip_with, !list_lookup_fmap.
  destruct (decide (k < n)%nat) as [Hk|Hk].
  - destruct (rect_ent_lookup n n A i k HA Hi Hk) as (r' & Hr' & Hx).
    destruct (rect_ent_lookup n n B k j HB Hk Hj) as (s & Hs & Hy).
    simplify_eq. rewrite Hx, lookup_seq_lt by done. simpl.
    unfold column. rewrite list_lookup_fmap, Hs. simpl. by rewrite Hy.
  - rewrite (lookup_ge_None_2 r) by lia.
    rewrite (lookup_ge_None_2 (seq 0 n)) by (rewrite length_seq; lia). done.
Qed.

Lemma diagonal_from_rect (n : nat) (A : matrix) (k : nat) :
  Forall (λ r : vector, length r = n) A → (k + length A <= n)%nat →
  diagonal_from k A =
    (λ t, default 0 (A !! t ≫= (.!! (k + t)%nat))) <$> seq 0 (length A).
Proof.
  revert k. induction A as [|r A IH]; intros k HA Hk; [done|].
  apply Forall_cons in HA as [Hr HA]. simpl in *.
  destruct (lookup_lt_is_Some_2 r k) as [x Hx]; [lia|].
  rewrite Hx, Nat.add_0_r, Hx. simpl. f_equal.
  rewrite IH by (done || lia). rewrite <-fmap_S_seq, <-list_fmap_compose.
  apply list_fmap_ext. intros _ t _. simpl. by rewrite Nat.add_succ_r.
Qed.

(** The trace is the sum of the diagonal entries. *)
Lemma trace_sum (n : nat) (A : matrix) :
  rect n n A → trace A = sum_to n (λ i, ent A i i).
Proof.
  intros [Hlen HA]. unfold trace, diagonal, sum_to.
  rewrite (diagonal_from_rect n) by (done || lia). by rewrite Hlen.
Qed.

Lemma trace_mplus (n : nat) (A B : matrix) :
  rect n n A → rect n n B → trace (mplus A B) = trace A + trace B.
Proof.
  intros HA HB. rewrite !(trace_sum n) by rect. rewrite <-sum_to_plus.
  apply sum_to_ext. intros i Hi. by apply (ent_mplus n n).
Qed.

Lemma trace_mminus (n : nat) (A B : matrix) :
  rect n n A → rect n n B → trace (mminus A B) = trace A - trace B.
Proof.
  intros HA HB. rewrite !(trace_sum n) by rect. rewrite <-sum_to_minus.
  apply sum_to_ext. intros i Hi. by apply (ent_mminus n n).
Qed.

Lemma trace_scal (n : nat) (c : R) (A : matrix) :
  rect n n A → trace (scal c A) = c * trace A.
Proof.
  intros HA. rewrite !(trace_sum n) by rect. rewrite <-sum_to_scal_l.
  apply sum_to_ext. intros i Hi. by apply (ent_scal c n n).
Qed.

Lemma trace_identity (n : nat) : trace (identity n) = INR n.
Proof.
  rewrite (trace_sum n) by rect.
  rewrite (sum_to_ext n _ (λ _, 1)), sum_to_const; [lra|].
  intros i Hi. by rewrite ent_identity, Nat.eqb_refl.
Qed.

(** The ring laws of the product on square arrays of one size. *)
Lemma mmul_assoc (n : nat) (A B C : matrix) :
  rect n n A → rect n n B → rect n n C →
  mmul A (mmul B C) = mmul (mmul A B) C.
Proof.
  intros HA HB HC. apply (rect_ext n n); [rect|rect|]. intros i j Hi Hj.
  rewrite !(ent_mmul n) by rect.
  rewrite (sum_to_ext n _ (λ k, sum_to n (λ l,
             ent A i k * ent B k l * ent C l j))).
  2:{ intros k Hk. rewrite (ent_mmul n) by rect.
      rewrite <-sum_to_scal_l. apply sum_to_ext. intros; lra. }
  rewrite sum_to_swap. apply sum_to_ext. intros l Hl.
  rewrite (ent_mmul n) by rect. by rewrite sum_to_scal_r.
Qed.

Lemma mmul_identity_r (n : nat) (A : matrix) :
  rect n n A → mmul A (identity n) = A.
Proof.
  intros HA. apply (rect_ext n n); [rect|rect|]. intros i j Hi Hj.
  rewrite (ent_mmul n) by rect.
  rewrite (sum_to_ext n _ (λ k, ent A i k * (if Nat.eqb k j then 1 else 0))).
  - by rewrite sum_to_delta_r.
  - intros k Hk. by rewrite ent_identity.
Qed.

Lemma mmul_identity_l (n : nat) (A : matrix) :
  rect n n A → mmul (identity n) A = A.
Proof.
  intros HA. apply (rect_ext n n); [rect|rect|]. intros i j Hi Hj.
  rewrite (ent_mmul n) by rect.
  rewrite (sum_to_ext n _ (λ k, (if Nat.eqb i k then 1 else 0) * ent A k j)).
  - by rewrite sum_to_delta_l.
  - intros k Hk. by rewrite ent_identity.
Qed.

Lemma mmul_mminus_r (n : nat) (A B C : matrix) :
  rect n n A → rect n n B → rect n n C →
  mmul A (mminus B C) = mminus (mmul A B) (mmul A C).
Proof.
  intros HA HB HC. apply (rect_ext n n); [rect|rect|]. intros i j Hi Hj.
  rewrite (ent_mminus n n), !(ent_mmul n) by rect.
  rewrite <-sum_to_minus. apply sum_to_ext. intros k Hk.
  rewrite (ent_mminus n n) by rect. lra.
Qed.

Lemma mmul_mminus_l (n : nat) (A B C : matrix) :
  rect n n A → rect n n B → rect n n C →
  mmul (mminus A B) C = mminus (mmul A C) (mmul B C).
Proof.
  intros HA HB HC. apply (rect_ext n n); [rect|rect|]. intros i j Hi Hj.
  rewrite (ent_mminus n n), !(ent_mmul n) by rect.
  rewrite <-sum_to_minus. apply sum_to_ext. intros k Hk.
  rewrite (ent_mminus n n) by rect. lra.
Qed.

Lemma mmul_scal_r (n : nat) (c : R) (A B : matrix) :
  rect n n A → rect n n B → mmul A (scal c B) = scal c (mmul A B).
Proof.
  intros HA HB. apply (rect_ext n n); [rect|rect|]. intros i j Hi Hj.
  rewrite (ent_scal c n n), !(ent_mmul n) by rect.
  rewrite <-sum_to_scal_l. apply sum_to_ext. intros k Hk.
  rewrite (ent_scal c n n) by rect. lra.
Qed.

Lemma mmul_scal_l (n : nat) (c : R) (A B : matrix) :
  rect n n A → rect n n B → mmul (scal c A) B = scal c (mmul A B).
Proof.
  intros HA HB. apply (rect_ext n n); [rect|rect|]. intros i j Hi Hj.
  rewrite (ent_scal c n n), !(ent_mmul n) by rect.
  rewrite <-sum_to_scal_l. apply sum_to_ext. intros k Hk.
  rewrite (ent_scal c n n) by rect. lra.
Qed.

Lemma mminus_diag (n : nat) (A : matrix) :
  rect n n A → mminus A A = mat_of n n (λ _ _, 0).
Proof.
  intros HA. apply (rect_ext n n); [rect|rect|]. intros i j Hi Hj.
  rewrite (ent_mminus n n), ent_mat_of by rect. lra.
Qed.

Lemma mmul_zero_l (n : nat) (A : matrix) :
  rect n n A → mmul (mat_of n n (λ _ _, 0)) A = mat_of n n (λ _ _, 0).
Proof.
  intros HA. apply (rect_ext n n); [rect|rect|]. intros i j Hi Hj.
  rewrite (ent_mmul n), ent_mat_of by rect.
  rewrite (sum_to_ext n _ (λ _, 0)), sum_to_zero; [done|].
  intros k Hk. rewrite ent_mat_of by done. lra.
Qed.

Lemma trace_zero (n : nat) : trace (mat_of n n (λ _ _, 0)) = 0.
Proof.
  rewrite (trace_sum n) by rect.
  rewrite (sum_to_ext n _ (λ _, 0)), sum_to_zero; [done|].
  intros k Hk. by rewrite ent_mat_of.
Qed.

(** The product of two symmetric arrays, transposed, is the product in the
    other order. *)
Lemma ent_mmul_symmetric (n : nat) (A B : matrix) (i j : nat) :
  rect n n A → rect n n B → symmetric n A → symmetric n B →
  (i < n)%nat → (j < n)%nat → ent (mmul A B) i j = ent (mmul B A) j i.
Proof.
  intros HA HB HsA HsB Hi Hj. rewrite !(ent_mmul n) by rect.
  apply sum_to_ext. intros k Hk. rewrite (HsA i k), (HsB k j) by done. lra.
Qed.

Lemma mmul_mplus_r (n : nat) (A B C : matrix) :
  rect n n A → rect n n B → rect n n C →
  mmul A (mplus B C) = mplus (mmul A B) (mmul A C).
Proof.
  intros HA HB HC. apply (rect_ext n n); [rect|rect|]. intros i j Hi Hj.
  rewrite (ent_mplus n n), !(ent_mmul n) by rect.
  rewrite <-sum_to_plus. apply sum_to_ext. intros k Hk.
  rewrite (ent_mplus n n) by rect. lra.
Qed.

Lemma mmul_mplus_l (n : nat) (A B C : matrix) :
  rect n n A → rect n n B → rect n n C →
  mmul (mplus A B) C = mplus (mmul A C) (mmul B C).
Proof.
  intros HA HB HC. apply (rect_ext n n); [rect|rect|]. intros i j Hi Hj.
  rewrite (ent_mplus n n), !(ent_mmul n) by rect.
  rewrite <-sum_to_plus. apply sum_to_ext. intros k Hk.
  rewrite (ent_mplus n n) by rect. lra.
Qed.

(** Division by a scalar is multiplication by its inverse. *)
Lemma mdiv_scal (n : nat) (A : matrix) (c : R) :
  rect n n A → mdiv A c = scal (/ c) A.
Proof.
  intros HA. apply (rect_ext n n); [rect|rect|]. intros i j Hi Hj.
  rewrite (ent_mdiv c n n), (ent_scal _ n n) by rect. unfold Rdiv. ring.
Qed.

End matrix_algebra.

(** ** dmm: the Gershgorin bounds and the initial density matrix *)

Section dmm_extra.
Import NumWrap dmm Spec Props.

Lemma py_sum_nonneg (l : list R) : Forall (λ x, 0 <= x) l → 0 <= py_sum l.
Proof.
  induction 1 as [|x l Hx _ IH]; [rewrite py_sum_nil; lra|].
  rewrite py_sum_cons. lra.
Qed.

Lemma py_sum_zero (l : list R) :
  Forall (λ x, 0 <= x) l → py_sum l = 0 → Forall (λ x, x = 0) l.
Proof.
  induction 1 as [|x l Hx Hl IH]; [done|].
  rewrite py_sum_cons. intros Hs. pose proof (py_sum_nonneg l Hl).
  constructor; [lra|]. apply IH. lra.
Qed.

Lemma Forall_Rabs_nonneg (l : list R) : Forall (λ x, 0 <= x) (Rabs <$> l).
Proof. apply Forall_fmap, Forall_forall. intros x _. apply Rabs_pos. Qed.

Lemma offdiag_nonneg (A : matrix) (i : nat) : 0 <= offdiag_abs_sum A i.
Proof. apply py_sum_nonneg, Forall_Rabs_nonneg. Qed.

(** The off-diagonal sum of a row vanishes exactly when the row has no
    off-diagonal entry. *)
Lemma offdiag_zero_iff (n : nat) (A : matrix) (i : nat) :
  rect n n A → (i < n)%nat →
  offdiag_abs_sum A i = 0 ↔
  ∀ j, (j < n)%nat → j ≠ i → ent A i j = 0.
Proof.
  intros HA Hi.
  destruct (rect_ent_lookup n n A i i HA Hi Hi) as (r & Hr & _).
  pose proof (rect_row _ _ _ _ _ HA Hr) as Hlr.
  unfold offdiag_abs_sum. rewrite Hr. simpl. split.
  - intros Hz%py_sum_zero; [|apply Forall_Rabs_nonneg].
    intros j Hj Hne. rewrite (ent_row _ _ _ _ Hr).
    destruct (lookup_lt_is_Some_2 r j) as [x Hx]; [lia|]. rewrite Hx. simpl.
    rewrite Forall_fmap, Forall_lookup in Hz.
    assert (Rabs x = 0) as Habs.
    { destruct (decide (j < i)%nat).
      - apply (Hz j). by rewrite list_lookup_delete_lt.
      - destruct j as [|j]; [lia|]. apply (Hz j).
        rewrite list_lookup_delete_ge by lia. done. }
    destruct (Req_dec_T x 0) as [|Hx0]; [done|].
    by apply Rabs_no_R0 in Hx0.
  - intros Hz. rewrite (Forall_fmap_ext_1 Rabs (λ _, 0)).
    + generalize (delete i r). induction l as [|x l IH]; [done|].
      rewrite fmap_cons, py_sum_cons, IH. lra.
    + apply Forall_lookup. intros k x Hk.
      assert (∃ j, (j < n)%nat ∧ j ≠ i ∧ r !! j = Some x) as (j & Hj & Hne & Hx).
      { rewrite list_lookup_delete in Hk. destruct (decide (k < i)%nat).
        - exists k. split; [lia|]. split; [lia|done].
        - exists (S k). apply lookup_lt_Some in Hk as Hlt.
          split; [lia|]. split; [lia|done]. }
      specialize (Hz j Hj Hne). rewrite (ent_row _ _ _ _ Hr), Hx in Hz.
      simpl in Hz. subst x. apply Rabs_R0.
Qed.

Lemma gershgorin_lower_elem (n : nat) (A : matrix) (i : nat) :
  rect n n A → (i < n)%nat →
  ent A i i - offdiag_abs_sum A i ∈ gershgorin_lower A.
Proof.
  intros [Hlen _] Hi. unfold gershgorin_lower.
  apply list_elem_of_fmap. exists i. split; [done|].
  apply elem_of_seq. lia.
Qed.

Lemma gershgorin_upper_elem (n : nat) (A : matrix) (i : nat) :
  rect n n A → (i < n)%nat →
  ent A i i + offdiag_abs_sum A i ∈ gershgorin_upper A.
Proof.
  intros [Hlen _] Hi. unfold gershgorin_upper.
  apply list_elem_of_fmap. exists i. split; [done|].
  apply elem_of_seq. lia.
Qed.

Lemma gershgorin_minmax_Ok (n : nat) (A : matrix) (emin emax : R) :
  rect n n A → gershgorin_minmax A = Ok (emin, emax) →
  (0 < n)%nat ∧ is_min emin (gershgorin_lower A) ∧
  is_max emax (gershgorin_upper A).
Proof.
  intros HA Hg. destruct n as [|n].
  { destruct HA as [Hlen _]. destruct A; [|done].
    by rewrite gershgorin_minmax_empty in Hg. }
  split; [lia|].
  destruct (gershgorin_minmax_square (S n) A) as (e1 & e2 & Hg' & H1 & H2);
    [lia|done|].
  rewrite Hg in Hg'. by injection Hg' as <- <-.
Qed.

Lemma gershgorin_discs (n : nat) (F : matrix) (emin emax : R) :
  rect n n F → gershgorin_minmax F = Ok (emin, emax) →
  ∀ i, (i < n)%nat →
    emin <= ent F i i - offdiag_abs_sum F i ∧
    ent F i i + offdiag_abs_sum F i <= emax.
Proof.
  intros HF Hg i Hi.
  destruct (gershgorin_minmax_Ok n F emin emax HF Hg)
    as (_ & [_ Hmin] & [_ Hmax]).
  split; [by apply Hmin, (gershgorin_lower_elem n)|].
  by apply Hmax, (gershgorin_upper_elem n).
Qed.

(** X6. The bounds that [gershgorin_minmax] returns for a square array
    enclose every Gershgorin disc: for each row [i], the interval of radius
    [Σ_{j≠i}|F_ij|] around [F_ii] lies between [emin] and [emax]; so every
    diagonal entry does, the trace lies between [n*emin] and [n*emax], and
    [emin <= emax]. *)
Theorem gershgorin_minmax_encloses (n : nat) (F : matrix) (emin emax : R) :
  rect n n F → gershgorin_minmax F = Ok (emin, emax) →
  emin <= emax ∧
  (∀ i, (i < n)%nat →
     emin <= ent F i i - offdiag_abs_sum F i ∧
     ent F i i - offdiag_abs_sum F i <= ent F i i ∧
     ent F i i <= ent F i i + offdiag_abs_sum F i ∧
     ent F i i + offdiag_abs_sum F i <= emax) ∧
  INR n * emin <= trace F <= INR n * emax.
Proof.
  intros HF Hg. pose proof (gershgorin_discs n F emin emax HF Hg) as Hd.
  destruct (gershgorin_minmax_Ok n F emin emax HF Hg) as (Hn & _).
  assert (∀ i, (i < n)%nat → emin <= ent F i i <= emax) as Hdiag.
  { intros i Hi. pose proof (Hd i Hi). pose proof (offdiag_nonneg F i). lra. }
  split; [specialize (Hdiag 0%nat Hn); lra|]. split.
  - intros i Hi. pose proof (Hd i Hi). pose proof (offdiag_nonneg F i). lra.
  - rewrite (trace_sum n) by done. rewrite <-!sum_to_const.
    split; apply sum_to_le; intros i Hi; apply Hdiag, Hi.
Qed.

(** The two bounds coincide exactly on the multiples of the identity. *)
Lemma gershgorin_coincide_iff (n : nat) (F : matrix) (emin emax : R) :
  rect n n F → gershgorin_minmax F = Ok (emin, emax) →
  emax = emin ↔ scalar_matrix n F.
Proof.
  intros HF Hg. pose proof (gershgorin_discs n F emin emax HF Hg) as Hd.
  destruct (gershgorin_minmax_Ok n F emin emax HF Hg)
    as (Hn & [Hmin _] & [Hmax _]).
  split.
  - intros ->. exists emin. intros i j Hi Hj.
    pose proof (Hd i Hi). pose proof (offdiag_nonneg F i).
    destruct (Nat.eqb_spec i j) as [->|Hne]; [lra|].
    apply (offdiag_zero_iff n F i HF Hi); [lra|done|lia].
  - intros [c Hc].
    assert (∀ i, (i < n)%nat → offdiag_abs_sum F i = 0) as Hoff.
    { intros i Hi. apply (offdiag_zero_iff n F i HF Hi).
      intros j Hj Hne. rewrite Hc by done.
      destruct (Nat.eqb_spec i j); [by subst|done]. }
    assert (∀ i, (i < n)%nat → ent F i i = c) as Hdiag.
    { intros i Hi. by rewrite Hc, Nat.eqb_refl. }
    pose proof HF as [Hlen _].
    unfold gershgorin_lower in Hmin. unfold gershgorin_upper in Hmax.
    apply list_elem_of_fmap in Hmin as (i & -> & Hi%elem_of_seq).
    apply list_elem_of_fmap in Hmax as (j & -> & Hj%elem_of_seq).
    rewrite !Hoff, !Hdiag by lia. lra.
Qed.

Lemma sum_to_nonneg (n : nat) (f : nat → R) :
  (∀ k, (k < n)%nat → 0 <= f k) → 0 <= sum_to n f.
Proof. intros Hf. rewrite <-(sum_to_zero n). by apply sum_to_le. Qed.

Lemma sum_to_zero_inv (n : nat) (f : nat → R) :
  (∀ k, (k < n)%nat → 0 <= f k) → sum_to n f = 0 →
  ∀ k, (k < n)%nat → f k = 0.
Proof.
  induction n as [|n IH]; intros Hf Hs k Hk; [lia|].
  rewrite sum_to_S in Hs.
  assert (0 <= sum_to n f) by (apply sum_to_nonneg; intros; apply Hf; lia).
  assert (0 <= f n) by (apply Hf; lia).
  destruct (decide (k = n)) as [->|Hne]; [lra|].
  apply IH; [intros; apply Hf; lia|lra|lia].
Qed.

Lemma py_sum_lookup (g : R → R) (l : list R) :
  py_sum (g <$> l) = sum_to (length l) (λ j, g (default 0 (l !! j))).
Proof.
  unfold sum_to. f_equal. apply list_eq. intros k.
  rewrite !list_lookup_fmap. destruct (l !! k) as [x|] eqn:E.
  - rewrite lookup_seq_lt by (by eapply lookup_lt_Some). simpl. by rewrite E.
  - rewrite lookup_seq_ge by (by apply lookup_ge_None). done.
Qed.

(** The off-diagonal sum of a row, entry by entry. *)
Lemma offdiag_sum_to (n : nat) (A : matrix) (i : nat) :
  rect n n A → (i < n)%nat →
  offdiag_abs_sum A i =
    sum_to n (λ j, if Nat.eqb i j then 0 else Rabs (ent A i j)).
Proof.
  intros HA Hi.
  destruct (rect_ent_lookup n n A i i HA Hi Hi) as (r & Hr & Hx).
  pose proof (rect_row _ _ _ _ _ HA Hr) as Hlr.
  unfold offdiag_abs_sum. rewrite Hr. simpl.
  rewrite <-(offsum_delete r i (ent A i i)) by done.
  rewrite py_sum_lookup, Hlr.
  rewrite (sum_to_ext n _ (λ j, (if Nat.eqb i j then 1 else 0) * Rabs (ent A i j)
             + (if Nat.eqb i j then 0 else Rabs (ent A i j)))).
  - rewrite sum_to_plus, (sum_to_delta_l n i (λ j, Rabs (ent A i j))) by done.
    lra.
  - intros j Hj. rewrite (ent_row _ _ _ _ Hr).
    destruct (Nat.eqb i j); lra.
Qed.

Lemma offdiag_scaled (n : nat) (A B : matrix) (i : nat) (c : R) :
  rect n n A → rect n n B → (i < n)%nat →
  (∀ j, (j < n)%nat → j ≠ i → ent B i j = c * ent A i j) →
  offdiag_abs_sum B i = Rabs c * offdiag_abs_sum A i.
Proof.
  intros HA HB Hi HBA. rewrite (offdiag_sum_to n A), (offdiag_sum_to n B) by done.
  rewrite <-sum_to_scal_l. apply sum_to_ext. intros j Hj.
  destruct (Nat.eqb_spec i j) as [|Hne]; [lra|].
  rewrite HBA by (done || lia). apply Rabs_mult.
Qed.

Lemma affine_image_discs (n : nat) (a e b : R) (F D : matrix) (i : nat) :
  rect n n F → affine_image n a e b F D → 0 <= a → (i < n)%nat →
  ent D i i - offdiag_abs_sum D i
    = a * (e - (ent F i i + offdiag_abs_sum F i)) + b ∧
  ent D i i + offdiag_abs_sum D i
    = a * (e - (ent F i i - offdiag_abs_sum F i)) + b.
Proof.
  intros HF [HD Hent] Ha Hi.
  assert (offdiag_abs_sum D i = a * offdiag_abs_sum F i) as ->.
  { rewrite (offdiag_scaled n F D i (- a)); [|done..|].
    - by rewrite Rabs_Ropp, (Rabs_pos_eq a).
    - intros j Hj Hne. rewrite Hent by done.
      destruct (Nat.eqb_spec i j); [by subst|lra]. }
  rewrite Hent, Nat.eqb_refl by done. lra.
Qed.

Lemma affine_image_minmax (n : nat) (a e b : R) (F D : matrix)
    (emin emax : R) :
  rect n n F → gershgorin_minmax F = Ok (emin, emax) →
  affine_image n a e b F D → 0 <= a →
  gershgorin_minmax D = Ok (a * (e - emax) + b, a * (e - emin) + b).
Proof.
  intros HF Hg HD Ha. pose proof (gershgorin_discs n F emin emax HF Hg) as Hd.
  destruct (gershgorin_minmax_Ok n F emin emax HF Hg)
    as (Hn & [Hmin _] & [Hmax _]).
  pose proof HF as [HlF _]. pose proof HD as [[HlD HrD] _].
  destruct (gershgorin_minmax_square n D Hn) as (lo & hi & -> & Hlo & Hhi);
    [done|].
  assert (is_min (a * (e - emax) + b) (gershgorin_lower D)) as Hlo'.
  { unfold gershgorin_lower in *. split.
    - apply list_elem_of_fmap in Hmax as (i & -> & Hi%elem_of_seq).
      apply list_elem_of_fmap. exists i. split; [|apply elem_of_seq; lia].
      by destruct (affine_image_discs n a e b F D i) as [-> _]; [..|lia|].
    - intros y (i & -> & Hi%elem_of_seq)%list_elem_of_fmap.
      destruct (affine_image_discs n a e b F D i) as [-> _]; [done..|lia|].
      destruct (Hd i) as [_ Hu]; [lia|]. nra. }
  assert (is_max (a * (e - emin) + b) (gershgorin_upper D)) as Hhi'.
  { unfold gershgorin_upper in *. split.
    - apply list_elem_of_fmap in Hmin as (i & -> & Hi%elem_of_seq).
      apply list_elem_of_fmap. exists i. split; [|apply elem_of_seq; lia].
      by destruct (affine_image_discs n a e b F D i) as [_ ->]; [..|lia|].
    - intros y (i & -> & Hi%elem_of_seq)%list_elem_of_fmap.
      destruct (affine_image_discs n a e b F D i) as [_ ->]; [done..|lia|].
      destruct (Hd i) as [Hl _]; [lia|]. nra. }
  by rewrite (is_min_unique _ _ _ Hlo Hlo'), (is_max_unique _ _ _ Hhi Hhi').
Qed.

Lemma affine_image_trace (n : nat) (a e b : R) (F D : matrix) :
  rect n n F → affine_image n a e b F D →
  trace D = a * (INR n * e - trace F) + INR n * b.
Proof.
  intros HF [HD Hent]. rewrite (trace_sum n D), (trace_sum n F) by done.
  rewrite (sum_to_ext n _ (λ i, (a * e + b) - a * ent F i i)).
  - rewrite sum_to_minus, sum_to_const, sum_to_scal_l. lra.
  - intros i Hi. rewrite Hent, Nat.eqb_refl by done. lra.
Qed.

Lemma affine_image_symmetric (n : nat) (a e b : R) (F D : matrix) :
  affine_image n a e b F D → symmetric n F → symmetric n D.
Proof.
  intros [_ Hent] HsF i j Hi Hj. rewrite !Hent, (HsF i j) by done.
  by rewrite (Nat.eqb_sym i j).
Qed.

Lemma interpolation_affine (n : nat) (F : matrix) (emax de : R) :
  rect n n F → de ≠ 0 →
  affine_image n (/ de) emax 0 F (mdiv (mminus (scal emax (identity n)) F) de).
Proof.
  intros HF Hde. split; [rect|]. intros i j Hi Hj.
  rewrite (ent_mdiv _ n n), (ent_mminus n n), (ent_scal _ n n), ent_identity
    by rect.
  destruct (Nat.eqb i j); field; done.
Qed.

Lemma fermi_matrix_rect (n : nat) (a b e : R) (F : matrix) :
  rect n n F →
  fermi_matrix a b e (identity n) F =
    Ok (mplus (scal a (mminus (scal e (identity n)) F)) (scal b (identity n))).
Proof.
  intros HF. unfold fermi_matrix. rewrite (sub_rect n n) by rect. simpl.
  by rewrite (add_rect n n) by rect.
Qed.

Lemma fermi_matrix_affine (n : nat) (a b e : R) (F : matrix) :
  rect n n F →
  affine_image n a e b F
    (mplus (scal a (mminus (scal e (identity n)) F)) (scal b (identity n))).
Proof.
  intros HF. split; [rect|]. intros i j Hi Hj.
  rewrite (ent_mplus n n), !(ent_scal _ n n), (ent_mminus n n),
    (ent_scal _ n n), ent_identity by rect.
  destruct (Nat.eqb i j); lra.
Qed.

(** The mean of the diagonal lies between the Gershgorin bounds, and strictly
    so unless the matrix is a multiple of the identity. *)
Lemma mean_diagonal_between (n : nat) (F : matrix) (emin emax : R) :
  rect n n F → gershgorin_minmax F = Ok (emin, emax) →
  ¬ scalar_matrix n F → emin < trace F / INR n < emax.
Proof.
  intros HF Hg Hns. pose proof (gershgorin_discs n F emin emax HF Hg) as Hd.
  destruct (gershgorin_minmax_Ok n F emin emax HF Hg) as (Hn & _).
  assert (0 < INR n) as Hn' by (by apply lt_0_INR).
  assert (∀ i, (i < n)%nat → emin <= ent F i i <= emax) as Hdiag.
  { intros i Hi. pose proof (Hd i Hi). pose proof (offdiag_nonneg F i). lra. }
  assert (INR n * emin <= trace F <= INR n * emax) as Htr.
  { rewrite (trace_sum n) by done. rewrite <-!sum_to_const.
    split; apply sum_to_le; intros i Hi; apply Hdiag, Hi. }
  assert (∀ c, (∀ i, (i < n)%nat → ent F i i = c) →
              (∀ i, (i < n)%nat → offdiag_abs_sum F i = 0) → False) as Hsc.
  { intros c Hc Hoff. apply Hns. exists c. intros i j Hi Hj.
    destruct (Nat.eqb_spec i j) as [<-|Hne]; [by apply Hc|].
    apply (offdiag_zero_iff n F i HF Hi); [by apply Hoff|done|lia]. }
  assert (trace F ≠ INR n * emin) as Hlo.
  { intros Heq. rewrite (trace_sum n), <-sum_to_const in Heq by done.
    assert (∀ i, (i < n)%nat → ent F i i - emin = 0) as Hz.
    { apply sum_to_zero_inv; [intros i Hi; specialize (Hdiag i Hi); lra|].
      rewrite sum_to_minus. lra. }
    apply (Hsc emin); intros i Hi; specialize (Hz i Hi);
      pose proof (Hd i Hi); pose proof (offdiag_nonneg F i); lra. }
  assert (trace F ≠ INR n * emax) as Hhi.
  { intros Heq. rewrite (trace_sum n), <-sum_to_const in Heq by done.
    assert (∀ i, (i < n)%nat → emax - ent F i i = 0) as Hz.
    { apply sum_to_zero_inv; [intros i Hi; specialize (Hdiag i Hi); lra|].
      rewrite sum_to_minus. lra. }
    apply (Hsc emax); intros i Hi; specialize (Hz i Hi);
      pose proof (Hd i Hi); pose proof (offdiag_nonneg F i); lra. }
  split.
  - apply Rmult_lt_reg_l with (INR n); [done|].
    replace (INR n * (trace F / INR n)) with (trace F) by (field; lra). lra.
  - apply Rmult_lt_reg_l with (INR n); [done|].
    replace (INR n * (trace F / INR n)) with (trace F) by (field; lra). lra.
Qed.

Lemma DMP_init_canonical (n : nat) (F : matrix) (Ne emin emax : R) :
  rect n n F → gershgorin_minmax F = Ok (emin, emax) →
  DMP_init F Ne 3 =
    lift (efermi ← fdiv (trace F) (INR n);
          beta ← fdiv Ne (INR n);
          a1 ← fdiv Ne (emax - efermi);
          a2 ← fdiv (INR n - Ne) (efermi - emin);
          alpha ← fdiv (Rmin a1 a2) (INR n);
          fermi_matrix alpha beta efermi (identity n) F).
Proof.
  intros [Hlen _] Hg. unfold DMP_init, shape. rewrite Hg, Hlen. done.
Qed.

Lemma DMP_init_canonical_ok (n : nat) (F : matrix) (Ne emin emax : R) :
  rect n n F → gershgorin_minmax F = Ok (emin, emax) →
  ¬ scalar_matrix n F →
  DMP_init F Ne 3 = ([], Ok (canonical_guess n F Ne emin emax)).
Proof.
  intros HF Hg Hns.
  pose proof (mean_diagonal_between n F emin emax HF Hg Hns) as Hef.
  destruct (gershgorin_minmax_Ok n F emin emax HF Hg) as (Hn & _).
  assert (0 < INR n) as Hn' by (by apply lt_0_INR).
  rewrite (DMP_init_canonical n F Ne emin emax) by done.
  rewrite !fdiv_nonzero by lra. cbn [mbind result_bind].
  rewrite !fdiv_nonzero by lra. cbn [mbind result_bind].
  rewrite !fdiv_nonzero by lra. cbn [mbind result_bind].
  by rewrite (fermi_matrix_rect n).
Qed.

Lemma DMP_init_canonical_scalar (n : nat) (F : matrix) (Ne : R) :
  (0 < n)%nat → rect n n F → scalar_matrix n F →
  DMP_init F Ne 3 = ([], Raise ZeroDivisionError).
Proof.
  intros Hn HF Hs.
  destruct (gershgorin_minmax_square n F Hn HF) as (emin & emax & Hg & _).
  assert (0 < INR n) as Hn' by (by apply lt_0_INR).
  pose proof Hs as Heq%(gershgorin_coincide_iff n F emin emax HF Hg).
  pose proof (gershgorin_discs n F emin emax HF Hg) as Hd.
  assert (trace F = INR n * emax) as Htr.
  { rewrite (trace_sum n), <-sum_to_const by done. apply sum_to_ext.
    intros i Hi. pose proof (Hd i Hi). pose proof (offdiag_nonneg F i). lra. }
  rewrite (DMP_init_canonical n F Ne emin emax) by done.
  rewrite !(fdiv_nonzero _ (INR n)) by lra. cbn [mbind result_bind].
  replace (emax - trace F / INR n) with 0 by (rewrite Htr; field; lra).
  by rewrite fdiv_zero.
Qed.


(** X8. For the methods 0 and 1, an initial density matrix that [DMP]
    computes from a square orthogonalised Fock matrix is square of the same
    size and has the Gershgorin bounds 0 and 1 exactly; so its diagonal
    entries lie in [0,1] and its trace between 0 and the number of rows. It is
    symmetric when the Fock matrix is. *)
Theorem DMP_init_unit_interval (n : nat) (F D0 : matrix) (Ne : R) (Method : Z)
    (out : list output) :
  rect n n F → (Method = 0 ∨ Method = 1)%Z →
  DMP_init F Ne Method = (out, Ok D0) →
  out = [] ∧ rect n n D0 ∧
  gershgorin_minmax D0 = Ok (0, 1) ∧
  (∀ i, (i < n)%nat → 0 <= ent D0 i i <= 1) ∧
  0 <= trace D0 <= INR n ∧
  (symmetric n F → symmetric n D0).
Proof.
  intros HF HM Hinit.
  destruct n as [|n].
  { destruct HF as [Hl _]. destruct F; [|done]. unfold DMP_init in Hinit.
    by rewrite gershgorin_minmax_empty in Hinit. }
  destruct (gershgorin_minmax_square (S n) F) as (emin & emax & Hg & _);
    [lia|done|].
  rewrite (DMP_init_interpolation (S n) F Ne emin emax) in Hinit by done.
  unfold lift, div in Hinit.
  destruct (Req_dec_T (emax - emin) 0) as [Hz|Hnz]; [done|].
  injection Hinit as <- <-.
  pose proof (interpolation_affine (S n) F emax (emax - emin) HF Hnz) as Haff.
  set (D0 := mdiv _ _) in *. pose proof Haff as [HD0 _].
  destruct (gershgorin_minmax_Ok (S n) F emin emax HF Hg)
    as (_ & [Hmin _] & [Hmax _]).
  assert (emin < emax) as Hlt.
  { unfold gershgorin_lower in Hmin. unfold gershgorin_upper in Hmax.
    pose proof (gershgorin_discs (S n) F emin emax HF Hg 0%nat) as Hd.
    pose proof (offdiag_nonneg F 0). specialize (Hd ltac:(lia)). lra. }
  assert (0 <= / (emax - emin)) as Ha
    by (apply Rlt_le, Rinv_0_lt_compat; lra).
  assert (gershgorin_minmax D0 = Ok (0, 1)) as Hg0.
  { rewrite (affine_image_minmax (S n) _ _ _ F D0 emin emax HF Hg Haff Ha).
    do 2 f_equal; field; lra. }
  split; [done|]. split; [done|]. split; [done|].
  pose proof (gershgorin_discs (S n) D0 0 1 HD0 Hg0) as Hd0.
  assert (∀ i, (i < S n)%nat → 0 <= ent D0 i i <= 1) as Hdiag.
  { intros i Hi. pose proof (Hd0 i Hi). pose proof (offdiag_nonneg D0 i). lra. }
  split; [done|]. split; [|by eapply affine_image_symmetric].
  rewrite (trace_sum (S n)) by done.
  assert (sum_to (S n) (λ _, 1) = INR (S n)) as <-
    by (rewrite sum_to_const; lra).
  split.
  - by apply sum_to_nonneg; intros i Hi; apply Hdiag.
  - by apply sum_to_le; intros i Hi; apply Hdiag.
Qed.

(** X9. For method 3, an initial density matrix that [DMP] computes from a
    square orthogonalised Fock matrix is square of the same size and has the
    trace [Ne] exactly; it is symmetric when the Fock matrix is, and when
    [0 <= Ne <= N] its Gershgorin bounds lie in [0,1]. *)
Theorem DMP_init_canonical_trace (n : nat) (F D0 : matrix) (Ne : R)
    (out : list output) :
  rect n n F → DMP_init F Ne 3 = (out, Ok D0) →
  out = [] ∧ rect n n D0 ∧ trace D0 = Ne ∧
  (symmetric n F → symmetric n D0) ∧
  (0 <= Ne <= INR n →
   ∃ lo hi, gershgorin_minmax D0 = Ok (lo, hi) ∧ 0 <= lo ∧ hi <= 1).
Proof.
  intros HF Hinit.
  destruct n as [|n].
  { destruct HF as [Hl _]. destruct F; [|done]. unfold DMP_init in Hinit.
    by rewrite gershgorin_minmax_empty in Hinit. }
  destruct (gershgorin_minmax_square (S n) F) as (emin & emax & Hg & _);
    [lia|done|].
  assert (0 < INR (S n)) as Hn' by (apply lt_0_INR; lia).
  pose proof (gershgorin_coincide_iff (S n) F emin emax HF Hg) as Hiff.
  destruct (Req_dec_T emax emin) as [Hs%Hiff|Hne].
  { rewrite (DMP_init_canonical_scalar (S n)) in Hinit by (done || lia).
    done. }
  assert (¬ scalar_matrix (S n) F) as Hns by (by intros Hs%Hiff).
  pose proof (mean_diagonal_between (S n) F emin emax HF Hg Hns) as Hef.
  rewrite (DMP_init_canonical_ok (S n) F Ne emin emax) in Hinit by done.
  injection Hinit as <- <-. unfold canonical_guess.
  set (ef := trace F / INR (S n)) in *.
  set (alpha := Rmin _ _ / _).
  pose proof (fermi_matrix_affine (S n) alpha (Ne / INR (S n)) ef F HF) as Haff.
  set (D0 := mplus _ _) in *. pose proof Haff as [HD0 _].
  split; [done|]. split; [done|]. split; [|split].
  - rewrite (affine_image_trace (S n) _ _ _ F D0 HF Haff).
    unfold ef. field. lra.
  - by eapply affine_image_symmetric.
  - intros HNe.
    assert (0 <= Ne / (emax - ef)) as H1
      by (apply Rmult_le_pos; [lra|apply Rlt_le, Rinv_0_lt_compat; lra]).
    assert (0 <= (INR (S n) - Ne) / (ef - emin)) as H2
      by (apply Rmult_le_pos; [lra|apply Rlt_le, Rinv_0_lt_compat; lra]).
    set (m := Rmin (Ne / (emax - ef)) ((INR (S n) - Ne) / (ef - emin))).
    assert (0 <= m) as Hm by (by apply Rmin_glb).
    assert (m * (emax - ef) <= Ne) as Hm1.
    { pose proof (Rmin_l (Ne / (emax - ef)) ((INR (S n) - Ne) / (ef - emin))).
      fold m in H. apply Rmult_le_compat_r with (r := emax - ef) in H; [|lra].
      replace (Ne / (emax - ef) * (emax - ef)) with Ne in H by (field; lra).
      done. }
    assert (m * (ef - emin) <= INR (S n) - Ne) as Hm2.
    { pose proof (Rmin_r (Ne / (emax - ef)) ((INR (S n) - Ne) / (ef - emin))).
      fold m in H. apply Rmult_le_compat_r with (r := ef - emin) in H; [|lra].
      replace ((INR (S n) - Ne) / (ef - emin) * (ef - emin))
        with (INR (S n) - Ne) in H by (field; lra).
      done. }
    assert (0 <= alpha) as Ha
      by (apply Rmult_le_pos; [done|apply Rlt_le, Rinv_0_lt_compat; lra]).
    rewrite (affine_image_minmax (S n) _ _ _ F D0 emin emax HF Hg Haff Ha).
    eexists _, _. split; [done|].
    assert (alpha * INR (S n) = m) as Hal by (unfold alpha; fold m; field; lra).
    assert (Ne / INR (S n) * INR (S n) = Ne) as Hbe by (field; lra).
    split.
    + apply Rmult_le_reg_r with (INR (S n)); [done|]. nra.
    + apply Rmult_le_reg_r with (INR (S n)); [done|]. nra.
Qed.

(** *** The iterations of step 3 *)

Lemma DMP_iter_method0 (n : nat) (Ne ErrorLimit : R) (I : matrix) (iter : nat)
    (D : matrix) (s : R) :
  rect n n D →
  DMP_iter Ne ErrorLimit 0 I iter (D, s) =
    Ok ((if Rlt_dec (trace D) Ne then mminus (scal 2 D) (mmul D D)
         else mmul D D, s),
        if Rlt_dec (Rabs (trace D - Ne)) ErrorLimit then true else false).
Proof.
  intros HD. unfold DMP_iter.
  rewrite (matrixmultiply_rect n D D) by done. cbn [mbind result_bind Z.eqb].
  destruct (Rlt_dec (trace D) Ne); [rewrite (sub_rect n n) by rect|]; done.
Qed.

Lemma DMP_iter_method2 (n : nat) (Ne ErrorLimit : R) (I : matrix) (iter : nat)
    (D : matrix) (s : R) :
  rect n n D →
  DMP_iter Ne ErrorLimit 2 I iter (D, s) =
    Ok ((mminus (scal 3 (mmul D D)) (scal 2 (mmul D (mmul D D))), s),
        if Rlt_dec (Rabs (trace D - Ne)) ErrorLimit then true else false).
Proof.
  intros HD. unfold DMP_iter.
  rewrite (matrixmultiply_rect n D D) by done.
  cbn [mbind result_bind Z.eqb Pos.eqb].
  rewrite (matrixmultiply_rect n D) by rect. cbn [mbind result_bind].
  by rewrite (sub_rect n n) by rect.
Qed.

(** At an idempotent density matrix the updates of the methods 0 and 2 change
    nothing. *)
Lemma DMP_iter_idempotent (n : nat) (Ne ErrorLimit : R) (Method : Z)
    (I : matrix) (iter : nat) (D : matrix) (s : R) :
  rect n n D → idempotent D → (Method = 0 ∨ Method = 2)%Z →
  DMP_iter Ne ErrorLimit Method I iter (D, s) =
    Ok ((D, s), if Rlt_dec (Rabs (trace D - Ne)) ErrorLimit then true else false).
Proof.
  intros HD Hid [-> | ->].
  - rewrite (DMP_iter_method0 n) by done. rewrite Hid.
    destruct (Rlt_dec (trace D) Ne); [|done]. do 3 f_equal.
    apply (rect_ext n n); [rect|done|]. intros i j Hi Hj.
    rewrite (ent_mminus n n), (ent_scal _ n n) by rect. lra.
  - rewrite (DMP_iter_method2 n) by done. rewrite !Hid. do 3 f_equal.
    apply (rect_ext n n); [rect|done|]. intros i j Hi Hj.
    rewrite (ent_mminus n n), !(ent_scal _ n n) by rect. lra.
Qed.

(** X10. An idempotent square density matrix is a fixed point of the methods
    0 and 2: when its trace is within [ErrorLimit] of [Ne], the loop of [DMP]
    leaves with [break] in its first iteration; otherwise the loop runs
    through all its iterations without changing the matrix, whatever their
    number (and [DMP] then prints its warning). *)
Theorem DMP_idempotent_fixed_point (n : nat) (Ne ErrorLimit : R) (Method : Z)
    (I : matrix) (ixs : list nat) (D : matrix) (s : R) :
  rect n n D → idempotent D → (Method = 0 ∨ Method = 2)%Z →
  for_break (DMP_iter Ne ErrorLimit Method I) ixs (D, s) =
    Ok ((D, s),
        if Rlt_dec (Rabs (trace D - Ne)) ErrorLimit
        then bool_decide (ixs ≠ []) else false).
Proof.
  intros HD Hid HM. induction ixs as [|i ixs IH].
  { simpl. by destruct (Rlt_dec _ _). }
  pose proof (DMP_iter_idempotent n Ne ErrorLimit Method I i D s HD Hid HM)
    as Hstep.
  destruct (Rlt_dec (Rabs (trace D - Ne)) ErrorLimit).
  - by rewrite (for_break_first _ _ _ _ _ Hstep).
  - by rewrite (for_break_next _ _ _ _ _ Hstep).
Qed.

(** X11. At an idempotent square density matrix the iterations of the methods
    1 and 3 divide by zero: the traces of [D2*(I-D)^2] and of [D-D2] vanish
    there. *)
Theorem DMP_iter_idempotent_raises (n : nat) (Ne ErrorLimit : R) (Method : Z)
    (iter : nat) (D : matrix) (s : R) :
  rect n n D → idempotent D → (Method = 1 ∨ Method = 3)%Z →
  DMP_iter Ne ErrorLimit Method (identity n) iter (D, s)
    = Raise ZeroDivisionError.
Proof.
  intros HD Hid HM. unfold idempotent in Hid. unfold DMP_iter.
  rewrite (matrixmultiply_rect n D D) by done. rewrite Hid.
  destruct HM as [-> | ->]; cbn [mbind result_bind Z.eqb Pos.eqb].
  - rewrite (sub_rect n n (scal 4 D) (scal 3 D)) by rect.
    cbn [mbind result_bind].
    rewrite (matrixmultiply_rect n D) by rect. cbn [mbind result_bind].
    rewrite (sub_rect n n (identity n) D) by rect. cbn [mbind result_bind].
    rewrite (matrixmultiply_rect n (mminus (identity n) D)) by rect.
    cbn [mbind result_bind].
    rewrite (matrixmultiply_rect n D) by rect. cbn [mbind result_bind].
    rewrite (mmul_assoc n D (mminus (identity n) D)) by rect.
    rewrite (mmul_mminus_r n D (identity n) D) by rect.
    rewrite (mmul_identity_r n), Hid, (mminus_diag n), (mmul_zero_l n),
      trace_zero by rect.
    by rewrite fdiv_zero.
  - rewrite (matrixmultiply_rect n D D) by rect. cbn [mbind result_bind].
    rewrite Hid, (sub_rect n n D D) by done. cbn [mbind result_bind].
    rewrite (mminus_diag n), trace_zero by done.
    by rewrite fdiv_zero.
Qed.

(** A loop whose body keeps an invariant and returns under it returns. *)
Lemma for_break_invariant {S} (Inv : S → Prop)
    (body : nat → S → result (S * bool)) (ixs : list nat) (s : S) :
  (∀ i s, Inv s → ∃ s' b, body i s = Ok (s', b) ∧ Inv s') →
  Inv s → ∃ s' b, for_break body ixs s = Ok (s', b) ∧ Inv s'.
Proof.
  intros Hbody. revert s. induction ixs as [|i ixs IH]; intros s Hs.
  { by exists s, false. }
  destruct (Hbody i s Hs) as (s1 & b & Hb & Hs1). destruct b.
  - exists s1, true. split; [|done]. by apply for_break_first.
  - rewrite (for_break_next _ _ _ _ _ Hb). by apply IH.
Qed.

Lemma for_break_preserves {S} (Inv : S → Prop)
    (body : nat → S → result (S * bool)) (ixs : list nat) (s s' : S)
    (b : bool) :
  (∀ i s s' b, Inv s → body i s = Ok (s', b) → Inv s') →
  Inv s → for_break body ixs s = Ok (s', b) → Inv s'.
Proof.
  intros Hbody. revert s. induction ixs as [|i ixs IH]; intros s Hs; simpl.
  { by intros [= <- _]. }
  destruct (body i s) as [[s1 [|]]|] eqn:Hb; cbn [mbind result_bind];
    [|apply IH; by eapply Hbody|done].
  intros [= <- _]. by eapply Hbody.
Qed.

(** X12. With the default method 0, [DMP] fails only where its collaborators
    do or in the initialisation: when [SymOrth] and the first [simx] return
    and the orthogonalised Fock matrix is square and not a multiple of the
    identity, the loop never raises, and [DMP] returns [simx(D,X,'T')] for a
    square [D], having printed nothing or only the warning. *)
Theorem DMP_default_method_returns `{LA2} (n : nat) (F S : matrix) (Ne : R)
    (MaxIter : Z) (ErrorLimit : R) (X F' : matrix) :
  SymOrth S = Ok X → simx F X TransN = Ok F' →
  rect n n F' → ¬ scalar_matrix n F' →
  ∃ D, rect n n D ∧
    (DMP F S Ne 0 MaxIter ErrorLimit = ([], simx D X TransT) ∨
     DMP F S Ne 0 MaxIter ErrorLimit
       = ([print_warning_maxiters], simx D X TransT)).
Proof.
  intros HX HF' HF Hns.
  assert (0 < n)%nat as Hn.
  { destruct (decide (n = 0)%nat) as [->|]; [|lia].
    destruct Hns. exists 0. intros i j Hi. lia. }
  destruct (gershgorin_minmax_square n F') as (emin & emax & Hg & _);
    [done..|].
  pose proof (gershgorin_coincide_iff n F' emin emax HF Hg) as Hiff.
  assert (emax - emin ≠ 0) as Hde by (intros ?; apply Hns, Hiff; lra).
  assert (DMP_init F' Ne 0 =
            ([], Ok (mdiv (mminus (scal emax (identity n)) F')
                       (emax - emin)))) as Hinit.
  { rewrite (DMP_init_interpolation n F' Ne emin emax) by (done || by left).
    unfold lift. by rewrite div_nonzero. }
  set (D0 := mdiv _ _) in Hinit. assert (rect n n D0) as HD0 by
    (subst D0; rect).
  pose proof (sum_sum_rect n n D0 Hn HD0) as Hsum.
  pose proof HF as [Hlen _].
  destruct (for_break_invariant (λ st : matrix * R, rect n n st.1)
              (DMP_iter Ne ErrorLimit 0 (identity (length F')))
              (range (Z.to_nat MaxIter)) (D0, total_sum D0))
    as ([D s] & b & Hloop & HD); [|done|].
  { intros i [D s] HD. simpl in HD. eexists _, _.
    split; [by apply (DMP_iter_method0 n)|].
    simpl. destruct (Rlt_dec _ _); rect. }
  exists D. split; [done|].
  destruct (DMP_after_loop F S Ne 0 MaxIter ErrorLimit X F' D0 D [] _ s
              HX HF' Hinit Hsum) as [Hwarn Hbrk].
  destruct b.
  - left. by apply Hbrk.
  - right. by apply Hwarn, for_break_exhausts.
Qed.

(** X13. With [MaxIter <= 0] the loop of [DMP] runs no iteration: [DMP]
    prints its warning after the output of the initialisation and returns
    the initial density matrix, transformed back by [simx(D,X,'T')]. *)
Theorem DMP_no_iterations `{LA2} (F S : matrix) (Ne : R) (Method MaxIter : Z)
    (ErrorLimit : R) (X F' D0 : matrix) (out0 : list output) (Dsum0 : R) :
  SymOrth S = Ok X → simx F X TransN = Ok F' →
  DMP_init F' Ne Method = (out0, Ok D0) → sum_sum D0 = Ok Dsum0 →
  (MaxIter <= 0)%Z →
  DMP F S Ne Method MaxIter ErrorLimit =
    (out0 ++ [print_warning_maxiters], simx D0 X TransT).
Proof.
  intros HX HF' Hinit Hsum Hmax.
  destruct (DMP_after_loop F S Ne Method MaxIter ErrorLimit X F' D0 D0 out0
              Dsum0 Dsum0 HX HF' Hinit Hsum) as [Hwarn _].
  apply Hwarn. replace (Z.to_nat MaxIter) with 0%nat by lia. constructor.
Qed.

Lemma Dinit_mcw_scalar (n : nat) (F : matrix) (Ne tol : R) (maxit : Z) :
  (0 < n)%nat → rect n n F → scalar_matrix n F →
  Dinit_mcw F Ne tol maxit = ([], Raise ZeroDivisionError).
Proof.
  intros Hn HF Hs.
  destruct (gershgorin_minmax_square n F Hn HF) as (emin & emax & Hg & _).
  pose proof Hs as Heq%(gershgorin_coincide_iff n F emin emax HF Hg).
  unfold Dinit_mcw. rewrite Hg. cbn [lift mbind prog_bind].
  replace (emax - emin) with 0 by lra. by rewrite fdiv_zero.
Qed.


(** *** Symmetry *)

Section sym_commuting.
Variables (n : nat) (D : matrix).
Hypothesis HD : rect n n D.
Hypothesis HsD : symmetric n D.

Lemma sc_rect (A : matrix) : sym_commuting n D A → rect n n A.
Proof. by intros [? _]. Qed.

Lemma sc_self : sym_commuting n D D.
Proof. split; [done|]. split; [done|]. by intros M _ ->. Qed.

Lemma sc_identity : sym_commuting n D (identity n).
Proof.
  split; [rect|]. split.
  - intros i j Hi Hj. rewrite !ent_identity by done. by rewrite Nat.eqb_sym.
  - intros M HM _. by rewrite (mmul_identity_r n), (mmul_identity_l n).
Qed.

Lemma sc_scal (c : R) (A : matrix) :
  sym_commuting n D A → sym_commuting n D (scal c A).
Proof.
  intros (HA & HsA & HcA). split; [rect|]. split.
  - intros i j Hi Hj. rewrite !(ent_scal _ n n) by done. by rewrite HsA.
  - intros M HM HMD.
    by rewrite (mmul_scal_r n), (mmul_scal_l n), HcA.
Qed.

Lemma sc_mdiv (c : R) (A : matrix) :
  sym_commuting n D A → sym_commuting n D (mdiv A c).
Proof.
  intros HA. rewrite (mdiv_scal n) by (by apply sc_rect). by apply sc_scal.
Qed.

Lemma sc_mplus (A B : matrix) :
  sym_commuting n D A → sym_commuting n D B →
  sym_commuting n D (mplus A B).
Proof.
  intros (HA & HsA & HcA) (HB & HsB & HcB). split; [rect|]. split.
  - intros i j Hi Hj. rewrite !(ent_mplus n n) by done.
    by rewrite HsA, HsB.
  - intros M HM HMD.
    by rewrite (mmul_mplus_r n), (mmul_mplus_l n), HcA, HcB.
Qed.

Lemma sc_mminus (A B : matrix) :
  sym_commuting n D A → sym_commuting n D B →
  sym_commuting n D (mminus A B).
Proof.
  intros (HA & HsA & HcA) (HB & HsB & HcB). split; [rect|]. split.
  - intros i j Hi Hj. rewrite !(ent_mminus n n) by done.
    by rewrite HsA, HsB.
  - intros M HM HMD.
    by rewrite (mmul_mminus_r n), (mmul_mminus_l n), HcA, HcB.
Qed.

Lemma sc_commute (A B : matrix) :
  sym_commuting n D A → sym_commuting n D B → mmul A B = mmul B A.
Proof.
  intros (HA & _ & HcA) (HB & _ & HcB). symmetry. apply HcA; [done|].
  symmetry. by apply HcB.
Qed.

Lemma sc_mmul (A B : matrix) :
  sym_commuting n D A → sym_commuting n D B →
  sym_commuting n D (mmul A B).
Proof.
  intros HA' HB'. pose proof (sc_commute A B HA' HB') as HAB.
  destruct HA' as (HA & HsA & HcA), HB' as (HB & HsB & HcB).
  split; [rect|]. split.
  - intros i j Hi Hj. rewrite (ent_mmul_symmetric n A B i j) by done.
    by rewrite HAB.
  - intros M HM HMD.
    rewrite (mmul_assoc n M A B), (HcA M), <-(mmul_assoc n A M B),
      (HcB M), (mmul_assoc n A B M) by done.
    done.
Qed.

Create HintDb sc discriminated.
#[local] Hint Resolve sc_self sc_identity sc_scal sc_mdiv sc_mplus sc_mminus
  sc_mmul : sc.
#[local] Hint Resolve sc_rect : rect.
Ltac sc := solve [eauto 30 with sc].
Ltac scr := solve [apply sc_rect; eauto 30 with sc].

(** One iteration of any method maps a symmetric density matrix to one that
    is symmetric and commutes with it. *)
Lemma DMP_iter_sym_commuting (Ne ErrorLimit : R) (Method : Z) (iter : nat)
    (D' : matrix) (s s' : R) (b : bool) :
  DMP_iter Ne ErrorLimit Method (identity n) iter (D, s) = Ok ((D', s'), b) →
  sym_commuting n D D'.
Proof.
  unfold DMP_iter.
  rewrite (matrixmultiply_rect n D D) by done. cbn [mbind result_bind].
  set (D2 := mmul D D). assert (sym_commuting n D D2) by (subst D2; sc).
  destruct (Method =? 0)%Z.
  { destruct (Rlt_dec (trace D) Ne); [rewrite (sub_rect n n) by scr|];
      cbn [mbind result_bind]; intros ?; simplify_eq; sc. }
  destruct (Method =? 1)%Z.
  { rewrite (sub_rect n n (scal 4 D) (scal 3 D2)) by scr.
    cbn [mbind result_bind].
    rewrite (matrixmultiply_rect n D2) by scr. cbn [mbind result_bind].
    rewrite (sub_rect n n (identity n) D) by scr. cbn [mbind result_bind].
    rewrite (matrixmultiply_rect n (mminus (identity n) D)) by scr.
    cbn [mbind result_bind].
    rewrite (matrixmultiply_rect n D2) by scr. cbn [mbind result_bind].
    destruct (fdiv _ _) as [g|]; [|done]. cbn [mbind result_bind].
    destruct (Rgt_dec g 2); [|destruct (Rlt_dec g 0)];
      [rewrite (sub_rect n n) by scr|..|rewrite (sub_rect n n) by scr];
      cbn [mbind result_bind]; intros ?; simplify_eq; sc. }
  destruct (Method =? 2)%Z.
  { rewrite (matrixmultiply_rect n D D2) by scr. cbn [mbind result_bind].
    rewrite (sub_rect n n) by scr. cbn [mbind result_bind].
    intros ?; simplify_eq; sc. }
  destruct (Method =? 3)%Z; [|intros Heq; injection Heq as <- _ _; sc].
  rewrite (matrixmultiply_rect n D D2) by scr. cbn [mbind result_bind].
  rewrite (sub_rect n n D2), (sub_rect n n D D2) by scr.
  cbn [mbind result_bind].
  destruct (fdiv _ _) as [c|]; [|done]. cbn [mbind result_bind].
  assert (∀ t : matrix, sym_commuting n D t → ∀ x k,
            (div t x ≫= k) = Ok (D', s', b) →
            ∃ t', sym_commuting n D t' ∧ k t' = Ok (D', s', b)) as Hdiv.
  { intros t Ht x k. unfold div. destruct (Req_dec_T x 0); [done|].
    cbn [mbind result_bind]. intros Hk. exists (mdiv t x). split; [sc|done]. }
  assert (∀ t : matrix, sym_commuting n D t →
            (Dsum ← sum_sum t;
             if Rlt_dec (Dsum - s) ErrorLimit then Ok (t, s, true)
             else Ok (t, Dsum, false)) = Ok (D', s', b) →
            sym_commuting n D D') as Hend.
  { intros t Ht. destruct (sum_sum t) as [Dsum|]; [|done].
    cbn [mbind result_bind].
    by destruct (Rlt_dec _ _); intros ?; simplify_eq. }
  destruct (Rlt_dec c 0.5).
  - rewrite (add_rect n n) by scr. cbn [mbind result_bind].
    rewrite (sub_rect n n) by scr. cbn [mbind result_bind].
    intros (t' & Ht' & Hk)%Hdiv; [|sc]. by apply (Hend t').
  - rewrite (sub_rect n n) by scr. cbn [mbind result_bind].
    intros (t' & Ht' & Hk)%Hdiv; [|sc]. by apply (Hend t').
Qed.

End sym_commuting.

(** X15. The loop of [DMP] keeps the density matrix symmetric, with every
    method: from a square symmetric matrix, whatever the number of
    iterations and however the loop is left, it ends on a square symmetric
    matrix; and one iteration gives a matrix that commutes with the one it
    started from. *)
Theorem DMP_loop_preserves_symmetry (n : nat) (Ne ErrorLimit : R) (Method : Z)
    (ixs : list nat) (D0 D : matrix) (s0 s : R) (b : bool) :
  rect n n D0 → symmetric n D0 →
  for_break (DMP_iter Ne ErrorLimit Method (identity n)) ixs (D0, s0)
    = Ok ((D, s), b) →
  rect n n D ∧ symmetric n D ∧
  (∀ i D1 s1 b1,
     DMP_iter Ne ErrorLimit Method (identity n) i (D0, s0) = Ok ((D1, s1), b1) →
     mmul D1 D0 = mmul D0 D1).
Proof.
  intros HD0 HsD0 Hloop.
  destruct (for_break_preserves
              (λ st : matrix * R, rect n n st.1 ∧ symmetric n st.1)
              (DMP_iter Ne ErrorLimit Method (identity n)) ixs (D0, s0) (D, s) b)
    as [HD HsD]; [|done|done|].
  { intros i [A sA] [A' sA'] bA [HA HsA] Hstep. simpl in *.
    by apply (DMP_iter_sym_commuting n A HA HsA) in Hstep as (? & ? & _). }
  split; [done|]. split; [done|].
  intros i D1 s1 b1 Hstep.
  apply (DMP_iter_sym_commuting n D0 HD0 HsD0) in Hstep.
  apply (sc_commute n D0 HD0 D1 D0); [done|by apply sc_self].
Qed.

End dmm_extra.

Section dmm_extra_examples.
Import NumWrap dmm Spec Props Examples.

Example F2_not_scalar : ¬ scalar_matrix 2 F2.
Proof.
  intros [c Hc].
  pose proof (Hc 0%nat 1%nat ltac:(lia) ltac:(lia)) as H01.
  cbv [ent F2 lookup list_lookup mbind option_bind default Datatypes.id Nat.eqb]
    in H01.
  lra.
Qed.

Example D2_idempotent : idempotent D2.
Proof. unfold idempotent, D2. Rcbv. repeat f_equal; lra. Qed.

Example D2_symmetric : symmetric 2 D2.
Proof.
  intros i j Hi Hj.
  destruct i as [|[|i]], j as [|[|j]]; try lia; reflexivity.
Qed.

(** Method 3 on the two-level system with one electron starts from the same
    density matrix as the methods 0 and 1. *)
Example DMP_init_F2_canonical : DMP_init F2 1 3 = ([], Ok D2).
Proof.
  rewrite (DMP_init_canonical_ok 2 F2 1 (-1) 1);
    [|by rect_lit|apply gershgorin_minmax_F2|apply F2_not_scalar].
  unfold canonical_guess, F2, D2, Rmin.
  replace (trace [[0; 1]; [1; 0]]) with 0 by (Rcbv; lra).
  destruct (Rle_dec _ _); Rcbv; cbv [INR]; repeat f_equal; lra.
Qed.

Lemma gershgorin_minmax_encloses_witness :
  -1 <= 1 ∧
  (∀ i, (i < 2)%nat →
     -1 <= ent F2 i i - offdiag_abs_sum F2 i ∧
     ent F2 i i - offdiag_abs_sum F2 i <= ent F2 i i ∧
     ent F2 i i <= ent F2 i i + offdiag_abs_sum F2 i ∧
     ent F2 i i + offdiag_abs_sum F2 i <= 1) ∧
  INR 2 * -1 <= trace F2 <= INR 2 * 1.
Proof.
  apply (gershgorin_minmax_encloses 2 F2 (-1) 1).
  - split; [reflexivity|repeat constructor].
  - apply gershgorin_minmax_F2.
Defined.


Lemma DMP_init_unit_interval_witness :
  gershgorin_minmax D2 = Ok (0, 1) ∧ 0 <= trace D2 <= INR 2.
Proof.
  destruct (DMP_init_unit_interval 2 F2 D2 1 0 [])
    as (_ & _ & Hg & _ & Htr & _).
  - split; [reflexivity|repeat constructor].
  - by left.
  - apply DMP_init_F2.
  - exact (conj Hg Htr).
Defined.

Lemma DMP_init_canonical_trace_witness :
  trace D2 = 1 ∧ symmetric 2 D2.
Proof.
  destruct (DMP_init_canonical_trace 2 F2 D2 1 [])
    as (_ & _ & Htr & Hsym & _).
  - split; [reflexivity|repeat constructor].
  - apply DMP_init_F2_canonical.
  - split; [exact Htr|]. apply Hsym.
    intros i j Hi Hj.
    destruct i as [|[|i]], j as [|[|j]]; try lia; reflexivity.
Defined.

Lemma DMP_idempotent_fixed_point_witness :
  for_break (DMP_iter 2 1e-12 0 (identity 2)) (range 50) (D2, 0) =
    Ok ((D2, 0),
        if Rlt_dec (Rabs (trace D2 - 2)) 1e-12
        then bool_decide (range 50 ≠ []) else false).
Proof.
  apply (DMP_idempotent_fixed_point 2 2 1e-12 0 (identity 2) (range 50) D2 0).
  - split; [reflexivity|repeat constructor].
  - apply D2_idempotent.
  - by left.
Defined.

Lemma DMP_iter_idempotent_raises_witness :
  DMP_iter 1 1e-12 3 (identity 2) 0 (D2, 0) = Raise ZeroDivisionError.
Proof.
  apply (DMP_iter_idempotent_raises 2 1 1e-12 3 0 D2 0).
  - split; [reflexivity|repeat constructor].
  - apply D2_idempotent.
  - by right.
Defined.

Lemma DMP_default_method_returns_witness :
  ∃ D, rect 2 2 D ∧
    (DMP F2 S2 1 0 50 1e-12 = ([], simx D (identity 2) TransT) ∨
     DMP F2 S2 1 0 50 1e-12
       = ([print_warning_maxiters], simx D (identity 2) TransT)).
Proof.
  apply (DMP_default_method_returns 2 F2 S2 1 50 1e-12 (identity 2) F2).
  - reflexivity.
  - reflexivity.
  - split; [reflexivity|repeat constructor].
  - apply F2_not_scalar.
Defined.

Lemma DMP_no_iterations_witness :
  DMP F2 S2 1 0 0 1e-12 = ([print_warning_maxiters], Ok D2).
Proof.
  rewrite (DMP_no_iterations F2 S2 1 0 0 1e-12 (identity 2) F2 D2 [] 0).
  - reflexivity.
  - reflexivity.
  - reflexivity.
  - apply DMP_init_F2.
  - apply sum_sum_D2.
  - lia.
Defined.

Lemma DMP_loop_preserves_symmetry_witness :
  rect 2 2 D2 ∧ symmetric 2 D2 ∧
  (∀ i D1 s1 b1,
     DMP_iter 2 1e-12 0 (identity 2) i (D2, 0) = Ok ((D1, s1), b1) →
     mmul D1 D2 = mmul D2 D1).
Proof.
  apply (DMP_loop_preserves_symmetry 2 2 1e-12 0 [0%nat] D2 D2 0 0 false).
  - split; [reflexivity|repeat constructor].
  - apply D2_symmetric.
  - apply for_break_exhausts.
    econstructor; [apply DMP_iter_D2_continues|constructor].
Defined.


End dmm_extra_examples.

(** ** UHFSolver: the spin dependence of the Fock matrices, and averaging *)

Section uhf_extra.
Import NumWrap UHFSolver Spec Props.
Context {integrals : Type} `{Collaborators integrals}.

(** X16. The two Fock matrices that [update_fock] assigns differ by the
    exchange matrices alone, [Fa - Fb = Kb - Ka]: where the exchange matrices
    of the two spin densities coincide, as they do for equal spin densities,
    the two Fock matrices are equal. *)
Theorem update_fock_spin_difference (n : nat) (self : UHFSolver integrals)
    (da db : matrix) :
  basis_size n → rect n n (h self) → rect n n da → rect n n db →
  Da self = Some da → Db self = Some db →
  ∃ self' fa fb,
    update_fock self = Ok self' ∧ Fa self' = Some fa ∧ Fb self' = Some fb ∧
    rect n n fa ∧ rect n n fb ∧
    mminus fa fb = mminus (getK (Ints self) db) (getK (Ints self) da) ∧
    (getK (Ints self) da = getK (Ints self) db → fa = fb) ∧
    (da = db → fa = fb).
Proof.
  intros Hsize Hh Hda Hdb HDa HDb.
  destruct (update_fock_ok n self da db Hsize Hh Hda Hdb HDa HDb)
    as (Hupd & Hfa & Hfb).
  pose proof Hsize as (HJ & HK & _).
  set (ja := getJ (Ints self) da) in *. set (jb := getJ (Ints self) db) in *.
  set (ka := getK (Ints self) da) in *. set (kb := getK (Ints self) db) in *.
  assert (rect n n ja) by (apply HJ; done).
  assert (rect n n jb) by (apply HJ; done).
  assert (rect n n ka) by (apply HK; done).
  assert (rect n n kb) by (apply HK; done).
  eexists _, _, _. split; [exact Hupd|].
  split; [reflexivity|]. split; [reflexivity|].
  rewrite Hfa, Hfb.
  split; [rect|]. split; [rect|]. split; [|split].
  - apply (rect_ext n n); [rect|rect|]. intros i j Hi Hj.
    rewrite !(ent_mminus n n), !(ent_mplus n n) by rect. lra.
  - by intros ->.
  - intros Heq. subst ka kb. by rewrite Heq.
Qed.

Lemma fresh_densities_rect (n : nat) (self : UHFSolver integrals) :
  basis_size n → rect n n (orbsa self) → rect n n (orbsb self) →
  rect n n (fresh_densities self).1 ∧ rect n n (fresh_densities self).2.
Proof.
  intros (_ & _ & Hmk & Hmkf) Hca Hcb. unfold fresh_densities.
  destruct (truth (etemp self)) as [t|]; simpl.
  - split; by apply Hmkf.
  - split; by apply Hmk.
Qed.

(** X17. With averaging switched on, after the first iteration
    [update_density] mixes the densities built from the orbitals with the
    densities kept from the previous iteration, entry by entry
    [avgfact*D + (1-avgfact)*D_old]; it keeps the mixed densities for the
    next iteration, and [Dab] is the sum of the mixed densities.  For
    [0 <= avgfact <= 1] every entry lies between the new and the old one. *)
Theorem update_density_mixes (n : nat) (self : UHFSolver integrals)
    (dao dbo : matrix) :
  basis_size n → rect n n (orbsa self) → rect n n (orbsb self) →
  do_averaging self = true → (1 < iter self)%Z →
  Da_old self = Some dao → Db_old self = Some dbo →
  rect n n dao → rect n n dbo →
  ∃ self' da db,
    update_density self = Ok self' ∧
    Da self' = Some da ∧ Db self' = Some db ∧
    Da_old self' = Some da ∧ Db_old self' = Some db ∧
    Dab self' = Some (mplus da db) ∧
    (∀ i j, (i < n)%nat → (j < n)%nat →
       ent da i j = avgfact self * ent (fresh_densities self).1 i j
                    + (1 - avgfact self) * ent dao i j ∧
       ent db i j = avgfact self * ent (fresh_densities self).2 i j
                    + (1 - avgfact self) * ent dbo i j) ∧
    (0 <= avgfact self <= 1 →
     ∀ i j, (i < n)%nat → (j < n)%nat →
       Rmin (ent (fresh_densities self).1 i j) (ent dao i j) <= ent da i j
         <= Rmax (ent (fresh_densities self).1 i j) (ent dao i j) ∧
       Rmin (ent (fresh_densities self).2 i j) (ent dbo i j) <= ent db i j
         <= Rmax (ent (fresh_densities self).2 i j) (ent dbo i j)).
Proof.
  intros Hsize Hca Hcb Havg Hit HDao HDbo Hdao Hdbo.
  destruct (fresh_densities_rect n self Hsize Hca Hcb) as [Hfa Hfb].
  set (a := avgfact self).
  set (da := mplus (scal a (fresh_densities self).1) (scal (1.0 - a) dao)).
  set (db := mplus (scal a (fresh_densities self).2) (scal (1.0 - a) dbo)).
  assert (∀ i j, (i < n)%nat → (j < n)%nat →
            ent da i j = a * ent (fresh_densities self).1 i j
                         + (1 - a) * ent dao i j ∧
            ent db i j = a * ent (fresh_densities self).2 i j
                         + (1 - a) * ent dbo i j) as Hent.
  { intros i j Hi Hj. subst da db.
    rewrite !(ent_mplus n n), !(ent_scal _ n n) by rect. lra. }
  assert (∃ ea eb e,
            update_density self =
              Ok (set_density self da db ea eb e (Some da) (Some db)
                    (mplus da db))) as (ea & eb & e & Hupd).
  { unfold update_density. rewrite Havg, HDao, HDbo.
    apply Z.gtb_lt in Hit as ->. subst da db. revert Hfa Hfb.
    unfold fresh_densities.
    destruct (truth (etemp self)) as [t|].
    - destruct (mkdens_fermi (2 * nalpha self) _ _ t) as [fa ea].
      destruct (mkdens_fermi (2 * nbeta self) _ _ t) as [fb eb].
      cbn [fst snd attr mbind result_bind]. intros Hfa Hfb.
      rewrite !(average_rect n) by done. cbn [mbind result_bind].
      rewrite (add_rect n n) by rect. by eexists _, _, _.
    - cbn [fst snd attr mbind result_bind]. intros Hfa Hfb.
      rewrite !(average_rect n) by done. cbn [mbind result_bind].
      rewrite (add_rect n n) by rect. by eexists _, _, _. }
  exists (set_density self da db ea eb e (Some da) (Some db) (mplus da db)),
    da, db.
  split; [done|]. do 5 (split; [reflexivity|]). split; [done|].
  intros Ha i j Hi Hj. destruct (Hent i j Hi Hj) as [-> ->]. fold a in Ha.
  split; (split; [apply Rmin_case_strong|apply Rmax_case_strong]); nra.
Qed.

End uhf_extra.

Section uhf_extra_examples.
Import NumWrap UHFSolver Spec Props Examples.

Lemma update_fock_spin_difference_witness :
  ∃ self' fa fb,
    update_fock li_densities = Ok self' ∧
    Fa self' = Some fa ∧ Fb self' = Some fb ∧
    rect 1 1 fa ∧ rect 1 1 fb ∧
    mminus fa fb = mminus (getK tt [[1]]) (getK tt [[2]]) ∧
    (getK tt [[2]] = getK tt [[1]] → fa = fb) ∧
    ([[2]] = [[1]] → fa = fb).
Proof.
  apply (update_fock_spin_difference 1 li_densities [[2]] [[1]]).
  - apply closed_forms_basis_size.
  - split; [reflexivity|repeat constructor].
  - split; [reflexivity|repeat constructor].
  - split; [reflexivity|repeat constructor].
  - reflexivity.
  - reflexivity.
Defined.

Lemma update_density_mixes_witness :
  ∃ self' da db,
    update_density li_averaging = Ok self' ∧
    Da self' = Some da ∧ Db self' = Some db ∧
    Da_old self' = Some da ∧ Db_old self' = Some db ∧
    Dab self' = Some (mplus da db) ∧
    ent da 0 0 = 0.5 * ent (fresh_densities li_averaging).1 0 0
                 + (1 - 0.5) * ent [[1]] 0 0.
Proof.
  destruct (update_density_mixes 1 li_averaging [[1]] [[1]])
    as (self' & da & db & Hupd & HDa & HDb & HDao & HDbo & HDab & Hent & _).
  - apply closed_forms_basis_size.
  - split; [reflexivity|repeat constructor].
  - split; [reflexivity|repeat constructor].
  - reflexivity.
  - simpl. lia.
  - reflexivity.
  - reflexivity.
  - split; [reflexivity|repeat constructor].
  - split; [reflexivity|repeat constructor].
  - exists self', da, db. do 6 (split; [assumption|]).
    apply (Hent 0%nat 0%nat); lia.
Defined.

End uhf_extra_examples.

(** ** optimize: the Rosenbrock test functions *)

(** The outermost call of a sequence of calls returns or raises. *)
Ltac bind_case a :=
  match goal with
  | |- mbind _ ?m = _ → _ =>
      destruct m as [a|]; cbn [mbind result_bind]; [|done]
  end.
Ltac bind_case_eq a H :=
  match goal with
  | |- mbind _ ?m = _ → _ =>
      destruct m as [a|] eqn:H; cbn [mbind result_bind]; [|done]
  end.

Section optimize_extra.
Import NumWrap optimize Props.

Lemma at0_lookup (x : vector) (i : nat) (a : R) : x !! i = Some a → at0 x i = a.
Proof. unfold at0. by intros ->. Qed.

Lemma lookup_at0 (x : vector) (i : nat) :
  (i < length x)%nat → x !! i = Some (at0 x i).
Proof.
  intros Hi. destruct (lookup_lt_is_Some_2 x i Hi) as [a Ha].
  by rewrite (at0_lookup x i a).
Qed.

Lemma py_sum_at0 (l : list R) : py_sum l = sum_to (length l) (at0 l).
Proof. rewrite <-(list_fmap_id l) at 1. apply (py_sum_lookup id). Qed.

(** The Rosenbrock function as the sum of its terms. *)
Lemma rosen_sum_to (x : vector) :
  rosen x =
    sum_to (length x - 1)
      (λ i, 100 * (at0 x (S i) - at0 x i ^ 2) ^ 2 + (1 - at0 x i) ^ 2).
Proof.
  unfold rosen. rewrite py_sum_at0.
  assert (length (take (length x - 1) x) = (length x - 1)%nat) as Hlt
    by (rewrite length_take; lia).
  assert (length (drop 1 x) = (length x - 1)%nat) as Hld
    by (rewrite length_drop; lia).
  rewrite length_zip_with, !length_fmap, length_zip_with, length_fmap, Hlt, Hld.
  rewrite !Nat.min_id.
  apply sum_to_ext. intros i Hi. apply at0_lookup.
  rewrite lookup_zip_with, !list_lookup_fmap, lookup_zip_with,
    list_lookup_fmap, lookup_drop, lookup_take_lt by done.
  rewrite (lookup_at0 x (1 + i)), (lookup_at0 x i) by lia. simpl.
  unfold sq. f_equal. lra.
Qed.

Lemma rosen_nonneg (x : vector) : 0 <= rosen x.
Proof.
  rewrite rosen_sum_to. apply sum_to_nonneg. intros i _.
  pose proof (pow2_ge_0 (at0 x (S i) - at0 x i ^ 2)).
  pose proof (pow2_ge_0 (1 - at0 x i)). lra.
Qed.

Lemma rosen_zero_iff (x : vector) :
  (2 <= length x)%nat →
  rosen x = 0 ↔ x = replicate (length x) 1.
Proof.
  intros Hn. rewrite rosen_sum_to. split.
  - intros Hz.
    assert (∀ i, (i < length x - 1)%nat →
              at0 x i = 1 ∧ at0 x (S i) = 1) as Hones.
    { intros i Hi.
      pose proof (sum_to_zero_inv (length x - 1)
                    (λ k, 100 * (at0 x (S k) - at0 x k ^ 2) ^ 2
                          + (1 - at0 x k) ^ 2)) as Hinv.
      assert (100 * (at0 x (S i) - at0 x i ^ 2) ^ 2 + (1 - at0 x i) ^ 2 = 0)
        as Hi0.
      { apply Hinv; [|done|done]. intros k _.
        pose proof (pow2_ge_0 (at0 x (S k) - at0 x k ^ 2)).
        pose proof (pow2_ge_0 (1 - at0 x k)). lra. }
      pose proof (pow2_ge_0 (at0 x (S i) - at0 x i ^ 2)).
      pose proof (pow2_ge_0 (1 - at0 x i)).
      assert ((1 - at0 x i) ^ 2 = 0) as H1 by lra.
      assert ((at0 x (S i) - at0 x i ^ 2) ^ 2 = 0) as H2 by lra.
      assert (at0 x i = 1) as Hx by nra. split; [done|].
      rewrite Hx in H2. nra. }
    apply list_eq. intros i. destruct (decide (i < length x)%nat) as [Hi|Hi].
    + rewrite lookup_replicate_2, (lookup_at0 x i) by done. f_equal.
      destruct (decide (i < length x - 1)%nat) as [Hi'|Hi'].
      * by apply Hones.
      * replace i with (S (length x - 2)) by lia. apply Hones. lia.
    + rewrite (lookup_ge_None_2 x i) by lia. symmetry.
      apply lookup_replicate_None. lia.
  - intros Hx. rewrite (sum_to_ext _ _ (λ _, 0)), sum_to_zero; [done|].
    intros i Hi.
    assert (at0 x i = 1) as ->
      by (apply at0_lookup; rewrite Hx; apply lookup_replicate_2; lia).
    assert (at0 x (S i) = 1) as ->
      by (apply at0_lookup; rewrite Hx; apply lookup_replicate_2; lia).
    lra.
Qed.

(** X18. The Rosenbrock function [rosen] is never negative, and on an array
    of two or more elements it vanishes exactly where all the elements are
    one: the minimum that the minimisers of the module are tested on. *)
Theorem rosen_minimum (x : vector) :
  (2 <= length x)%nat →
  0 <= rosen x ∧ (rosen x = 0 ↔ x = replicate (length x) 1).
Proof. intros Hn. split; [apply rosen_nonneg|by apply rosen_zero_iff]. Qed.

Lemma rosen_der_short (x : vector) :
  (length x < 2)%nat → rosen_der x = Raise IndexError.
Proof.
  intros Hn. unfold rosen_der.
  destruct x as [|x0 [|x1 x]]; [done|done|simpl in Hn; lia].
Qed.

Lemma rosen_der_grad (x : vector) :
  (2 <= length x)%nat →
  rosen_der x = Ok (rosen_grad x <$> seq 0 (length x)).
Proof.
  intros Hn. unfold rosen_der. set (n := length x) in *.
  unfold getitem.
  rewrite (lookup_at0 x 0), (lookup_at0 x 1), (lookup_at0 x (n - 1)),
    (lookup_at0 x (n - 2)) by (fold n; lia).
  cbn [mbind result_bind]. f_equal.
  set (mid := zip_with Rminus _ _).
  assert (length mid = (n - 2)%nat) as Hlm.
  { subst mid.
    rewrite !length_zip_with, !length_fmap, !length_zip_with, !length_fmap,
      !length_take, !length_drop.
    fold n. lia. }
  assert (∀ i, (i < n - 2)%nat →
            mid !! i = Some (200 * (at0 x (S i) - sq (at0 x i))
                             - 400 * (at0 x (S (S i)) - sq (at0 x (S i)))
                               * at0 x (S i)
                             - 2 * (1 - at0 x (S i)))) as Hmid.
  { intros i Hi. subst mid.
    rewrite !lookup_zip_with, !list_lookup_fmap, !lookup_zip_with,
      !list_lookup_fmap, !lookup_take_lt, !lookup_drop by done.
    rewrite (lookup_at0 x (1 + i)), (lookup_at0 x i), (lookup_at0 x (2 + i))
      by (fold n; lia).
    done. }
  apply list_eq. intros j. rewrite list_lookup_fmap.
  destruct (decide (j < n)%nat) as [Hj|Hj].
  - rewrite lookup_seq_lt by done. cbn [fmap option_fmap option_map plus].
    unfold rosen_grad. fold n.
    destruct (decide (j = n - 1)%nat) as [->|Hlast].
    + rewrite list_lookup_insert_eq
        by (rewrite length_insert, length_inserts, length_replicate; lia).
      f_equal.
      replace (0 <? n - 1)%nat with true by (symmetry; apply Nat.ltb_lt; lia).
      replace (S (n - 1) <? n)%nat with false
        by (symmetry; apply Nat.ltb_ge; lia).
      replace (n - 1 - 1)%nat with (n - 2)%nat by lia. unfold sq. lra.
    + rewrite list_lookup_insert_ne by lia.
      replace (S j <? n)%nat with true by (symmetry; apply Nat.ltb_lt; lia).
      destruct j as [|j].
      * rewrite list_lookup_insert_eq
          by (rewrite length_inserts, length_replicate; lia).
        f_equal. cbn [Nat.ltb Nat.leb]. unfold sq. lra.
      * rewrite list_lookup_insert_ne by lia.
        rewrite list_lookup_inserts
          by (rewrite ?length_replicate, ?Hlm; lia).
        replace (S j - 1)%nat with j by lia. rewrite Hmid by lia.
        f_equal. cbn [Nat.ltb Nat.leb]. replace (S j - 1)%nat with j by lia.
        unfold sq. lra.
  - rewrite lookup_seq_ge by lia. cbn.
    apply lookup_ge_None.
    rewrite !length_insert, length_inserts, length_replicate. lia.
Qed.

Lemma at0_insert (x : vector) (k j : nat) (v : R) :
  (k < length x)%nat →
  at0 (<[k := v]> x) j = if Nat.eqb k j then v else at0 x j.
Proof.
  intros Hk. unfold at0. destruct (Nat.eqb_spec k j) as [<-|Hne].
  - by rewrite list_lookup_insert_eq.
  - by rewrite list_lookup_insert_ne.
Qed.

(** The Rosenbrock function along one coordinate: a polynomial in the
    displacement [t] whose linear coefficient is [rosen_grad x k]. *)
Lemma rosen_along_coordinate (x : vector) (k : nat) (t : R) :
  (k < length x)%nat →
  rosen (<[k := at0 x k + t]> x) =
    rosen x + t * rosen_grad x k + t ^ 2 * rosen_rest x k t.
Proof.
  intros Hk. rewrite !rosen_sum_to, length_insert.
  set (n := length x) in *.
  set (T := λ y i, 100 * (at0 y (S i) - at0 y i ^ 2) ^ 2 + (1 - at0 y i) ^ 2).
  set (A := 200 * t * (at0 x k - at0 x (k - 1) ^ 2) + 100 * t ^ 2).
  set (B := t * (- 400 * (at0 x (S k) - at0 x k ^ 2) * at0 x k
                 - 2 * (1 - at0 x k))
            + t ^ 2 * (100 * (4 * at0 x k ^ 2
                              - 2 * (at0 x (S k) - at0 x k ^ 2)) + 1
                       + 400 * at0 x k * t + 100 * t ^ 2)).
  assert (∀ i, (i < n - 1)%nat →
            T (<[k := at0 x k + t]> x) i =
              T x i + ((if Nat.eqb (k - 1) i then 1 else 0)
                       * (if (0 <? k)%nat then A else 0)
                       + (if Nat.eqb k i then 1 else 0) * B)) as HT.
  { intros i Hi. subst T A B. cbn beta.
    rewrite !at0_insert by done.
    destruct (Nat.eqb_spec k i) as [->|Hki].
    - replace (Nat.eqb i (S i)) with false
        by (symmetry; apply Nat.eqb_neq; lia).
      destruct (Nat.eqb_spec (i - 1) i) as [Heq|_].
      + assert (i = 0%nat) as -> by lia. cbn [Nat.ltb Nat.leb]. ring.
      + ring.
    - destruct (Nat.eqb_spec k (S i)) as [->|Hk1].
      + replace (S i - 1)%nat with i by lia. rewrite Nat.eqb_refl.
        cbn [Nat.ltb Nat.leb]. ring.
      + destruct (Nat.eqb_spec (k - 1) i) as [Heq|_]; [|ring].
        assert (k = 0%nat) as -> by lia. cbn [Nat.ltb Nat.leb]. ring. }
  fold (T (<[k := at0 x k + t]> x)). fold (T x).
  rewrite (sum_to_ext _ _ _ HT), sum_to_plus, sum_to_plus.
  unfold rosen_grad, rosen_rest. fold n.
  assert (sum_to (n - 1) (λ i, (if Nat.eqb (k - 1) i then 1 else 0)
                               * (if (0 <? k)%nat then A else 0))
          = if (0 <? k)%nat then A else 0) as ->.
  { destruct (Nat.ltb_spec 0 k) as [Hpos|Hz].
    - by rewrite (sum_to_delta_l (n - 1) (k - 1) (λ _, A)) by lia.
    - rewrite (sum_to_ext _ _ (λ _, 0)), sum_to_zero; [done|].
      intros; lra. }
  assert (sum_to (n - 1) (λ i, (if Nat.eqb k i then 1 else 0) * B)
          = if (S k <? n)%nat then B else 0) as ->.
  { destruct (Nat.ltb_spec (S k) n) as [Hlt|Hge].
    - by rewrite (sum_to_delta_l (n - 1) k (λ _, B)) by lia.
    - rewrite (sum_to_ext _ _ (λ _, 0)), sum_to_zero; [done|].
      intros i Hi. destruct (Nat.eqb_spec k i); [lia|lra]. }
  subst A B.
  destruct (0 <? k)%nat, (S k <? n)%nat; ring.
Qed.

(** X19. [rosen_der] returns the gradient of [rosen]: on an array of two or
    more elements it returns an array of the same length whose element [k]
    is the derivative of the Rosenbrock function in [x[k]], the linear
    coefficient of the polynomial that [rosen] is along that coordinate; it
    vanishes at the minimum, where all elements are one. *)
Theorem rosen_der_gradient (x : vector) :
  (2 <= length x)%nat →
  ∃ g, rosen_der x = Ok g ∧ length g = length x ∧
    (∀ k t, (k < length x)%nat →
       rosen (<[k := at0 x k + t]> x) =
         rosen x + t * at0 g k + t ^ 2 * rosen_rest x k t) ∧
    (∀ k, (k < length x)%nat →
       derivable_pt_lim (λ t, rosen (<[k := t]> x)) (at0 x k) (at0 g k)) ∧
    (x = replicate (length x) 1 → g = replicate (length x) 0).
Proof.
  intros Hn. exists (rosen_grad x <$> seq 0 (length x)).
  split; [by apply rosen_der_grad|].
  split; [by rewrite length_fmap, length_seq|].
  assert (∀ k, (k < length x)%nat →
            at0 (rosen_grad x <$> seq 0 (length x)) k = rosen_grad x k) as Hg.
  { intros k Hk. apply at0_lookup.
    by rewrite list_lookup_fmap, lookup_seq_lt. }
  split; [|split].
  - intros k t Hk. rewrite Hg by done. by apply rosen_along_coordinate.
  - intros k Hk. rewrite Hg by done.
    intros eps Heps.
    set (M := Rabs (rosen_rest x k 0) + 400 * Rabs (at0 x k) + 100).
    assert (0 < M) as HM
      by (subst M; pose proof (Rabs_pos (rosen_rest x k 0));
          pose proof (Rabs_pos (at0 x k)); lra).
    assert (0 < Rmin 1 (eps / M)) as Hd.
    { apply Rmin_glb_lt; [lra|]. by apply Rdiv_lt_0_compat. }
    exists (mkposreal _ Hd). cbn [pos]. intros h Hh0 Hh.
    replace (rosen (<[k := at0 x k]> x)) with (rosen x)
      by (f_equal; symmetry; apply list_insert_id, lookup_at0, Hk).
    rewrite (rosen_along_coordinate x k h Hk).
    replace ((rosen x + h * rosen_grad x k + h ^ 2 * rosen_rest x k h
              - rosen x) / h - rosen_grad x k)
      with (h * rosen_rest x k h) by (field; done).
    assert (Rabs h < 1) as Hh1 by (eapply Rlt_le_trans; [exact Hh|apply Rmin_l]).
    assert (Rabs h < eps / M) as Hh2
      by (eapply Rlt_le_trans; [exact Hh|apply Rmin_r]).
    assert (Rabs (rosen_rest x k h) <= M) as Hrest.
    { assert (rosen_rest x k h =
                rosen_rest x k 0 +
                (if (S k <? length x)%nat
                 then 400 * (at0 x k * h) + 100 * (h * h) else 0)) as ->
        by (unfold rosen_rest;
            destruct (0 <? k)%nat, (S k <? length x)%nat; ring).
      eapply Rle_trans; [apply Rabs_triang|]. unfold M.
      pose proof (Rabs_pos (at0 x k)). pose proof (Rabs_pos h).
      destruct (S k <? length x)%nat; [|rewrite Rabs_R0; lra].
      eapply Rle_trans; [apply Rplus_le_compat_l, Rabs_triang|].
      rewrite !Rabs_mult, (Rabs_pos_eq 400), (Rabs_pos_eq 100) by lra.
      nra. }
    rewrite Rabs_mult.
    apply Rle_lt_trans with (Rabs h * M).
    + apply Rmult_le_compat_l; [apply Rabs_pos|done].
    + apply Rmult_lt_reg_r with (/ M); [by apply Rinv_0_lt_compat|].
      replace (Rabs h * M * / M) with (Rabs h) by (field; lra).
      exact Hh2.
  - intros Hx. apply list_eq. intros k. rewrite list_lookup_fmap.
    destruct (decide (k < length x)%nat) as [Hk|Hk].
    + rewrite lookup_seq_lt, lookup_replicate_2 by done.
      cbn [fmap option_fmap option_map plus]. f_equal. unfold rosen_grad.
      assert (∀ j, (j < length x)%nat → at0 x j = 1) as Hone
        by (intros j Hj; apply at0_lookup; rewrite Hx;
            by apply lookup_replicate_2).
      destruct (Nat.ltb_spec 0 k), (Nat.ltb_spec (S k) (length x));
        rewrite ?Hone by lia; lra.
    + rewrite lookup_seq_ge by lia. symmetry.
      apply lookup_replicate_None. lia.
Qed.

Ltac list3 x x0 x1 x2 H :=
  destruct x as [|x0 [|x1 [|x2 [|? ?]]]]; try discriminate H; clear H.

(** X20. On arrays of three elements, [rosen3_hess] returns the Hessian of
    [rosen] and [rosen3_hess_p(x,p)] its product with [p]: the matrix is
    symmetric, and along every direction [p] the Rosenbrock function is the
    polynomial in [t] whose linear coefficient is [rosen_der(x).p] and whose
    quadratic coefficient is half of [p.rosen3_hess_p(x,p)]. *)
Theorem rosen3_hessian (x p : vector) :
  length x = 3%nat → length p = 3%nat →
  ∃ H g,
    rosen3_hess x = Some H ∧ rosen_der x = Ok g ∧
    rosen3_hess_p x p = Some (matvec H p) ∧
    rect 3 3 H ∧ symmetric 3 H ∧
    ∀ t,
      rosen (zip_with Rplus x (Rmult t <$> p)) =
        rosen x + t * dot g p + t ^ 2 / 2 * dot p (matvec H p)
        + t ^ 3 * (- 200 * ((at0 p 1 - 2 * at0 x 0 * at0 p 0) * at0 p 0 ^ 2
                            + (at0 p 2 - 2 * at0 x 1 * at0 p 1) * at0 p 1 ^ 2))
        + t ^ 4 * (100 * (at0 p 0 ^ 4 + at0 p 1 ^ 4)).
Proof.
  intros Hx Hp. list3 x x0 x1 x2 Hx. list3 p p0 p1 p2 Hp.
  eexists _, _. split; [reflexivity|]. split; [reflexivity|].
  split; [|split; [|split]].
  - cbv [rosen3_hess_p matvec fmap list_fmap dot zip_with py_sum foldl].
    do 2 f_equal; [|f_equal; [|f_equal]]; ring.
  - split; [reflexivity|repeat constructor].
  - intros i j Hi Hj.
    destruct i as [|[|[|i]]], j as [|[|[|j]]]; try lia; reflexivity.
  - intros t.
    cbv [rosen matvec fmap list_fmap dot zip_with py_sum foldl drop take
         length Nat.sub sq at0 lookup list_lookup default Datatypes.id
         list_inserts replicate insert list_insert].
    replace 100.0 with 100 by lra. field.
Qed.

(** *** Finite differences *)

Lemma epsilon_pos : 0 < epsilon.
Proof. unfold epsilon. lra. Qed.

Lemma at0_zip_with (f : R → R → R) (u v : vector) (i : nat) :
  (i < length u)%nat → (i < length v)%nat →
  at0 (zip_with f u v) i = f (at0 u i) (at0 v i).
Proof.
  intros Hu Hv. apply at0_lookup.
  by rewrite lookup_zip_with, (lookup_at0 u i), (lookup_at0 v i).
Qed.

Lemma at0_fmap (f : R → R) (u : vector) (i : nat) :
  (i < length u)%nat → at0 (f <$> u) i = f (at0 u i).
Proof.
  intros Hu. apply at0_lookup. by rewrite list_lookup_fmap, (lookup_at0 u i).
Qed.

Lemma at0_unit_vector (n k i : nat) :
  (k < n)%nat → (i < n)%nat →
  at0 (unit_vector n k) i = if Nat.eqb k i then 1 else 0.
Proof.
  intros Hk Hi. unfold unit_vector.
  rewrite at0_insert by (by rewrite length_replicate).
  destruct (Nat.eqb k i); [done|].
  apply at0_lookup. by apply lookup_replicate_2.
Qed.

Lemma length_unit_vector (n k : nat) : length (unit_vector n k) = n.
Proof. unfold unit_vector. by rewrite length_insert, length_replicate. Qed.

Lemma dot_sum_to (u v : vector) :
  length u = length v →
  dot u v = sum_to (length u) (λ i, at0 u i * at0 v i).
Proof.
  intros Hl. unfold dot. rewrite py_sum_at0, length_zip_with_l_eq by done.
  apply sum_to_ext. intros i Hi. apply at0_zip_with; lia.
Qed.

Lemma dot_plus (u v w : vector) :
  length u = length v → length u = length w →
  dot u (zip_with Rplus v w) = dot u v + dot u w.
Proof.
  intros Hv Hw.
  rewrite !dot_sum_to by (rewrite ?length_zip_with_l_eq; congruence).
  rewrite <-sum_to_plus. apply sum_to_ext. intros i Hi.
  rewrite at0_zip_with by lia. lra.
Qed.

Lemma dot_scal (c : R) (u v : vector) :
  length u = length v → dot u (Rmult c <$> v) = c * dot u v.
Proof.
  intros Hv. rewrite !dot_sum_to by (rewrite ?length_fmap; congruence).
  rewrite <-sum_to_scal_l. apply sum_to_ext. intros i Hi.
  rewrite at0_fmap by lia. lra.
Qed.

Lemma dot_unit_vector (a : vector) (k : nat) :
  (k < length a)%nat → dot a (unit_vector (length a) k) = at0 a k.
Proof.
  intros Hk. rewrite dot_sum_to by (by rewrite length_unit_vector).
  rewrite (sum_to_ext _ _ (λ i, at0 a i * (if Nat.eqb i k then 1 else 0))).
  - by rewrite (sum_to_delta_r (length a) k (at0 a)).
  - intros i Hi. rewrite at0_unit_vector by done. by rewrite Nat.eqb_sym.
Qed.

(** The loop of [approx_fprime] after its first [m] iterations: the unit
    vector is reset, the gradient is filled up to [m]. *)
Lemma approx_fprime_loop (xk : vector) (f : vector → R) (m : nat) :
  (m <= length xk)%nat →
  foldl (approx_fprime_step xk f (f xk))
    (replicate (length xk) 0, replicate (length xk) 0) (seq 0 m) =
  ((forward_difference f xk <$> seq 0 m) ++ replicate (length xk - m) 0,
   replicate (length xk) 0).
Proof.
  induction m as [|m IH]; intros Hm.
  { simpl. by rewrite Nat.sub_0_r. }
  rewrite seq_S, foldl_snoc, IH by lia. cbn [plus approx_fprime_step].
  f_equal.
  - rewrite insert_app_r_alt by (rewrite length_fmap, length_seq; lia).
    rewrite length_fmap, length_seq, Nat.sub_diag.
    replace (length xk - m)%nat with (S (length xk - S m)) by lia.
    rewrite fmap_app, <-app_assoc. f_equal.
    cbn [replicate insert list_insert fmap list_fmap app].
    unfold forward_difference, unit_vector.
    replace 1.0 with 1 by lra. done.
  - rewrite list_insert_insert_eq. replace 0.0 with 0 by lra.
    apply list_insert_id, lookup_replicate_2. lia.
Qed.

Lemma approx_fprime_differences (xk : vector) (f : vector → R) :
  approx_fprime xk f = forward_difference f xk <$> seq 0 (length xk).
Proof.
  unfold approx_fprime. rewrite approx_fprime_loop by done.
  by rewrite Nat.sub_diag, app_nil_r.
Qed.

(** X21. [approx_fprime] returns the forward difference quotients of [f]
    along the coordinates, one for each element of [xk]: the unit vector
    that the loop changes in place is reset after each use.  So the
    approximation is exact, in real arithmetic, on an affine function
    [c + a.x]. *)
Theorem approx_fprime_affine (xk a : vector) (c : R) (f : vector → R) :
  length a = length xk →
  (∀ y, length y = length xk → f y = c + dot a y) →
  approx_fprime xk f = forward_difference f xk <$> seq 0 (length xk) ∧
  approx_fprime xk f = a.
Proof.
  intros Ha Hf. split; [apply approx_fprime_differences|].
  rewrite approx_fprime_differences. apply list_eq. intros k.
  rewrite list_lookup_fmap. destruct (decide (k < length xk)%nat) as [Hk|Hk].
  - rewrite lookup_seq_lt, (lookup_at0 a k) by lia.
    cbn [fmap option_fmap option_map plus]. f_equal.
    unfold forward_difference.
    rewrite !Hf
      by (rewrite ?length_zip_with_l_eq;
          rewrite ?length_fmap, ?length_unit_vector; done).
    rewrite dot_plus, dot_scal
      by (rewrite ?length_fmap, ?length_unit_vector; done).
    rewrite <-Ha, dot_unit_vector by lia.
    pose proof epsilon_pos. field. lra.
  - rewrite lookup_seq_ge by lia. symmetry. apply lookup_ge_None. lia.
Qed.

Lemma elementwise1_same (f : R → R → R) (u v : vector) :
  length u = length v → elementwise1 f u v = Ok (zip_with f u v).
Proof. intros Hl. unfold elementwise1. by rewrite bool_decide_eq_true_2. Qed.

Lemma at0_matvec (n : nat) (A : matrix) (p : vector) (i : nat) :
  length A = n → (i < n)%nat →
  at0 (matvec A p) i = dot (default [] (A !! i)) p.
Proof.
  intros Hl Hi. apply at0_lookup. unfold matvec.
  rewrite list_lookup_fmap.
  destruct (lookup_lt_is_Some_2 A i) as [r ->]; [lia|]. done.
Qed.

(** X22. [approx_fhess_p] returns the difference quotient of the gradient
    along [p]; on a gradient that is affine, [A.x + b] for a square array
    [A], it is the product [A.p] exactly, in real arithmetic. *)
Theorem approx_fhess_p_affine (n : nat) (A : matrix) (b x0 p : vector)
    (fprime : vector → vector) :
  rect n n A → length b = n → length x0 = n → length p = n →
  (∀ y, length y = n → fprime y = zip_with Rplus (matvec A y) b) →
  approx_fhess_p x0 p fprime = Ok (matvec A p).
Proof.
  intros HA Hb Hx Hp Hf. pose proof HA as [HlA HrA].
  unfold approx_fhess_p, vadd, vsub.
  rewrite elementwise1_same by (rewrite length_fmap; congruence).
  cbn [mbind result_bind].
  assert (length (zip_with Rplus x0 (Rmult epsilon <$> p)) = n) as Hxe
    by (rewrite length_zip_with, length_fmap; lia).
  rewrite (Hf _ Hxe), (Hf x0 Hx).
  assert (∀ y, length (matvec A y) = n) as Hlm
    by (intros y; unfold matvec; by rewrite length_fmap).
  rewrite elementwise1_same by (rewrite !length_zip_with, !Hlm; lia).
  cbn [mbind result_bind]. f_equal. apply list_eq. intros i.
  destruct (decide (i < n)%nat) as [Hi|Hi].
  - rewrite (lookup_at0 (matvec A p) i) by (rewrite Hlm; lia).
    rewrite list_lookup_fmap, !lookup_zip_with.
    rewrite !(lookup_at0 (matvec A _) i), (lookup_at0 b i)
      by (rewrite ?Hlm; lia).
    cbn [mbind option_bind fmap option_fmap option_map]. f_equal.
    rewrite !(at0_matvec n) by done.
    destruct (lookup_lt_is_Some_2 A i) as [r Hr]; [lia|]. rewrite Hr.
    cbn [default Datatypes.id]. pose proof (rect_row _ _ _ _ _ HA Hr) as Hlr.
    rewrite dot_plus, dot_scal by (rewrite ?length_fmap; congruence).
    pose proof epsilon_pos. field. lra.
  - rewrite (lookup_ge_None_2 (matvec A p)) by (rewrite Hlm; lia).
    apply lookup_ge_None.
    rewrite length_fmap, !length_zip_with, !Hlm. lia.
Qed.

(** *** The backtracking line search *)

Lemma line_search_loop_returns (fuel : nat) (f : vector → R) (xk pk : vector)
    (c1 phi0 derphi0 alpha0 alpha1 phi_a0 phi_a1 : R) (fc : Z)
    (alpha : R) (fc' gc : Z) :
  line_search_loop fuel f xk pk c1 phi0 derphi0 alpha0 alpha1 phi_a0 phi_a1 fc
    = Ok (Some (alpha, fc', gc)) →
  gc = 0%Z ∧ (fc < fc' <= fc + Z.of_nat fuel)%Z ∧
  ∃ x, vadd xk (Rmult alpha <$> pk) = Ok x ∧
       f x <= phi0 + c1 * alpha * derphi0.
Proof.
  revert alpha0 alpha1 phi_a0 phi_a1 fc.
  induction fuel as [|fuel IH]; intros alpha0 alpha1 phi_a0 phi_a1 fc;
    [done|].
  cbn [line_search_loop].
  bind_case a.
  bind_case b.
  bind_case alpha2.
  bind_case_eq x2 Hx2.
  destruct (Rle_dec (f x2) (phi0 + c1 * alpha2 * derphi0)) as [Hle|_].
  - intros [= <- <- <-]. split; [done|]. split; [lia|]. by exists x2.
  - bind_case halve. intros Hrest.
    apply IH in Hrest as (-> & Hfc & Hx). split; [done|]. split; [lia|done].
Qed.

Lemma line_search_loop_fuel (fuel extra : nat) (f : vector → R)
    (xk pk : vector)
    (c1 phi0 derphi0 alpha0 alpha1 phi_a0 phi_a1 : R) (fc : Z)
    (r : R * Z * Z) :
  line_search_loop fuel f xk pk c1 phi0 derphi0 alpha0 alpha1 phi_a0 phi_a1 fc
    = Ok (Some r) →
  line_search_loop (fuel + extra) f xk pk c1 phi0 derphi0 alpha0 alpha1
    phi_a0 phi_a1 fc = Ok (Some r).
Proof.
  revert alpha0 alpha1 phi_a0 phi_a1 fc.
  induction fuel as [|fuel IH]; intros alpha0 alpha1 phi_a0 phi_a1 fc;
    [done|].
  cbn [line_search_loop plus].
  bind_case a.
  bind_case b.
  bind_case alpha2.
  bind_case x2.
  destruct (Rle_dec _ _); [done|].
  bind_case halve. apply IH.
Qed.

Lemma line_search_BFGS_returns (fuel : nat) (f : vector → R)
    (xk pk gfk : vector) (c1 alpha0 alpha : R) (fc gc : Z) :
  line_search_BFGS fuel f xk pk gfk c1 alpha0 = Ok (Some (alpha, fc, gc)) →
  gc = 0%Z ∧ (2 <= fc <= 3 + Z.of_nat fuel)%Z ∧
  (∃ x derphi0,
     vadd xk (Rmult alpha <$> pk) = Ok x ∧ vdot gfk pk = Ok derphi0 ∧
     f x <= f xk + c1 * alpha * derphi0) ∧
  (∀ extra,
     line_search_BFGS (fuel + extra) f xk pk gfk c1 alpha0
       = Ok (Some (alpha, fc, gc))).
Proof.
  unfold line_search_BFGS.
  bind_case_eq x0 Hx0.
  bind_case_eq derphi0 Hd.
  destruct (Rle_dec (f x0) _) as [Hle|_].
  { intros [= <- <- <-]. split; [done|]. split; [lia|].
    split; [by exists x0, derphi0|done]. }
  bind_case alpha1.
  bind_case_eq x1 Hx1.
  destruct (Rle_dec (f x1) _) as [Hle|_].
  { intros [= <- <- <-]. split; [done|]. split; [lia|].
    split; [by exists x1, derphi0|done]. }
  intros Hloop. pose proof Hloop as (-> & Hfc & x & Hx & Hle)%line_search_loop_returns.
  split; [done|]. split; [lia|]. split; [by exists x, derphi0|].
  intros extra. by apply line_search_loop_fuel.
Qed.


End optimize_extra.

Section optimize_extra_examples.
Import NumWrap optimize Props.

Example rosen_der_ones : rosen_der [1; 1; 1] = Ok [0; 0; 0].
Proof.
  rewrite rosen_der_grad by (simpl; lia).
  cbv [length seq fmap list_fmap rosen_grad at0 lookup list_lookup default
       Datatypes.id Nat.ltb Nat.leb Nat.sub].
  repeat f_equal; lra.
Qed.

(** A step of length 1 along [-10] from [1] overshoots the minimum of the
    square; the minimiser of the quadratic interpolant, [0.1], is returned
    after three evaluations. *)
Example line_search_BFGS_square :
  line_search_BFGS 0 (λ x, at0 x 0 ^ 2) [1] [-10] [2] 1e-4 1
    = Ok (Some (0.1, 3%Z, 0%Z)).
Proof.
  unfold line_search_BFGS, vadd, vdot.
  rewrite elementwise1_same by reflexivity.
  rewrite bool_decide_eq_true_2 by reflexivity.
  cbv [mbind result_bind fmap list_fmap zip_with dot py_sum foldl at0 lookup
       list_lookup default Datatypes.id].
  destruct (Rle_dec _ _) as [Hle|_]; [exfalso; lra|].
  unfold fdiv. destruct (Req_dec_T _ _) as [Hz|_]; [exfalso; lra|].
  cbv [mbind result_bind].
  rewrite elementwise1_same by reflexivity.
  cbv [mbind result_bind fmap list_fmap zip_with at0 lookup list_lookup
       default Datatypes.id].
  destruct (Rle_dec _ _) as [_|Hn].
  - do 4 f_equal. lra.
  - exfalso. apply Hn. lra.
Qed.

Lemma rosen_minimum_witness :
  0 <= rosen [1; 1; 1] ∧ (rosen [1; 1; 1] = 0 ↔ [1; 1; 1] = replicate 3 1).
Proof. apply (rosen_minimum [1; 1; 1]). simpl. lia. Defined.

Lemma rosen_der_gradient_witness :
  ∃ g, rosen_der [0.8; 1.2; 0.7] = Ok g ∧ length g = 3%nat ∧
    (∀ k t, (k < 3)%nat →
       rosen (<[k := at0 [0.8; 1.2; 0.7] k + t]> [0.8; 1.2; 0.7]) =
         rosen [0.8; 1.2; 0.7] + t * at0 g k
         + t ^ 2 * rosen_rest [0.8; 1.2; 0.7] k t) ∧
    (∀ k, (k < 3)%nat →
       derivable_pt_lim (λ t, rosen (<[k := t]> [0.8; 1.2; 0.7]))
         (at0 [0.8; 1.2; 0.7] k) (at0 g k)) ∧
    ([0.8; 1.2; 0.7] = replicate 3 1 → g = replicate 3 0).
Proof. apply (rosen_der_gradient [0.8; 1.2; 0.7]). simpl. lia. Defined.

Lemma rosen3_hessian_witness :
  ∃ H g,
    rosen3_hess [0.8; 1.2; 0.7] = Some H ∧
    rosen_der [0.8; 1.2; 0.7] = Ok g ∧
    rosen3_hess_p [0.8; 1.2; 0.7] [1; 0; 0] = Some (matvec H [1; 0; 0]) ∧
    rect 3 3 H ∧ symmetric 3 H.
Proof.
  destruct (rosen3_hessian [0.8; 1.2; 0.7] [1; 0; 0] eq_refl eq_refl)
    as (H & g & HH & Hg & Hp & Hr & Hs & _).
  by exists H, g.
Defined.

Lemma approx_fprime_affine_witness :
  approx_fprime [1; 1] (λ y, 3 + dot [2; 5] y) =
    forward_difference (λ y, 3 + dot [2; 5] y) [1; 1] <$> seq 0 2 ∧
  approx_fprime [1; 1] (λ y, 3 + dot [2; 5] y) = [2; 5].
Proof.
  apply (approx_fprime_affine [1; 1] [2; 5] 3 (λ y, 3 + dot [2; 5] y)).
  - reflexivity.
  - reflexivity.
Defined.

Lemma approx_fhess_p_affine_witness :
  approx_fhess_p [1; 1] [1; 0]
      (λ y, zip_with Rplus (matvec [[2; 1]; [1; 3]] y) [0; 0])
    = Ok (matvec [[2; 1]; [1; 3]] [1; 0]).
Proof.
  apply (approx_fhess_p_affine 2 [[2; 1]; [1; 3]] [0; 0]).
  - split; [reflexivity|repeat constructor].
  - reflexivity.
  - reflexivity.
  - reflexivity.
  - reflexivity.
Defined.


End optimize_extra_examples.

(** ** optimize: the quasi-Newton minimiser *)

Section bfgs_extra.
Import NumWrap optimize Props.

Lemma vec_ext (n : nat) (u v : vector) :
  length u = n → length v = n →
  (∀ i, (i < n)%nat → at0 u i = at0 v i) → u = v.
Proof.
  intros Hu Hv Hent. apply list_eq. intros i.
  destruct (decide (i < n)%nat) as [Hi|Hi].
  - rewrite (lookup_at0 u i), (lookup_at0 v i) by lia. f_equal. by apply Hent.
  - by rewrite !lookup_ge_None_2 by lia.
Qed.

Lemma length_matvec (A : matrix) (v : vector) :
  length (matvec A v) = length A.
Proof. unfold matvec. by rewrite length_fmap. Qed.

Lemma at0_matvec_sum (n : nat) (A : matrix) (v : vector) (i : nat) :
  rect n n A → length v = n → (i < n)%nat →
  at0 (matvec A v) i = sum_to n (λ j, ent A i j * at0 v j).
Proof.
  intros HA Hv Hi. pose proof HA as [HlA _].
  rewrite (at0_matvec n) by done.
  destruct (lookup_lt_is_Some_2 A i) as [r Hr]; [lia|]. rewrite Hr.
  cbn [default Datatypes.id]. pose proof (rect_row _ _ _ _ _ HA Hr) as Hlr.
  rewrite dot_sum_to, Hlr by congruence.
  apply sum_to_ext. intros j Hj. by rewrite (ent_row _ _ _ _ Hr).
Qed.

Lemma rect_outer (u v : vector) : rect (length u) (length v) (outer u v).
Proof.
  unfold outer. split; [by rewrite length_fmap|].
  apply Forall_fmap, Forall_forall. intros a _. simpl.
  by rewrite length_fmap.
Qed.

Lemma ent_outer (u v : vector) (i j : nat) :
  (i < length u)%nat → (j < length v)%nat →
  ent (outer u v) i j = at0 u i * at0 v j.
Proof.
  intros Hi Hj. unfold ent, outer.
  rewrite list_lookup_fmap, (lookup_at0 u i) by done. simpl.
  by rewrite list_lookup_fmap, (lookup_at0 v j) by done.
Qed.

Lemma mdot_rect (n : nat) (A : matrix) (v : vector) :
  rect n n A → length v = n → mdot A v = Ok (matvec A v).
Proof.
  intros [_ HA] Hv. unfold mdot. rewrite bool_decide_eq_true_2; [done|].
  by rewrite Hv.
Qed.

Lemma matvec_mplus (n : nat) (A B : matrix) (v : vector) :
  rect n n A → rect n n B → length v = n →
  matvec (mplus A B) v = zip_with Rplus (matvec A v) (matvec B v).
Proof.
  intros HA HB Hv. pose proof HA as [HlA _]. pose proof HB as [HlB _].
  apply (vec_ext n).
  - rewrite length_matvec. by apply (rect_mplus n n).
  - rewrite length_zip_with, !length_matvec. lia.
  - intros i Hi.
    rewrite at0_zip_with by (rewrite length_matvec; lia).
    rewrite !(at0_matvec_sum n) by (done || rect).
    rewrite <-sum_to_plus. apply sum_to_ext. intros j Hj.
    rewrite (ent_mplus n n) by done. lra.
Qed.

Lemma matvec_mminus (n : nat) (A B : matrix) (v : vector) :
  rect n n A → rect n n B → length v = n →
  matvec (mminus A B) v = zip_with Rminus (matvec A v) (matvec B v).
Proof.
  intros HA HB Hv. pose proof HA as [HlA _]. pose proof HB as [HlB _].
  apply (vec_ext n).
  - rewrite length_matvec. by apply (rect_mminus n n).
  - rewrite length_zip_with, !length_matvec. lia.
  - intros i Hi.
    rewrite at0_zip_with by (rewrite length_matvec; lia).
    rewrite !(at0_matvec_sum n) by (done || rect).
    rewrite <-sum_to_minus. apply sum_to_ext. intros j Hj.
    rewrite (ent_mminus n n) by done. lra.
Qed.

Lemma matvec_scal (n : nat) (c : R) (A : matrix) (v : vector) :
  rect n n A → length v = n →
  matvec (scal c A) v = Rmult c <$> matvec A v.
Proof.
  intros HA Hv. pose proof HA as [HlA _].
  apply (vec_ext n).
  - rewrite length_matvec. by apply (rect_scal _ n n).
  - by rewrite length_fmap, length_matvec.
  - intros i Hi. rewrite at0_fmap by (rewrite length_matvec; lia).
    rewrite !(at0_matvec_sum n) by (done || rect).
    rewrite <-sum_to_scal_l. apply sum_to_ext. intros j Hj.
    rewrite (ent_scal _ n n) by done. lra.
Qed.

Lemma matvec_identity (n : nat) (v : vector) :
  length v = n → matvec (identity n) v = v.
Proof.
  intros Hv. apply (vec_ext n); [|done|].
  - rewrite length_matvec. apply rect_identity.
  - intros i Hi. rewrite (at0_matvec_sum n) by (done || rect).
    rewrite (sum_to_ext _ _ (λ j, (if Nat.eqb i j then 1 else 0) * at0 v j)).
    + by rewrite (sum_to_delta_l n i (at0 v)).
    + intros j Hj. by rewrite ent_identity.
Qed.

Lemma matvec_mmul (n : nat) (A B : matrix) (v : vector) :
  rect n n A → rect n n B → length v = n →
  matvec (mmul A B) v = matvec A (matvec B v).
Proof.
  intros HA HB Hv. pose proof HA as [HlA _]. pose proof HB as [HlB _].
  apply (vec_ext n).
  - rewrite length_matvec. by apply (rect_mmul n).
  - by rewrite length_matvec.
  - intros i Hi.
    rewrite !(at0_matvec_sum n) by (rewrite ?length_matvec; done || rect).
    rewrite (sum_to_ext n _ (λ j, sum_to n (λ k,
               ent A i k * ent B k j * at0 v j))).
    2:{ intros j Hj. rewrite (ent_mmul n) by done.
        by rewrite sum_to_scal_r. }
    rewrite sum_to_swap. apply sum_to_ext. intros k Hk.
    rewrite (at0_matvec_sum n) by done.
    rewrite <-sum_to_scal_l. apply sum_to_ext. intros; lra.
Qed.

Lemma matvec_outer (n : nat) (u w v : vector) :
  length u = n → length w = n → length v = n →
  matvec (outer u w) v = (λ a, a * dot w v) <$> u.
Proof.
  intros Hu Hw Hv. apply (vec_ext n).
  - by rewrite length_matvec, (proj1 (rect_outer u w)).
  - by rewrite length_fmap.
  - intros i Hi. rewrite at0_fmap by lia.
    pose proof (rect_outer u w) as Hr. rewrite Hu, Hw in Hr.
    rewrite (at0_matvec_sum n) by done.
    rewrite dot_sum_to, Hw by congruence. rewrite <-sum_to_scal_l.
    apply sum_to_ext. intros j Hj. rewrite ent_outer by lia. lra.
Qed.

Lemma matvec_zero (n : nat) (A : matrix) (v : vector) :
  rect n n A → length v = n → (∀ i, (i < n)%nat → at0 v i = 0) →
  matvec A v = replicate n 0.
Proof.
  intros HA Hv Hz. pose proof HA as [HlA _]. apply (vec_ext n).
  - by rewrite length_matvec.
  - by rewrite length_replicate.
  - intros i Hi. rewrite (at0_matvec_sum n) by done.
    rewrite (at0_lookup (replicate n 0) i 0) by (by apply lookup_replicate_2).
    rewrite (sum_to_ext _ _ (λ _, 0)), sum_to_zero; [done|].
    intros j Hj. rewrite Hz by done. lra.
Qed.

Lemma elementwise1_Ok_length (f : R → R → R) (u v w : vector) :
  length u = length v → elementwise1 f u v = Ok w →
  w = zip_with f u v ∧ length w = length u.
Proof.
  intros Hl. rewrite elementwise1_same by done. intros [= <-].
  split; [done|]. rewrite length_zip_with. lia.
Qed.

Lemma vadd_same (u v : vector) :
  length u = length v → vadd u v = Ok (zip_with Rplus u v).
Proof. apply elementwise1_same. Qed.

Lemma vsub_same (u v : vector) :
  length u = length v → vsub u v = Ok (zip_with Rminus u v).
Proof. apply elementwise1_same. Qed.

Lemma vdot_Ok (u v : vector) (d : R) :
  vdot u v = Ok d → length u = length v ∧ d = dot u v.
Proof.
  unfold vdot. destruct (decide (length u = length v)) as [Hl|Hl].
  - rewrite bool_decide_eq_true_2 by done. by intros [= <-].
  - by rewrite bool_decide_eq_false_2.
Qed.

Lemma dot_comm (u v : vector) : dot u v = dot v u.
Proof.
  unfold dot. f_equal. revert v.
  induction u as [|a u IH]; intros [|b v]; simpl; [done..|].
  f_equal; [lra|apply IH].
Qed.

Lemma rect_outer_n (n : nat) (u v : vector) :
  length u = n → length v = n → rect n n (outer u v).
Proof. intros <- Hv. rewrite <-Hv at 2. apply rect_outer. Qed.

#[local] Hint Resolve rect_outer_n : rect.

Lemma rect_bfgs_inverse_update (n : nat) (Hk : matrix) (sk yk : vector) :
  rect n n Hk → length sk = n → length yk = n →
  rect n n (bfgs_inverse_update n Hk sk yk).
Proof.
  intros HH Hs Hy. unfold bfgs_inverse_update.
  assert (length (Rmult (1 / dot yk sk) <$> sk) = n)
    by (by rewrite length_fmap).
  rect.
Qed.

(** The secant equation: the updated inverse Hessian maps the change of the
    gradient to the step. *)
Lemma bfgs_inverse_update_secant (n : nat) (Hk : matrix) (sk yk : vector) :
  rect n n Hk → length sk = n → length yk = n → dot yk sk ≠ 0 →
  matvec (bfgs_inverse_update n Hk sk yk) yk = sk.
Proof.
  intros HH Hs Hy Hd. unfold bfgs_inverse_update.
  set (rho := 1 / dot yk sk).
  assert (rho * dot sk yk = 1) as Hrho
    by (subst rho; rewrite (dot_comm sk yk); field; done).
  assert (length (Rmult rho <$> sk) = n) as Hrs by (by rewrite length_fmap).
  set (A2 := mminus (identity n) (scal rho (outer yk sk))).
  assert (rect n n A2) as HA2 by (subst A2; rect).
  assert (matvec A2 yk = replicate n 0) as HA2y.
  { apply (vec_ext n); [by rewrite length_matvec, (proj1 HA2)|
                        by rewrite length_replicate|].
    intros i Hi. subst A2.
    rewrite (matvec_mminus n), (matvec_scal n), (matvec_identity n),
      (matvec_outer n) by (done || rect).
    rewrite at0_zip_with, !at0_fmap
      by (rewrite ?length_fmap; lia).
    rewrite (at0_lookup (replicate n 0) i 0) by (by apply lookup_replicate_2).
    replace (at0 yk i - rho * (at0 yk i * dot sk yk))
      with (at0 yk i * (1 - rho * dot sk yk)) by ring.
    rewrite Hrho. ring. }
  assert (∀ i, (i < n)%nat → at0 (replicate n 0) i = 0) as Hz
    by (intros i Hi; by apply at0_lookup, lookup_replicate_2).
  rewrite (matvec_mplus n), !(matvec_mmul n), HA2y by (done || rect).
  rewrite (matvec_zero n Hk), (matvec_zero n), (matvec_outer n)
    by (rewrite ?length_replicate; done || rect).
  apply (vec_ext n); [|done|].
  - rewrite length_zip_with, length_replicate, length_fmap. lia.
  - intros i Hi.
    rewrite at0_zip_with, Hz, !at0_fmap
      by (rewrite ?length_replicate, ?length_fmap; lia).
    replace (0 + rho * at0 sk i * dot sk yk)
      with (at0 sk i * (rho * dot sk yk)) by ring.
    rewrite Hrho. ring.
Qed.

(** The update keeps the inverse Hessian symmetric. *)
Lemma bfgs_inverse_update_symmetric (n : nat) (Hk : matrix) (sk yk : vector) :
  rect n n Hk → length sk = n → length yk = n → symmetric n Hk →
  symmetric n (bfgs_inverse_update n Hk sk yk).
Proof.
  intros HH Hs Hy Hsym. unfold bfgs_inverse_update.
  set (rho := 1 / dot yk sk).
  assert (length (Rmult rho <$> sk) = n) as Hrs by (by rewrite length_fmap).
  set (A1 := mminus (identity n) (scal rho (outer sk yk))).
  set (A2 := mminus (identity n) (scal rho (outer yk sk))).
  assert (rect n n A1) as HA1 by (subst A1; rect).
  assert (rect n n A2) as HA2 by (subst A2; rect).
  assert (∀ l j, (l < n)%nat → (j < n)%nat → ent A2 l j = ent A1 j l) as Ht.
  { intros l j Hl Hj. subst A1 A2.
    rewrite !(ent_mminus n n), !(ent_scal _ n n), !ent_identity, !ent_outer
      by (rect || lia).
    rewrite (Nat.eqb_sym l j). ring. }
  assert (∀ i j, (i < n)%nat → (j < n)%nat →
            ent (mmul A1 (mmul Hk A2)) i j =
              sum_to n (λ k, sum_to n (λ l,
                ent A1 i k * ent Hk k l * ent A1 j l))) as HT.
  { intros i j Hi Hj. rewrite (ent_mmul n) by rect.
    apply sum_to_ext. intros k Hk'. rewrite (ent_mmul n) by rect.
    rewrite <-sum_to_scal_l. apply sum_to_ext. intros l Hl.
    rewrite Ht by done. ring. }
  intros i j Hi Hj.
  rewrite !(ent_mplus n n), !HT, !ent_outer, !at0_fmap by (rect || lia).
  f_equal; [|ring].
  rewrite sum_to_swap. apply sum_to_ext. intros k Hk'.
  apply sum_to_ext. intros l Hl. rewrite (Hsym l k) by done. ring.
Qed.

(** What an iteration of [fminBFGS] that returns has computed. *)
Lemma fminBFGS_step_ok (f : vector → R) (fprime : option (vector → vector))
    (fuel N : nat) (st st' : bfgs_state) :
  length (b_xk st) = N → rect N N (b_Hk st) →
  fminBFGS_step f fprime fuel N (identity N) st = Ok (Some st') →
  ∃ alpha fc gc yk,
    let pk := Ropp <$> matvec (b_Hk st) (b_gfk st) in
    let sk := zip_with Rminus (b_xk st') (b_xk st) in
    length (b_gfk st) = N ∧
    line_search_BFGS fuel f (b_xk st) pk (b_gfk st) 1e-4 1
      = Ok (Some (alpha, fc, gc)) ∧
    b_xk st' = zip_with Rplus (b_xk st) (Rmult alpha <$> pk) ∧
    length (b_xk st') = N ∧ length sk = N ∧
    b_gfk st' = bfgs_gradient f fprime (b_xk st') ∧
    vsub (b_gfk st') (b_gfk st) = Ok yk ∧ length yk = N ∧
    dot yk sk ≠ 0 ∧
    b_Hk st' = bfgs_inverse_update N (b_Hk st) sk yk ∧
    b_k st' = (b_k st + 1)%Z.
Proof.
  intros Hlx HH. pose proof HH as [HlH _]. unfold fminBFGS_step.
  bind_case_eq Hg HHg.
  assert (Hg = matvec (b_Hk st) (b_gfk st)) as ->.
  { unfold mdot in HHg. destruct (bool_decide _); by simplify_eq. }
  clear HHg. set (pk := Ropp <$> matvec (b_Hk st) (b_gfk st)).
  assert (length pk = N) as Hlp
    by (subst pk; by rewrite length_fmap, length_matvec).
  bind_case_eq ls Hls. destruct ls as [[[alpha fc] gc]|]; [|done].
  pose proof Hls as (_ & _ & (x & d0 & _ & Hd0 & _) & _)%line_search_BFGS_returns.
  apply vdot_Ok in Hd0 as [Hlg _]. rewrite Hlp in Hlg.
  assert (length (Rmult alpha <$> pk) = N) as Hlap
    by (by rewrite length_fmap).
  rewrite (vadd_same (b_xk st)) by congruence.
  cbn [mbind result_bind].
  set (xkp1 := zip_with Rplus (b_xk st) (Rmult alpha <$> pk)).
  assert (length xkp1 = N) as Hlx1
    by (subst xkp1; rewrite length_zip_with; lia).
  rewrite (vsub_same xkp1 (b_xk st)) by congruence.
  cbn [mbind result_bind].
  set (sk := zip_with Rminus xkp1 (b_xk st)).
  assert (length sk = N) as Hls' by (subst sk; rewrite length_zip_with; lia).
  destruct fprime as [g|]; cbn [bfgs_gradient];
    (bind_case_eq yk Hyk; bind_case_eq d Hd; bind_case_eq rhok Hrho;
     apply vdot_Ok in Hd as [Hly ->]; rewrite Hls' in Hly;
     assert (dot yk sk ≠ 0 ∧ rhok = 1 / dot yk sk) as [Hnz ->]
       by (unfold fdiv in Hrho; destruct (Req_dec_T _ _); by simplify_eq);
     assert (length (Rmult (1 / dot yk sk) <$> sk) = N) as Hlrs
       by (by rewrite length_fmap);
     rewrite !(sub_rect N N) by rect; cbn [mbind result_bind];
     rewrite (matrixmultiply_rect N) by rect; cbn [mbind result_bind];
     rewrite (matrixmultiply_rect N) by rect; cbn [mbind result_bind];
     rewrite (add_rect N N) by rect;
     cbn [mbind result_bind]; intros [= <-];
     exists alpha, fc, gc, yk; cbn [b_xk b_gfk b_Hk b_k];
     by repeat (split; [done|])).
Qed.


Lemma fminBFGS_loop_ok (f : vector → R) (fprime : option (vector → vector))
    (fuel n : nat) (gtol : R) (maxiter : Z) (N : nat) (st st' : bfgs_state) :
  bfgs_invariant f fprime N st → (maxiter <= b_k st + Z.of_nat n)%Z →
  fminBFGS_loop f fprime fuel n gtol maxiter N (identity N) st
    = Ok (Some st') →
  bfgs_invariant f fprime N st' ∧
  (b_k st <= b_k st' <= Z.max (b_k st) maxiter)%Z ∧
  ((maxiter <= b_k st')%Z ∨ py_sum (Rabs <$> b_gfk st') <= gtol).
Proof.
  revert st. induction n as [|n IH]; intros st Hinv Hn; cbn [fminBFGS_loop].
  { intros [= <-]. split; [done|]. split; [lia|]. left. lia. }
  destruct (Rgt_dec _ _) as [Hgt|Hle];
    [|intros [= <-]; split; [done|]; split; [lia|]; right; lra].
  destruct (Z.ltb_spec (b_k st) maxiter) as [Hlt|Hge];
    [|intros [= <-]; split; [done|]; split; [lia|]; by left].
  bind_case_eq r Hstep. destruct r as [st1|]; [|done].
  destruct Hinv as (Hlx & HH & Hsym & Hg).
  destruct (fminBFGS_step_ok f fprime fuel N st st1 Hlx HH Hstep)
    as (alpha & fc & gc & yk & Hlg & Hls & Hx' & Hlx' & Hlsk & Hg' & Hyk
        & Hly & Hnz & HH' & Hk').
  intros Hloop. apply IH in Hloop as (Hinv' & Hk & Hstop).
  - split; [done|]. split; [lia|done].
  - split; [done|]. rewrite HH'.
    split; [by apply rect_bfgs_inverse_update|].
    split; [by apply bfgs_inverse_update_symmetric|done].
  - lia.
Qed.

(** X25. What [fminBFGS] returns: the point has the length of the start, the
    function value is that of the point, and the number of iterations is at
    most [maxiter].  The warning flag is 1 exactly when the number of
    iterations has reached [maxiter], whatever the gradient; when it is 0,
    the sum of the absolute values of the gradient at the point, [fprime]
    or its approximation by differences, is at most [N*avegtol].  Without
    [fulloutput] the same point is returned alone. *)
Theorem fminBFGS_result (f : vector → R) (fprime : option (vector → vector))
    (fuel : nat) (x0 : vector) (avegtol : R) (maxiter : option Z)
    (ret : fmin_return) (logs : list logline) :
  fminBFGS f fprime fuel x0 avegtol maxiter true = Ok (Some (ret, logs)) →
  ∃ xk fc gc k w,
    let m := match maxiter with
             | None => (Z.of_nat (length x0) * 200)%Z
             | Some m => m
             end in
    ret = Full xk (f xk) fc gc w ∧
    logs = [if (w =? 1)%Z then log_maxiter_exceeded else log_success;
            log_fval (f xk); log_iterations k; log_fcalls fc;
            log_gcalls gc] ∧
    length xk = length x0 ∧ (0 <= k <= Z.max 0 m)%Z ∧
    (w = 1%Z ∧ (m <= k)%Z ∨
     w = 0%Z ∧ (k < m)%Z ∧
     py_sum (Rabs <$> bfgs_gradient f fprime xk)
       <= INR (length x0) * avegtol) ∧
    fminBFGS f fprime fuel x0 avegtol maxiter false
      = Ok (Some (Xopt xk, logs)).
Proof.
  unfold fminBFGS.
  set (m := match maxiter with Some m => m | None => _ end).
  set (st0 := match fprime with Some g => _ | None => _ end).
  assert (∃ fc0 gc0,
            st0 = (bfgs_gradient f fprime x0, fc0, gc0)) as (fc0 & gc0 & ->)
    by (subst st0; destruct fprime; by eexists _, _).
  cbn beta iota.
  destruct (fminBFGS_loop _ _ _ _ _ _ _ _ _) as [[st|]|] eqn:Hloop;
    cbn [mbind result_bind]; [|done|done].
  apply fminBFGS_loop_ok in Hloop as ((Hlx & _ & _ & Hg) & Hk & Hstop).
  2:{ unfold bfgs_invariant. cbn [b_xk b_Hk b_gfk].
      split; [done|]. split; [apply rect_identity|]. split; [|done].
      intros i j Hi Hj. rewrite !ent_identity by done.
      by rewrite Nat.eqb_sym. }
  2:{ cbn [b_k]. lia. }
  cbn [b_k] in Hk. rewrite Hg in Hstop.
  destruct (Z.geb_spec (b_k st) m) as [Hge|Hlt]; intros [= <- <-].
  - exists (b_xk st), (b_func_calls st), (b_grad_calls st), (b_k st), 1%Z.
    cbn zeta. split; [done|]. split; [done|]. split; [done|].
    split; [lia|]. split; [left; split; [done|lia]|done].
  - exists (b_xk st), (b_func_calls st), (b_grad_calls st), (b_k st), 0%Z.
    cbn zeta. split; [done|]. split; [done|]. split; [done|].
    split; [lia|]. split; [|done].
    right. split; [done|]. split; [lia|]. destruct Hstop; [lia|done].
Qed.

End bfgs_extra.

Section bfgs_extra_examples.
Import NumWrap optimize Props Examples.

(** From [1] along [-2] the step of length 1 jumps over the minimum of the
    square to [-1]; the minimiser of the quadratic interpolant, [0.5], hits
    it. *)
Example line_search_BFGS_square_half :
  line_search_BFGS 0 square_f [1] [-2] [2] 1e-4 1 = Ok (Some (0.5, 3%Z, 0%Z)).
Proof.
  unfold line_search_BFGS, square_f.
  rewrite vadd_same by reflexivity. unfold vdot.
  rewrite bool_decide_eq_true_2 by reflexivity.
  cbv [mbind result_bind fmap list_fmap zip_with dot py_sum foldl at0 lookup
       list_lookup default Datatypes.id].
  destruct (Rle_dec _ _) as [Hle|_]; [exfalso; lra|].
  unfold fdiv. destruct (Req_dec_T _ _) as [Hz|_]; [exfalso; lra|].
  cbv [mbind result_bind].
  rewrite vadd_same by reflexivity.
  cbv [mbind result_bind fmap list_fmap zip_with at0 lookup list_lookup
       default Datatypes.id].
  destruct (Rle_dec _ _) as [_|Hn].
  - do 4 f_equal. lra.
  - exfalso. apply Hn. lra.
Qed.

(** The first iteration of [fminBFGS] on the square from [1]: the point moves
    to the minimum, and the inverse Hessian becomes [1/2], the inverse of
    the second derivative. *)
Example fminBFGS_step_square :
  fminBFGS_step square_f (Some square_fprime) 0 1 (identity 1) square_start
    = Ok (Some (mkBfgs [0] [0] [[0.5]] 1 3 2)).
Proof.
  unfold fminBFGS_step, square_start. cbn [b_xk b_gfk b_Hk b_k b_func_calls
                                           b_grad_calls].
  rewrite (mdot_rect 1) by (reflexivity || by split; [|repeat constructor]).
  cbn [mbind result_bind].
  assert (Ropp <$> matvec [[1]] [2] = [-2]) as ->
    by (cbv [matvec fmap list_fmap dot zip_with py_sum foldl];
        repeat f_equal; lra).
  rewrite line_search_BFGS_square_half. cbn [mbind result_bind].
  rewrite (vadd_same [1]) by reflexivity. cbn [mbind result_bind].
  assert (zip_with Rplus [1] (Rmult 0.5 <$> [-2]) = [0]) as ->
    by (cbv [fmap list_fmap zip_with]; repeat f_equal; lra).
  rewrite (vsub_same [0] [1]) by reflexivity. cbn [mbind result_bind].
  assert (zip_with Rminus [0] [1] = [-1]) as ->
    by (cbv [zip_with]; repeat f_equal; lra).
  assert (square_fprime [0] = [0]) as ->
    by (cbv [square_fprime at0 lookup list_lookup default Datatypes.id];
        repeat f_equal; lra).
  rewrite (vsub_same [0] [2]) by reflexivity. cbn [mbind result_bind].
  assert (zip_with Rminus [0] [2] = [-2]) as ->
    by (cbv [zip_with]; repeat f_equal; lra).
  unfold vdot. rewrite bool_decide_eq_true_2 by reflexivity.
  cbn [mbind result_bind].
  assert (dot [-2] [-1] = 2) as ->
    by (cbv [dot zip_with py_sum foldl]; lra).
  rewrite fdiv_nonzero by lra. cbn [mbind result_bind].
  assert (rect 1 1 (identity 1)) as HI by apply rect_identity.
  assert (∀ c u v, rect 1 1 (scal c (outer [u] [v]))) as Ho
    by (intros; by split; [|repeat constructor]).
  rewrite !(sub_rect 1 1) by done. cbn [mbind result_bind].
  assert (mminus (identity 1) (scal (1 / 2) (outer [-1] [-2])) = [[0]]) as ->
    by (cbv [mminus mzip zip_with identity mat_of seq fmap list_fmap scal
             outer Nat.eqb]; repeat f_equal; lra).
  assert (mminus (identity 1) (scal (1 / 2) (outer [-2] [-1])) = [[0]]) as ->
    by (cbv [mminus mzip zip_with identity mat_of seq fmap list_fmap scal
             outer Nat.eqb]; repeat f_equal; lra).
  rewrite (matrixmultiply_rect 1)
    by (by split; [|repeat constructor]).
  cbn [mbind result_bind].
  assert (mmul [[1]] [[0]] = [[0]]) as ->
    by (cbv [mmul ncols length seq fmap list_fmap dot column zip_with py_sum
             foldl lookup list_lookup default Datatypes.id];
        repeat f_equal; lra).
  rewrite (matrixmultiply_rect 1)
    by (by split; [|repeat constructor]).
  cbn [mbind result_bind].
  assert (mmul [[0]] [[0]] = [[0]]) as ->
    by (cbv [mmul ncols length seq fmap list_fmap dot column zip_with py_sum
             foldl lookup list_lookup default Datatypes.id];
        repeat f_equal; lra).
  rewrite (add_rect 1 1) by (by split; [|repeat constructor]).
  cbn [mbind result_bind].
  assert (mplus [[0]] (outer (Rmult (1 / 2) <$> [-1]) [-1]) = [[0.5]]) as ->
    by (cbv [mplus mzip zip_with fmap list_fmap outer];
        repeat f_equal; lra).
  done.
Qed.

(** [fminBFGS] on the square from [1] with one iteration granted: the
    iteration reaches the minimum, where the gradient vanishes, and the
    warning of exceeded iterations is logged all the same. *)
Example fminBFGS_square :
  fminBFGS square_f (Some square_fprime) 0 [1] 1e-5 (Some 1%Z) true
    = Ok (Some (Full [0] 0 3 2 1,
                [log_maxiter_exceeded; log_fval 0; log_iterations 1;
                 log_fcalls 3; log_gcalls 2])).
Proof.
  unfold fminBFGS. cbn [length].
  assert (square_fprime [1] = [2]) as ->
    by (cbv [square_fprime at0 lookup list_lookup default Datatypes.id];
        repeat f_equal; lra).
  change (Z.to_nat 1) with 1%nat. cbn [fminBFGS_loop b_gfk b_k].
  destruct (Rgt_dec _ _) as [_|Hn].
  2:{ exfalso. apply Hn. cbv [py_sum fmap list_fmap foldl INR].
      rewrite (Rabs_pos_eq 2) by lra. lra. }
  cbn [Z.ltb Z.compare].
  change (mkBfgs [1] [2] (identity 1) 0 0 (0 + 1)) with square_start.
  rewrite fminBFGS_step_square. cbn [mbind result_bind b_xk b_k b_func_calls
                                     b_grad_calls Z.geb Z.compare Pos.compare
                                     Pos.compare_cont].
  assert (square_f [0] = 0) as ->
    by (cbv [square_f at0 lookup list_lookup default Datatypes.id]; lra).
  done.
Qed.


Lemma fminBFGS_result_witness :
  ∃ xk fc gc k w,
    Full [0] 0 3 2 1 = Full xk (square_f xk) fc gc w ∧
    [log_maxiter_exceeded; log_fval 0; log_iterations 1; log_fcalls 3;
     log_gcalls 2]
      = [if (w =? 1)%Z then log_maxiter_exceeded else log_success;
         log_fval (square_f xk); log_iterations k; log_fcalls fc;
         log_gcalls gc] ∧
    length xk = 1%nat ∧ (0 <= k <= Z.max 0 1)%Z ∧
    (w = 1%Z ∧ (1 <= k)%Z ∨
     w = 0%Z ∧ (k < 1)%Z ∧
     py_sum (Rabs <$> bfgs_gradient square_f (Some square_fprime) xk)
       <= INR 1 * 1e-5) ∧
    fminBFGS square_f (Some square_fprime) 0 [1] 1e-5 (Some 1%Z) false
      = Ok (Some (Xopt xk,
                  [log_maxiter_exceeded; log_fval 0; log_iterations 1;
                   log_fcalls 3; log_gcalls 2])).
Proof.
  apply (fminBFGS_result square_f (Some square_fprime) 0 [1] 1e-5 (Some 1%Z)).
  apply fminBFGS_square.
Defined.

End bfgs_extra_examples.
